(** * OpenAPI generator: a shallow embedding of [src/openApiGenerator.ts]

    The generator reads a parsed OpenAPI document (the value returned by
    [yaml.load]) and writes TypeScript text files: one DTO file per schema, an
    index file, and one client class.

    Modelling conventions.
    - JavaScript strings are modelled by [string] on their 7-bit ASCII
      fragment (code units below 128); on this fragment [toUpperCase] and
      [toLowerCase] change letters only and the text written to a file is the
      string itself.
    - A value loaded from YAML is a [JsVal]: null, booleans, integers, strings,
      arrays and plain objects whose own keys are kept in enumeration order.
      [JUndefined] is what reading a missing property gives.  A number is
      the integer it denotes, printed in decimal notation: this is what
      JavaScript prints for the integers a double holds exactly
      ([safe_integer]); other numbers and dates are outside the model.
    - A JavaScript exception is the [Throw] completion; every function that
      can raise returns a [completion].
    - The file system is a finite map from path to content; [fs.writeFile]
      overwrites, and creating directories and writing files are taken to
      succeed, as they do when the names of the schemas are file names
      ([component_key]).  Scanning the directory tree and parsing YAML are
      outside the model: the generator starts from the list of files found,
      each with what [yaml.load] gave for it.
    - A statement whose content depends on one of these conventions carries
      it as a hypothesis: [ascii7], [safe_integer], [component_key],
      [no_proto_property], or [representable] for all of a document. *)

From Stdlib Require Import ZArith Ascii String List Bool Lia DecimalString.
From stdpp Require Import base option list strings gmap fin_maps.

Local Open Scope string_scope.
Local Open Scope list_scope.

(** ** Strings *)

Module Str.

Definition charCode (c : ascii) : nat := nat_of_ascii c.

Definition is_digit (c : ascii) : bool :=
  (48 <=? charCode c)%nat && (charCode c <=? 57)%nat.
Definition is_lower (c : ascii) : bool :=
  (97 <=? charCode c)%nat && (charCode c <=? 122)%nat.
Definition is_upper (c : ascii) : bool :=
  (65 <=? charCode c)%nat && (charCode c <=? 90)%nat.

(** The character class [[a-zA-Z0-9]]. *)
Definition is_alnum (c : ascii) : bool := is_lower c || is_upper c || is_digit c.

(** The character class [\s] on ASCII: TAB, LF, VT, FF, CR and space. *)
Definition is_space (c : ascii) : bool :=
  ((9 <=? charCode c)%nat && (charCode c <=? 13)%nat) || (charCode c =? 32)%nat.

(** The character class [[-_\s]]. *)
Definition is_sep (c : ascii) : bool :=
  (charCode c =? 45)%nat || (charCode c =? 95)%nat || is_space c.

(** What [.] matches: any character but a line terminator. *)
Definition is_dot (c : ascii) : bool :=
  negb ((charCode c =? 10)%nat || (charCode c =? 13)%nat).

(** The case mappings on 7-bit ASCII: only the letters [a-z] and [A-Z]
    change. *)
Definition upper_char (c : ascii) : ascii :=
  if is_lower c then ascii_of_nat (charCode c - 32) else c.
Definition lower_char (c : ascii) : ascii :=
  if is_upper c then ascii_of_nat (charCode c + 32) else c.

Fixpoint map (f : ascii -> ascii) (s : string) : string :=
  match s with
  | EmptyString => EmptyString
  | String c s' => String (f c) (map f s')
  end.

Fixpoint filter (p : ascii -> bool) (s : string) : string :=
  match s with
  | EmptyString => EmptyString
  | String c s' => if p c then String c (filter p s') else filter p s'
  end.

Fixpoint forallb (p : ascii -> bool) (s : string) : bool :=
  match s with
  | EmptyString => true
  | String c s' => p c && forallb p s'
  end.

Definition toUpperCase : string -> string := map upper_char.
Definition toLowerCase : string -> string := map lower_char.

(** [s.charAt(0)]: the first character as a string, or the empty string. *)
Definition charAt0 (s : string) : string :=
  match s with
  | EmptyString => EmptyString
  | String c _ => String c EmptyString
  end.

(** [s.slice(1)]. *)
Definition slice1 (s : string) : string :=
  match s with
  | EmptyString => EmptyString
  | String _ s' => s'
  end.

Fixpoint drop_last (s : string) : string :=
  match s with
  | EmptyString => EmptyString
  | String c EmptyString => EmptyString
  | String c s' => String c (drop_last s')
  end.

(** [s.slice(1, -1)]. *)
Definition slice_1_m1 (s : string) : string := drop_last (slice1 s).

(** [xs.join(sep)] on an array of strings. *)
Fixpoint join (sep : string) (xs : list string) : string :=
  match xs with
  | [] => ""
  | [x] => x
  | x :: rest => x +:+ sep +:+ join sep rest
  end.

(** [s.split(sep)] for a one-character separator: never empty. *)
Fixpoint split (sep : ascii) (s : string) : list string :=
  match s with
  | EmptyString => [EmptyString]
  | String c s' =>
      if Ascii.eqb c sep then EmptyString :: split sep s'
      else match split sep s' with
           | [] => [String c EmptyString]
           | seg :: segs => String c seg :: segs
           end
  end.

(** [s.split("/").pop()]: the text after the last slash. *)
Definition last_segment (s : string) : string :=
  List.last (split "/" s) EmptyString.

Definition of_nat (n : nat) : string := NilZero.string_of_uint (Nat.to_uint n).
Definition of_Z (z : Z) : string := NilZero.string_of_int (Z.to_int z).

End Str.

(** ** Regular expressions used by the generator *)

Module Regex.

(** One step of a global scan: a character copied as it is, or a match. *)
Inductive piece : Type :=
| Lit (c : ascii)
| Hit (whole : string) (group1 : string).

(** A global scan ([/g]) from left to right.  [match_at s] tries the
    pattern at the start of [s] and returns the matched text with its first
    capture group; after a match the scan resumes behind it, which [skip]
    counts down. *)
Fixpoint scan (match_at : string -> option (string * string))
         (skip : nat) (s : string) : list piece :=
  match s with
  | EmptyString => []
  | String c s' =>
      match skip with
      | S k => scan match_at k s'
      | O =>
          match match_at s with
          | Some (whole, g) => Hit whole g :: scan match_at (String.length whole - 1) s'
          | None => Lit c :: scan match_at 0 s'
          end
      end
  end.

(** [s.match(re)] with the [g] flag: every matched text, [None] for JS
    [null] when nothing matches. *)
Definition match_all (match_at : string -> option (string * string))
           (s : string) : option (list string) :=
  match omap (fun p => match p with Hit w _ => Some w | Lit _ => None end)
             (scan match_at 0 s) with
  | [] => None
  | ms => Some ms
  end.

(** [s.replace(re, f)] with the [g] flag; [f] receives the matched text and
    the first group. *)
Definition replace_all (match_at : string -> option (string * string))
           (f : string -> string -> string) (s : string) : string :=
  String.concat "" (List.map (fun p => match p with
                                       | Hit w g => f w g
                                       | Lit c => String c EmptyString
                                       end)
                             (scan match_at 0 s)).

(** [[^}]+\}] at the start of [s], greedy with backtracking: one character
    other than a closing brace, then preferably a longer run, otherwise the
    closing brace.  Returns the run and what follows the brace. *)
Fixpoint not_close_plus_close (s : string) : option (string * string) :=
  match s with
  | EmptyString => None
  | String c s' =>
      if Ascii.eqb c "}" then None
      else match not_close_plus_close s' with
           | Some (run, rest) => Some (String c run, rest)
           | None =>
               match s' with
               | String d rest => if Ascii.eqb d "}" then Some (String c EmptyString, rest) else None
               | EmptyString => None
               end
           end
  end.

(** [/\{([^}]+)\}/] at the start of [s]. *)
Definition brace_token (s : string) : option (string * string) :=
  match s with
  | String c s' =>
      if Ascii.eqb c "{" then
        match not_close_plus_close s' with
        | Some (run, _) => Some ("{" +:+ run +:+ "}", run)
        | None => None
        end
      else None
  | EmptyString => None
  end.

(** [[-_\s]+(.)] at the start of [s], greedy with backtracking.  Returns the
    separators consumed and the captured character. *)
Fixpoint sep_plus_dot (s : string) : option (string * ascii) :=
  match s with
  | EmptyString => None
  | String c s' =>
      if Str.is_sep c then
        match sep_plus_dot s' with
        | Some (seps, d) => Some (String c seps, d)
        | None =>
            match s' with
            | String d _ => if Str.is_dot d then Some (String c EmptyString, d) else None
            | EmptyString => None
            end
        end
      else None
  end.

(** [/[-_\s]+(.)/] at the start of [s]. *)
Definition sep_then_char (s : string) : option (string * string) :=
  match sep_plus_dot s with
  | Some (seps, d) => Some (seps +:+ String d EmptyString, String d EmptyString)
  | None => None
  end.

(** [/[^a-zA-Z0-9]/g] replaced by the empty string. *)
Definition strip_non_alnum (s : string) : string := Str.filter Str.is_alnum s.

End Regex.

(** ** Naming utilities and the operation analyzer's string functions *)

(** [extractPathParameters], lines 358-361. *)
Definition extractPathParameters (pathTemplate : string) : list string :=
  match Regex.match_all Regex.brace_token pathTemplate with
  | Some matches => List.map Str.slice_1_m1 matches
  | None => []
  end.

(** [generateOperationId], lines 368-371; [method] is not used. *)
Definition generateOperationId (method path : string) : string :=
  let cleanPath :=
    Regex.strip_non_alnum (Regex.replace_all Regex.brace_token (fun _ _ => "By") path) in
  cleanPath.

(** [camelCase], lines 373-381. *)
Definition camelCase (str : string) : string :=
  Str.toLowerCase (Str.charAt0 str)
  +:+ Regex.strip_non_alnum
       (Regex.replace_all Regex.sep_then_char (fun _ char => Str.toUpperCase char)
                          (Str.slice1 str)).

(** [pascalCase], lines 383-386. *)
Definition pascalCase (str : string) : string :=
  let camelCased := camelCase str in
  Str.toUpperCase (Str.charAt0 camelCased) +:+ Str.slice1 camelCased.

(** ** JavaScript values and completions *)

#[warning="-register-all"]
Inductive JsVal : Type :=
| JUndefined
| JNull
| JBool (b : bool)
| JNum (n : Z)
| JStr (s : string)
| JArr (elems : list JsVal)
| JObj (props : list (string * JsVal)).

Inductive JsError : Type := TypeError.

(** The outcome of evaluating JavaScript code: a value, or an exception. *)
Inductive completion (A : Type) : Type :=
| Normal (a : A)
| Throw (e : JsError).
Arguments Normal {A} a.
Arguments Throw {A} e.

Definition bind {A B : Type} (c : completion A) (f : A -> completion B) : completion B :=
  match c with
  | Normal a => f a
  | Throw e => Throw e
  end.

Declare Scope js_scope.
Delimit Scope js_scope with js.
Notation "x <- c ;; k" := (bind c (fun x => k))
  (at level 20, c at level 99, k at level 200, only parsing) : js_scope.
Notation "' p <- c ;; k" := (bind c (fun x => let 'p := x in k))
  (at level 20, p pattern, c at level 99, k at level 200, only parsing) : js_scope.
Local Open Scope js_scope.

(** A left-to-right loop whose body may throw. *)
Definition foldM {A S : Type} (f : A -> S -> completion S) : list A -> S -> completion S :=
  fix loop (xs : list A) (s : S) : completion S :=
    match xs with
    | [] => Normal s
    | x :: rest => s' <- f x s ;; loop rest s'
    end.

Definition mapM {A B : Type} (f : A -> completion B) : list A -> completion (list B) :=
  fix loop (xs : list A) : completion (list B) :=
    match xs with
    | [] => Normal []
    | x :: rest => y <- f x ;; ys <- loop rest ;; Normal (y :: ys)
    end.

Module Js.

(** ToBoolean. *)
Definition truthy (v : JsVal) : bool :=
  match v with
  | JUndefined | JNull => false
  | JBool b => b
  | JNum n => negb (n =? 0)%Z
  | JStr s => negb (String.eqb s "")
  | JArr _ | JObj _ => true
  end.

(** [a || b]. *)
Definition or (a b : JsVal) : JsVal := if truthy a then a else b.

(** [v === "text"]. *)
Definition is_str (v : JsVal) (text : string) : bool :=
  match v with
  | JStr s => String.eqb s text
  | _ => false
  end.

(** The first entry of an object under a key. *)
Fixpoint lookup (props : list (string * JsVal)) (key : string) : option JsVal :=
  match props with
  | [] => None
  | (k, v) :: rest => if String.eqb k key then Some v else lookup rest key
  end.

(** [lookup] in continuation form: recursive functions over [JsVal] use it
    to descend into the value found. *)
Definition with_prop {R : Type} (key : string) (present : JsVal -> R) (absent : R)
  : list (string * JsVal) -> R :=
  fix find (props : list (string * JsVal)) : R :=
    match props with
    | [] => absent
    | (k, v) :: rest => if String.eqb k key then present v else find rest
    end.

(** [v.key] for one of the property names the generator reads, none of
    which is defined on a built-in prototype: the own property of an object,
    [undefined] on any other value, a TypeError on null and undefined. *)
Definition get (v : JsVal) (key : string) : completion JsVal :=
  match v with
  | JUndefined | JNull => Throw TypeError
  | JObj props => Normal (default JUndefined (lookup props key))
  | _ => Normal JUndefined
  end.

(** [v?.key]. *)
Definition get_opt (v : JsVal) (key : string) : JsVal :=
  match v with
  | JObj props => default JUndefined (lookup props key)
  | _ => JUndefined
  end.

Fixpoint chars (s : string) : list JsVal :=
  match s with
  | EmptyString => []
  | String c s' => JStr (String c EmptyString) :: chars s'
  end.

Fixpoint indexed (i : nat) (vs : list JsVal) : list (string * JsVal) :=
  match vs with
  | [] => []
  | v :: rest => (Str.of_nat i, v) :: indexed (S i) rest
  end.

(** The own enumerable properties of a value that is not null or undefined:
    the entries of an object, the indexed elements of an array, the indexed
    characters of a string, nothing for a number or a boolean. *)
Definition own_entries (v : JsVal) : list (string * JsVal) :=
  match v with
  | JObj props => props
  | JArr elems => indexed 0 elems
  | JStr s => indexed 0 (chars s)
  | _ => []
  end.

(** [Object.entries(v)]; [Object.keys] and [Object.values] give the first
    and second components. *)
Definition entries (v : JsVal) : completion (list (string * JsVal)) :=
  match v with
  | JUndefined | JNull => Throw TypeError
  | _ => Normal (own_entries v)
  end.

(** The elements an iterable yields ([for ... of], [new Set(v)]): arrays and
    strings are iterable, other values loaded from YAML are not. *)
Definition iterate (v : JsVal) : completion (list JsVal) :=
  match v with
  | JArr elems => Normal elems
  | JStr s => Normal (chars s)
  | _ => Throw TypeError
  end.

(** The elements of [v] when [v] is an array, for the array methods
    [map], [forEach] and [filter]; on any other value the method is missing
    and the call throws. *)
Definition array_elems (v : JsVal) : completion (list JsVal) :=
  match v with
  | JArr elems => Normal elems
  | _ => Throw TypeError
  end.

(** [ref.split("/").pop()] for a truthy [ref]: only strings have [split]. *)
Definition split_pop (ref : JsVal) : completion string :=
  match ref with
  | JStr s => Normal (Str.last_segment s)
  | _ => Throw TypeError
  end.

Definition has_key (props : list (string * JsVal)) (key : string) : bool :=
  match lookup props key with Some _ => true | None => false end.

(** [xs.join(sep)] where an element is converted by [conv], except null and
    undefined, which give the empty string. *)
Definition join_with (conv : JsVal -> completion string) (sep : string)
  : list JsVal -> completion string :=
  let elem x := match x with
                | JUndefined | JNull => Normal ""
                | _ => conv x
                end in
  fix loop (xs : list JsVal) : completion string :=
    match xs with
    | [] => Normal ""
    | [x] => elem x
    | x :: rest => a <- elem x ;; b <- loop rest ;; Normal (a +:+ sep +:+ b)
    end.

(** ToString.  An array is joined with commas; a plain object gives
    [[object Object]] unless an own [toString] entry (never callable in a
    value loaded from YAML) hides the inherited method, in which case the
    conversion throws. *)
Fixpoint ToString (v : JsVal) : completion string :=
  match v with
  | JUndefined => Normal "undefined"
  | JNull => Normal "null"
  | JBool true => Normal "true"
  | JBool false => Normal "false"
  | JNum n => Normal (Str.of_Z n)
  | JStr s => Normal s
  | JArr elems => join_with ToString "," elems
  | JObj props => if has_key props "toString" then Throw TypeError
                  else Normal "[object Object]"
  end.

(** [xs.join(sep)]. *)
Definition join (sep : string) (xs : list JsVal) : completion string :=
  join_with ToString sep xs.

End Js.

(** ** Insertion-ordered sets of strings ([Set<string>]) *)

Module StrSet.

Definition t := list string.

Definition has (x : string) (s : t) : bool :=
  existsb (String.eqb x) s.

Definition add (x : string) (s : t) : t :=
  if has x s then s else s ++ [x].

(** The string members of a list of values.  Both sets of the generator are
    only ever asked about strings, so other members are not kept. *)
Fixpoint strings_of (vs : list JsVal) : list string :=
  match vs with
  | [] => []
  | JStr s :: rest => s :: strings_of rest
  | _ :: rest => strings_of rest
  end.

Definition add_all (xs : list string) (s : t) : t :=
  fold_left (fun acc x => add x acc) xs s.

End StrSet.

(** ** Plain objects as ordered property lists *)

Module Obj.

Fixpoint digits_value (s : string) (acc : N) : option N :=
  match s with
  | EmptyString => Some acc
  | String c s' =>
      if Str.is_digit c
      then digits_value s' (10 * acc + N.of_nat (Str.charCode c - 48))%N
      else None
  end.

(** An array index: the canonical decimal text of an integer below
    [2^32 - 1].  Such keys are enumerated first, in ascending order. *)
Definition array_index (k : string) : option N :=
  match k with
  | EmptyString => None
  | String c rest =>
      if Ascii.eqb c "0" && negb (String.eqb rest "") then None
      else match digits_value k 0 with
           | Some n => if (n <? 4294967295)%N then Some n else None
           | None => None
           end
  end.

Fixpoint replace (k : string) (v : JsVal) (props : list (string * JsVal)) :=
  match props with
  | [] => []
  | (k', v') :: rest =>
      if String.eqb k' k then (k, v) :: rest else (k', v') :: replace k v rest
  end.

Fixpoint insert_index (i : N) (k : string) (v : JsVal) (props : list (string * JsVal)) :=
  match props with
  | [] => [(k, v)]
  | (k', v') :: rest =>
      match array_index k' with
      | Some j => if (j <? i)%N then (k', v') :: insert_index i k v rest
                  else (k, v) :: props
      | None => (k, v) :: props
      end
  end.

(** [target[k] = v] on an object created by [{}].  An existing property
    keeps its place; a new array-index key goes among the index keys, any
    other new key goes last.  Assigning to [__proto__] runs the inherited
    setter and creates no own property; the setter is the inherited one as
    long as no earlier assignment to [__proto__] has given the target
    another prototype. *)
Definition set (props : list (string * JsVal)) (k : string) (v : JsVal) :=
  if String.eqb k "__proto__" then props
  else if Js.has_key props k then replace k v props
  else match array_index k with
       | Some i => insert_index i k v props
       | None => props ++ [(k, v)]
       end.

(** [Object.assign(target, source)]. *)
Definition assign (target : list (string * JsVal)) (source : JsVal) :=
  fold_left (fun t kv => set t (fst kv) (snd kv)) (Js.own_entries source) target.

End Obj.

(** ** Type resolver and DTO emitter *)

Definition LF : string := String (ascii_of_nat 10) EmptyString.

(** The mapping [(v) => (typeof v === "string" ? `'${v}'` : v)]. *)
Definition enum_literal (v : JsVal) : JsVal :=
  match v with
  | JStr s => JStr ("'" +:+ s +:+ "'")
  | _ => v
  end.

(** [enum.map(...).join(" | ")], lines 146 and 224. *)
Definition enum_union (enum : JsVal) : completion string :=
  elems <- Js.array_elems enum ;;
  Js.join " | " (List.map enum_literal elems).

(** [getTypeScriptType], lines 216-248.  [allSchemas] is passed along and
    never read.  The values of a string are one-character strings, whose type
    is [any]. *)
Fixpoint getTypeScriptType (schema : JsVal) (allSchemas : JsVal) : completion string :=
  match schema with
  | JUndefined | JNull => Throw TypeError
  | JObj props =>
      let ref := default JUndefined (Js.lookup props "$ref") in
      let enum := default JUndefined (Js.lookup props "enum") in
      let type := default JUndefined (Js.lookup props "type") in
      let format := default JUndefined (Js.lookup props "format") in
      if Js.truthy ref then
        refName <- Js.split_pop ref ;;
        Normal (if String.eqb refName "" then "any" else refName)
      else if Js.truthy enum then enum_union enum
      else if Js.is_str type "string" then
        Normal (if Js.is_str format "date-time" || Js.is_str format "date"
                then "Date" else "string")
      else if Js.is_str type "number" || Js.is_str type "integer" then Normal "number"
      else if Js.is_str type "boolean" then Normal "boolean"
      else if Js.is_str type "array" then
        Js.with_prop "items"
          (fun items =>
             if Js.truthy items then
               t <- getTypeScriptType items allSchemas ;; Normal (t +:+ "[]")
             else Normal "any[]")
          (Normal "any[]") props
      else if Js.is_str type "object" then
        Js.with_prop "properties"
          (fun properties =>
             if Js.truthy properties then
               types <- match properties with
                        | JObj kvs =>
                            mapM (fun '(_, prop) => getTypeScriptType prop allSchemas) kvs
                        | JArr elems =>
                            mapM (fun prop => getTypeScriptType prop allSchemas) elems
                        | JStr s => Normal (List.map (fun _ => "any") (Js.chars s))
                        | _ => Normal []
                        end ;;
               let props :=
                 Str.join "; "
                   (List.map (fun '(key, t) => key +:+ ": " +:+ t)
                             (List.combine (List.map fst (Js.own_entries properties)) types)) in
               Normal ("{ " +:+ props +:+ " }")
             else Normal "Record<string, any>")
          (Normal "Record<string, any>") props
      else Normal "any"
  | _ => Normal "any"
  end.

(** The inner function [collectRefs], lines 174-187; the set [usedRefs] it
    updates is passed in and returned.  [name] is the schema being emitted. *)
Fixpoint collectRefs (name : string) (propSchema : JsVal) (usedRefs : StrSet.t)
  : completion StrSet.t :=
  match propSchema with
  | JUndefined | JNull => Throw TypeError
  | JObj props =>
      let ref := default JUndefined (Js.lookup props "$ref") in
      let type := default JUndefined (Js.lookup props "type") in
      usedRefs <-
        (if Js.truthy ref then
           refName <- Js.split_pop ref ;;
           Normal (if negb (String.eqb refName "") && negb (String.eqb refName name)
                   then StrSet.add refName usedRefs else usedRefs)
         else Normal usedRefs) ;;
      usedRefs <-
        (if Js.is_str type "array" then
           Js.with_prop "items"
             (fun items =>
                if Js.truthy items then collectRefs name items usedRefs
                else Normal usedRefs)
             (Normal usedRefs) props
         else Normal usedRefs) ;;
      if Js.is_str type "object" then
        Js.with_prop "properties"
          (fun properties =>
             if Js.truthy properties then
               match properties with
               | JObj kvs => foldM (fun '(_, prop) => collectRefs name prop) kvs usedRefs
               | JArr elems => foldM (collectRefs name) elems usedRefs
               | _ => Normal usedRefs
               end
             else Normal usedRefs)
          (Normal usedRefs) props
      else Normal usedRefs
  | _ => Normal usedRefs
  end.

(** The local variables of [generateDTOType] that the [allOf] loop updates. *)
Record dto_vars : Type := {
  properties : JsVal;
  requiredProps : StrSet.t;
  usedRefs : StrSet.t;
  inheritance : list string;
}.

(** The properties of [properties] as an object under construction. *)
Definition props_of (v : JsVal) : list (string * JsVal) :=
  match v with
  | JObj props => props
  | _ => []
  end.

(** One iteration of the loop over [schema.allOf], lines 156-167. *)
Definition allOf_part (part : JsVal) (st : dto_vars) : completion dto_vars :=
  ref <- Js.get part "$ref" ;;
  if Js.truthy ref then
    refName <- Js.split_pop ref ;;
    if negb (String.eqb refName "") then
      Normal {| properties := properties st;
                requiredProps := requiredProps st;
                usedRefs := StrSet.add refName (usedRefs st);
                inheritance := inheritance st ++ [refName] |}
    else Normal st
  else
    type <- Js.get part "type" ;;
    partProperties <- Js.get part "properties" ;;
    if Js.is_str type "object" && Js.truthy partProperties then
      required <- Js.get part "required" ;;
      rs <- Js.array_elems (Js.or required (JArr [])) ;;
      Normal {| properties := JObj (Obj.assign (props_of (properties st)) partProperties);
                requiredProps := StrSet.add_all (StrSet.strings_of rs) (requiredProps st);
                usedRefs := usedRefs st;
                inheritance := inheritance st |}
    else Normal st.

(** Lines 150-171: the variables after the [allOf] loop, or after the
    [else] branch when the schema has no [allOf]. *)
Definition dto_collect (schema : JsVal) : completion dto_vars :=
  required <- Js.get schema "required" ;;
  initial <- Js.iterate (Js.or required (JArr [])) ;;
  let requiredProps := StrSet.add_all (StrSet.strings_of initial) [] in
  allOf <- Js.get schema "allOf" ;;
  if Js.truthy allOf then
    parts <- Js.iterate allOf ;;
    foldM allOf_part parts
          {| properties := JObj []; requiredProps := requiredProps;
             usedRefs := []; inheritance := [] |}
  else
    schemaProperties <- Js.get schema "properties" ;;
    rs <- Js.array_elems (Js.or required (JArr [])) ;;
    Normal {| properties := Js.or schemaProperties (JObj []);
              requiredProps := StrSet.add_all (StrSet.strings_of rs) requiredProps;
              usedRefs := []; inheritance := [] |}.

Definition import_line (ref : string) : string :=
  "import type { " +:+ ref +:+ " } from './" +:+ ref +:+ "';".

(** Lines 192-198. *)
Definition importSection (usedRefs : StrSet.t) : string :=
  match usedRefs with
  | [] => ""
  | _ => Str.join LF (List.map import_line usedRefs) +:+ LF +:+ LF
  end.

(** Line 201. *)
Definition extendsLine (inheritance : list string) : string :=
  match inheritance with
  | [] => ""
  | _ => " extends " +:+ Str.join ", " inheritance
  end.

(** One iteration of the loop over the properties, lines 205-208. *)
Definition field_line (requiredProps : StrSet.t) (allSchemas : JsVal)
           (entry : string * JsVal) : completion string :=
  let '(propName, propSchema) := entry in
  let isRequired := StrSet.has propName requiredProps in
  propType <- getTypeScriptType propSchema allSchemas ;;
  let optional := if isRequired then "" else "?" in
  Normal ("  " +:+ propName +:+ optional +:+ ": " +:+ propType +:+ ";" +:+ LF).

(** [generateDTOType], lines 141-213. *)
Definition generateDTOType (name : string) (schema allSchemas : JsVal) : completion string :=
  enum <- Js.get schema "enum" ;;
  if Js.truthy enum then
    enumType <- enum_union enum ;;
    Normal ("export type " +:+ name +:+ " = " +:+ enumType +:+ ";" +:+ LF)
  else
    st <- dto_collect schema ;;
    usedRefs <- foldM (collectRefs name) (List.map snd (Js.own_entries (properties st)))
                      (usedRefs st) ;;
    let typeContent :=
      importSection usedRefs +:+ "export interface " +:+ name
      +:+ extendsLine (inheritance st) +:+ " {" +:+ LF in
    fields <- mapM (field_line (requiredProps st) allSchemas)
                   (Js.own_entries (properties st)) ;;
    Normal (typeContent +:+ String.concat "" fields +:+ "}" +:+ LF).

(** ** Operation analyzer and client synthesizer *)

Definition filterM {A : Type} (f : A -> completion bool) : list A -> completion (list A) :=
  fix loop (xs : list A) : completion (list A) :=
    match xs with
    | [] => Normal []
    | x :: rest =>
        keep <- f x ;; ys <- loop rest ;; Normal (if keep then x :: ys else ys)
    end.

(** [extractQueryParameters], lines 363-366. *)
Definition extractQueryParameters (operation : JsVal) : completion (list JsVal) :=
  parameters <- Js.get operation "parameters" ;;
  elems <- Js.array_elems (Js.or parameters (JArr [])) ;;
  selected <- filterM (fun param => i <- Js.get param "in" ;; Normal (Js.is_str i "query"))
                      elems ;;
  mapM (fun param => Js.get param "name") selected.

(** [pascalCase] applied to a value that need not be a string: only strings
    have [charAt]. *)
Definition pascalCase_of (v : JsVal) : completion string :=
  match v with
  | JStr s => Normal (pascalCase s)
  | _ => Throw TypeError
  end.

Definition http_methods : list string := ["get"; "post"; "put"; "delete"; "patch"].

(** Line 277: [["get", ...].includes(method.toLowerCase())]. *)
Definition accepted_method (method : string) : bool :=
  existsb (String.eqb (Str.toLowerCase method)) http_methods.

(** Line 281: [operation.operationId || generateOperationId(method, pathTemplate)]. *)
Definition operationId_of (pathTemplate method : string) (operation : JsVal)
  : completion JsVal :=
  declared <- Js.get operation "operationId" ;;
  Normal (Js.or declared (JStr (generateOperationId method pathTemplate))).

(** Line 283. *)
Definition methodName_of (pathTemplate method : string) (operation : JsVal)
  : completion string :=
  operationId <- operationId_of pathTemplate method operation ;;
  pascal <- pascalCase_of operationId ;;
  Normal (method +:+ pascal).

(** Lines 290-304. *)
Definition jsdoc_of (pathTemplate method methodName : string) (operation : JsVal)
           (pathParams : list string) (queryParams : list JsVal) : completion string :=
  summary <- Js.get operation "summary" ;;
  summaryText <- Js.ToString
                   (Js.or summary (JStr (Str.toUpperCase method +:+ " " +:+ pathTemplate))) ;;
  description <- Js.get operation "description" ;;
  descriptionLine <-
    (if Js.truthy description then
       text <- Js.ToString description ;; Normal ("   * " +:+ text +:+ LF)
     else Normal "") ;;
  Normal ("  /**" +:+ LF
          +:+ "   * " +:+ summaryText +:+ LF
          +:+ descriptionLine
          +:+ String.concat ""
                (List.map (fun param => "   * @param " +:+ param +:+ " Path parameter" +:+ LF)
                          pathParams)
          +:+ (match queryParams with
               | [] => ""
               | _ => "   * @param queryParams Query parameters" +:+ LF
               end)
          +:+ "   * @returns URL for the " +:+ methodName +:+ " endpoint" +:+ LF
          +:+ "   */" +:+ LF).

(** Lines 306-321. *)
Definition methodSignature_of (methodName : string) (pathParams : list string)
           (queryParams : list JsVal) : completion string :=
  queryParam <-
    (match queryParams with
     | [] => Normal []
     | _ =>
         keys <- mapM (fun p => text <- Js.ToString p ;; Normal (text +:+ "?: any"))
                      queryParams ;;
         Normal ["queryParams?: { " +:+ Str.join "; " keys +:+ " }"]
     end) ;;
  let params := List.map (fun param => param +:+ ": string | number") pathParams
                ++ queryParam in
  Normal (methodName +:+ "(" +:+ Str.join ", " params +:+ "): string").

(** Lines 324-345. *)
Definition methodBody_of (pathTemplate : string) (pathParams : list string)
           (queryParams : list JsVal) : string :=
  "    let url = this.baseUrl + '" +:+ pathTemplate +:+ "';" +:+ LF
  +:+ String.concat ""
        (List.map (fun param => "    url = url.replace('{" +:+ param +:+ "}', String("
                                +:+ param +:+ "));" +:+ LF)
                  pathParams)
  +:+ (match queryParams with
       | [] => ""
       | _ =>
           "    if (queryParams) {" +:+ LF
           +:+ "      const searchParams = new URLSearchParams();" +:+ LF
           +:+ "      Object.entries(queryParams).forEach(([key, value]) => {" +:+ LF
           +:+ "        if (value !== undefined && value !== null) {" +:+ LF
           +:+ "          searchParams.append(key, String(value));" +:+ LF
           +:+ "        }" +:+ LF
           +:+ "      });" +:+ LF
           +:+ "      const queryString = searchParams.toString();" +:+ LF
           +:+ "      if (queryString) url += '?' + queryString;" +:+ LF
           +:+ "    }" +:+ LF
       end)
  +:+ "    return url;".

(** The body of the inner loop, lines 277-348: [None] when the entry is
    skipped by [continue], otherwise the text pushed on [methods]. *)
Definition generateMethod (pathTemplate method : string) (operation : JsVal)
  : completion (option string) :=
  if negb (accepted_method method) then Normal None
  else
    methodName <- methodName_of pathTemplate method operation ;;
    let pathParams := extractPathParameters pathTemplate in
    queryParams <- extractQueryParameters operation ;;
    jsdoc <- jsdoc_of pathTemplate method methodName operation pathParams queryParams ;;
    methodSignature <- methodSignature_of methodName pathParams queryParams ;;
    let methodBody := methodBody_of pathTemplate pathParams queryParams in
    let fullMethod :=
      jsdoc +:+ "  " +:+ methodSignature +:+ " {" +:+ LF +:+ methodBody +:+ LF +:+ "  }" in
    Normal (Some fullMethod).

(** The loops of lines 275-350: the array [methods]. *)
Definition pathItem_methods (pathTemplate : string) (pathItem : JsVal)
  : completion (list string) :=
  operations <- Js.entries pathItem ;;
  found <- mapM (fun '(method, operation) => generateMethod pathTemplate method operation)
                operations ;;
  Normal (omap id found).

Definition client_methods (spec : JsVal) : completion (list string) :=
  paths <- Js.get spec "paths" ;;
  items <- Js.entries paths ;;
  perPath <- mapM (fun '(pathTemplate, pathItem) => pathItem_methods pathTemplate pathItem)
                  items ;;
  Normal (List.concat perPath).

(** The letter e with an acute accent, as written to a UTF-8 file. *)
Definition e_acute : string :=
  String (ascii_of_nat 195) (String (ascii_of_nat 169) EmptyString).

(** The template of lines 253-271. *)
Definition client_header (fileName baseUrl className : string) : string :=
  "/**" +:+ LF
  +:+ " * Client API g" +:+ e_acute +:+ "n" +:+ e_acute +:+ "r" +:+ e_acute
      +:+ " pour " +:+ fileName +:+ LF
  +:+ " * Base URL: " +:+ baseUrl +:+ LF
  +:+ " */" +:+ LF
  +:+ "export class " +:+ className +:+ " {" +:+ LF
  +:+ "  private baseUrl: string;" +:+ LF
  +:+ LF
  +:+ "  constructor(baseUrl?: string) {" +:+ LF
  +:+ "    this.baseUrl = (baseUrl || '" +:+ baseUrl +:+ "').replace(/\/$/, '');" +:+ LF
  +:+ "  }" +:+ LF
  +:+ LF
  +:+ "  /**" +:+ LF
  +:+ "   * Obtient l'URL de base configur" +:+ e_acute +:+ "e" +:+ LF
  +:+ "   */" +:+ LF
  +:+ "  getBaseUrl(): string {" +:+ LF
  +:+ "    return this.baseUrl;" +:+ LF
  +:+ "  }" +:+ LF
  +:+ LF.

(** The fields of [GeneratedFile]. *)
Record GeneratedFile : Type := {
  fileName : string;
  className : string;
  baseUrl : JsVal;
  spec : JsVal;
}.

(** The text of the client file, lines 251-352. *)
Definition clientContent_of (fileInfo : GeneratedFile) : completion string :=
  base <- Js.ToString (baseUrl fileInfo) ;;
  methods <- client_methods (spec fileInfo) ;;
  Normal (client_header (fileName fileInfo) base (className fileInfo)
          +:+ Str.join (LF +:+ LF) methods +:+ LF +:+ "}" +:+ LF).

(** ** Writing files *)

Section Generator.

(** [path.join] of the host platform. *)
Variable path_join : string -> string -> string.

(** [fs.writeFile(path.join(dir, file), content)]. *)
Definition writeFile (dir file content : string) (fs : gmap string string)
  : gmap string string :=
  <[path_join dir file := content]> fs.

Definition export_line (schemaName : string) : string :=
  "export type { " +:+ schemaName +:+ " } from './" +:+ schemaName +:+ "';".

(** The loop of lines 128-134: the files written so far and, unless a
    schema made [generateDTOType] throw, the array [dtoExports]. *)
Fixpoint generateDTOs_loop (entries : list (string * JsVal)) (schemas : JsVal)
         (dtoDir : string) (dtoExports : list string) (fs : gmap string string)
  : completion (list string) * gmap string string :=
  match entries with
  | [] => (Normal dtoExports, fs)
  | (schemaName, schema) :: rest =>
      match generateDTOType schemaName schema schemas with
      | Throw e => (Throw e, fs)
      | Normal dtoContent =>
          generateDTOs_loop rest schemas dtoDir
            (dtoExports ++ [export_line schemaName])
            (writeFile dtoDir (schemaName +:+ ".ts") dtoContent fs)
      end
  end.

(** [generateDTOs], lines 125-139. *)
Definition generateDTOs (schemas : JsVal) (dtoDir : string) (fs : gmap string string)
  : completion unit * gmap string string :=
  match Js.entries schemas with
  | Throw e => (Throw e, fs)
  | Normal entries =>
      match generateDTOs_loop entries schemas dtoDir [] fs with
      | (Throw e, fs') => (Throw e, fs')
      | (Normal dtoExports, fs') =>
          let indexContent := Str.join LF dtoExports +:+ LF in
          (Normal tt, writeFile dtoDir "index.ts" indexContent fs')
      end
  end.

(** [generateClientClass], lines 250-356. *)
Definition generateClientClass (fileInfo : GeneratedFile) (clientsDir : string)
           (fileNameOverride : option string) (fs : gmap string string)
  : completion unit * gmap string string :=
  match clientContent_of fileInfo with
  | Throw e => (Throw e, fs)
  | Normal clientContent =>
      let clientFileName :=
        match fileNameOverride with
        | Some f => if String.eqb f "" then className fileInfo +:+ ".ts" else f
        | None => className fileInfo +:+ ".ts"
        end in
      (Normal tt, writeFile clientsDir clientFileName clientContent fs)
  end.

(** A YAML file found by the directory walk: [path.dirname] of its path,
    its base name without extension, and what [yaml.load] gives for its
    content (an exception when it does not parse). *)
Record SpecFile : Type := {
  dirname : string;
  basename : string;
  loaded : completion JsVal;
}.

(** [spec.servers?.[0]?.url ?? ""], line 82. *)
Definition baseUrl_of (spec : JsVal) : completion JsVal :=
  servers <- Js.get spec "servers" ;;
  let first :=
    match servers with
    | JArr (x :: _) => x
    | JStr (String c _) => JStr (String c EmptyString)
    | JObj props => default JUndefined (Js.lookup props "0")
    | _ => JUndefined
    end in
  Normal (match Js.get_opt first "url" with
          | JUndefined | JNull => JStr ""
          | url => url
          end).

(** The body of the [try] block of lines 78-113 for one file. *)
Definition generateForFile (file : SpecFile) (fs : gmap string string)
  : completion unit * gmap string string :=
  match (spec <- loaded file ;; baseUrl <- baseUrl_of spec ;;
         components <- Js.get spec "components" ;;
         Normal (spec, baseUrl, components)) with
  | Throw e => (Throw e, fs)
  | Normal (spec, baseUrl, components) =>
      let fileName := basename file in
      let className := pascalCase fileName +:+ "Client" in
      let generatedDir := path_join (dirname file) "generated" in
      let dtoDir := path_join generatedDir "models" in
      let clientDir := generatedDir in
      let allSchemas := Js.or (Js.get_opt components "schemas") (JObj []) in
      let dtos :=
        match Js.own_entries allSchemas with
        | [] => (Normal tt, fs)
        | _ => generateDTOs allSchemas dtoDir fs
        end in
      match dtos with
      | (Throw e, fs') => (Throw e, fs')
      | (Normal _, fs') =>
          generateClientClass
            {| fileName := fileName; className := className;
               baseUrl := baseUrl; spec := spec |}
            clientDir (Some "openApi.ts") fs'
      end
  end.

(** The loop of lines 77-117 of [generateFromOpenAPIFiles] over the files
    found: an exception raised for one file is caught and logged, and the
    loop goes on with the next file. *)
Fixpoint generateFromOpenAPIFiles (files : list SpecFile) (fs : gmap string string)
  : gmap string string :=
  match files with
  | [] => fs
  | file :: rest => generateFromOpenAPIFiles rest (snd (generateForFile file fs))
  end.

End Generator.

(** ** Path templates, for stating what the analyzer computes *)

(** A piece of literal text has no opening brace. *)
Definition no_open (s : string) : bool :=
  Str.forallb (fun c => negb (Ascii.eqb c "{")) s.

(** A token is not empty and has no closing brace. *)
Definition is_token (s : string) : bool :=
  negb (String.eqb s "") && Str.forallb (fun c => negb (Ascii.eqb c "}")) s.

(** The template [lit1{tok1}lit2{tok2}...tail]. *)
Fixpoint template (segments : list (string * string)) (tail : string) : string :=
  match segments with
  | [] => tail
  | (lit, tok) :: rest => lit +:+ "{" +:+ tok +:+ "}" +:+ template rest tail
  end.

Definition well_formed (segments : list (string * string)) (tail : string) : bool :=
  forallb (fun seg => no_open (fst seg) && is_token (snd seg)) segments && no_open tail.

(** The identifier the spec derives from a template: every token becomes
    [By], and of the literal text only letters and digits are kept. *)
Fixpoint derived_identifier (segments : list (string * string)) (tail : string) : string :=
  match segments with
  | [] => Regex.strip_non_alnum tail
  | (lit, _) :: rest =>
      Regex.strip_non_alnum lit +:+ "By" +:+ derived_identifier rest tail
  end.

(** Text in which the pattern matches nowhere is copied character by
    character. *)
Fixpoint literal (s : string) : list Regex.piece :=
  match s with
  | EmptyString => []
  | String c s' => Regex.Lit c :: literal s'
  end.

(** The pieces of a well-formed template: its literal characters, and one
    match per token. *)
Fixpoint template_pieces (segments : list (string * string)) (tail : string)
  : list Regex.piece :=
  match segments with
  | [] => literal tail
  | (lit, tok) :: rest =>
      literal lit ++ Regex.Hit ("{" +:+ tok +:+ "}") tok :: template_pieces rest tail
  end.

(** ** Schemas, for stating what the emitter computes *)

(** The number of nodes of a value. *)
Fixpoint size (v : JsVal) : nat :=
  match v with
  | JArr elems => S (list_sum (List.map size elems))
  | JObj props => S (list_sum (List.map (fun entry => size (snd entry)) props))
  | _ => 1
  end.

(** [reaches propSchema n]: the schema name [n] is the last path segment of a
    [$ref] found in [propSchema] itself, in the items of an array schema or
    in a property of an object schema, at any depth. *)
Inductive reaches : JsVal -> string -> Prop :=
| reaches_ref props ref :
    Js.lookup props "$ref" = Some (JStr ref) ->
    ref <> "" -> Str.last_segment ref <> "" ->
    reaches (JObj props) (Str.last_segment ref)
| reaches_items props type items n :
    Js.lookup props "type" = Some type -> Js.is_str type "array" = true ->
    Js.lookup props "items" = Some items -> Js.truthy items = true ->
    reaches items n ->
    reaches (JObj props) n
| reaches_properties props type properties key prop n :
    Js.lookup props "type" = Some type -> Js.is_str type "object" = true ->
    Js.lookup props "properties" = Some properties -> Js.truthy properties = true ->
    In (key, prop) (Js.own_entries properties) ->
    reaches prop n ->
    reaches (JObj props) n.

(** A part of [allOf] counts as a reference when its [$ref] is truthy, and
    as an inline object when it is no reference, its type is [object] and it
    has properties. *)
Definition is_ref_part (part : JsVal) : bool := Js.truthy (Js.get_opt part "$ref").

Definition is_inline_part (part : JsVal) : bool :=
  negb (is_ref_part part)
  && Js.is_str (Js.get_opt part "type") "object"
  && Js.truthy (Js.get_opt part "properties").

(** The base a reference part names: the last segment of its [$ref], unless
    that segment is empty. *)
Definition part_bases (part : JsVal) : list string :=
  match Js.get_opt part "$ref" with
  | JStr ref =>
      if String.eqb ref "" || String.eqb (Str.last_segment ref) "" then []
      else [Str.last_segment ref]
  | _ => []
  end.

(** The strings of a [required] list. *)
Definition required_names (required : JsVal) : list string :=
  match required with
  | JArr elems => StrSet.strings_of elems
  | JStr s => StrSet.strings_of (Js.chars s)
  | _ => []
  end.

Definition part_required (part : JsVal) : list string :=
  if is_inline_part part then required_names (Js.get_opt part "required") else [].

(** The property names an inline part contributes. *)
Definition part_keys (part : JsVal) : list string :=
  if is_inline_part part
  then List.filter (fun key => negb (String.eqb key "__proto__"))
                   (List.map fst (Js.own_entries (Js.get_opt part "properties")))
  else [].

(** The text of one field of an interface. *)
Definition field_text (required : list string) (propName propType : string) : string :=
  "  " +:+ propName +:+ (if StrSet.has propName required then "" else "?")
  +:+ ": " +:+ propType +:+ ";" +:+ LF.

(** The text of an enum literal that is a string, a number or a boolean. *)
Definition literal_text (v : JsVal) : string :=
  match v with
  | JStr s => "'" +:+ s +:+ "'"
  | JNum n => Str.of_Z n
  | JBool true => "true"
  | JBool false => "false"
  | _ => ""
  end.

Definition is_scalar (v : JsVal) : bool :=
  match v with
  | JStr _ | JNum _ | JBool _ => true
  | _ => false
  end.

(** ** Example schemas *)

Definition ref_to (schemaName : string) : JsVal :=
  JObj [("$ref", JStr ("#/components/schemas/" +:+ schemaName))].

Definition string_schema : JsVal := JObj [("type", JStr "string")].

(** [User]: an object whose properties refer to [User] itself once and to
    [Pet] twice. *)
Definition user_schema : JsVal :=
  JObj [("type", JStr "object");
        ("properties",
         JObj [("id", string_schema);
               ("friend", ref_to "User");
               ("pet", ref_to "Pet");
               ("pets", JObj [("type", JStr "array"); ("items", ref_to "Pet")])]);
        ("required", JArr [JStr "id"])].

(** [Derived]: [allOf] of a reference to [Base] and an inline object with
    the property [x]; [x] is required by the schema's own list only. *)
Definition derived_schema : JsVal :=
  JObj [("allOf",
         JArr [ref_to "Base";
               JObj [("type", JStr "object");
                     ("properties", JObj [("x", string_schema)])]]);
        ("required", JArr [JStr "x"])].

(** [Node]: [allOf] with a reference to [Node] itself. *)
Definition node_schema : JsVal :=
  JObj [("allOf",
         JArr [ref_to "Node";
               JObj [("type", JStr "object");
                     ("properties", JObj [("label", string_schema)])]])].

(** ** Write sequences, for stating what a run leaves on disk *)

(** The file system after a sequence of writes. *)
Definition apply_writes (writes : list (string * string)) (fs : gmap string string)
  : gmap string string :=
  fold_left (fun acc w => <[fst w := snd w]> acc) writes fs.

(** The content a sequence of writes leaves at a path: that of the last
    write to it. *)
Fixpoint written (writes : list (string * string)) (path : string) : option string :=
  match writes with
  | [] => None
  | (p, content) :: rest =>
      match written rest path with
      | Some later => Some later
      | None => if String.eqb p path then Some content else None
      end
  end.


(** A document whose first schema is [null]. *)
Definition broken_document : JsVal :=
  JObj [("paths", JObj [("/users", JObj [("get", JObj [])])]);
        ("components",
         JObj [("schemas", JObj [("Broken", JNull); ("User", user_schema)])])].

(** [path.join] on simple relative names, for examples. *)
Definition slash_join (dir file : string) : string := dir +:+ "/" +:+ file.

(** ** The directory walk *)

(** [name.endsWith(suffix)]. *)
Definition endsWith (name suffix : string) : bool :=
  let n := String.length name in
  let m := String.length suffix in
  (m <=? n)%nat && String.eqb (String.substring (n - m) m name) suffix.

(** An entry of [fs.readdir(dir, { withFileTypes: true })]: a file, a
    directory with the entries read from it in turn, or anything else (a
    symbolic link, a socket). *)
#[warning="-register-all"]
Inductive Dirent : Type :=
| DirentFile (name : string)
| DirentDir (name : string) (entries : list Dirent)
| DirentOther (name : string).

(** Line 59: the name of a file the walk keeps. *)
Definition is_yaml_name (name : string) : bool :=
  endsWith name ".yml" || endsWith name ".yaml".

(** One iteration of the loop of [walk], lines 55-62. *)
Fixpoint walk_entry (path_join : string -> string -> string) (dir : string)
         (entry : Dirent) : list string :=
  match entry with
  | DirentDir name entries =>
      flat_map (walk_entry path_join (path_join dir name)) entries
  | DirentFile name => if is_yaml_name name then [path_join dir name] else []
  | DirentOther _ => []
  end.

(** The inner function [walk], lines 51-65, on the entries of [dir]. *)
Definition walk (path_join : string -> string -> string) (dir : string)
           (entries : list Dirent) : list string :=
  flat_map (walk_entry path_join dir) entries.

(** The number of YAML files below a list of entries. *)
Fixpoint yaml_files (entry : Dirent) : nat :=
  match entry with
  | DirentDir _ entries => list_sum (List.map yaml_files entries)
  | DirentFile name => if is_yaml_name name then 1 else 0
  | DirentOther _ => 0
  end.

(** ** Names made of words, for stating what the case conversions compute *)

Definition no_sep (s : string) : bool :=
  Str.forallb (fun c => negb (Str.is_sep c)) s.

Definition all_sep (s : string) : bool :=
  negb (String.eqb s "") && Str.forallb Str.is_sep s.

(** Words after the first: each one is a run of separators, a first
    character and the rest of the word. *)
Fixpoint separated (words : list (string * ascii * string)) : string :=
  match words with
  | [] => ""
  | (seps, c, word) :: rest => seps +:+ String c word +:+ separated rest
  end.

Definition well_separated (words : list (string * ascii * string)) : bool :=
  forallb (fun w => all_sep (fst (fst w)) && negb (Str.is_sep (snd (fst w)))
                    && no_sep (snd w)) words.

(** The words with their first character in upper case and the separators
    dropped; of each word only letters and digits are kept. *)
Fixpoint capitalized (words : list (string * ascii * string)) : string :=
  match words with
  | [] => ""
  | (_, c, word) :: rest =>
      Regex.strip_non_alnum (String (Str.upper_char c) word) +:+ capitalized rest
  end.

(** ** Outcomes, for stating when a run succeeds *)

Definition is_normal {A : Type} (c : completion A) : bool :=
  match c with
  | Normal _ => true
  | Throw _ => false
  end.

(** An entry of an operation that is absent or a string. *)
Definition absent_or_string (props : list (string * JsVal)) (key : string) : bool :=
  match Js.lookup props key with
  | None | Some (JStr _) => true
  | _ => false
  end.

(** An operation without parameters whose operationId, summary and
    description are strings where present. *)
Definition plain_operation (props : list (string * JsVal)) : bool :=
  negb (Js.has_key props "parameters")
  && absent_or_string props "operationId"
  && absent_or_string props "summary"
  && absent_or_string props "description".

(** The path of the client file of a document in directory [dir]. *)
Definition client_path (path_join : string -> string -> string) (dir : string) : string :=
  path_join (path_join dir "generated") "openApi.ts".

(** A value on which a property can be read. *)
Definition not_nullish (v : JsVal) : bool :=
  match v with
  | JUndefined | JNull => false
  | _ => true
  end.

(** ** The fragment on which the model is exact *)

(** A string of 7-bit ASCII characters: on these the case mappings and the
    character classes of the model are those of JavaScript. *)
Definition ascii7 (s : string) : bool :=
  Str.forallb (fun c => (Str.charCode c <? 128)%nat) s.

(** An integer that a double holds exactly and that JavaScript prints in
    full: at most [2^53 - 1] in absolute value. *)
Definition safe_integer (n : Z) : bool := (Z.abs n <=? 9007199254740991)%Z.

(** An enum literal that is a string, a safe integer or a boolean. *)
Definition plain_literal (v : JsVal) : bool :=
  match v with
  | JStr _ | JBool _ => true
  | JNum n => safe_integer n
  | _ => false
  end.

(** A value whose strings and keys are 7-bit ASCII, whose integers are safe
    and which has no key [__proto__]. *)
Fixpoint representable (v : JsVal) : bool :=
  match v with
  | JNum n => safe_integer n
  | JStr s => ascii7 s
  | JArr elems => forallb representable elems
  | JObj props =>
      forallb (fun entry => ascii7 (fst entry)
                            && negb (String.eqb (fst entry) "__proto__")
                            && representable (snd entry)) props
  | _ => true
  end.


(** A schema name the OpenAPI rule for component keys allows (letters,
    digits, dot, hyphen and underscore) and short enough for [name.ts] to be
    a file name: writing the file of such a schema into the directory
    created for it does not depend on the name. *)
Definition is_key_char (c : ascii) : bool :=
  Str.is_alnum c || Ascii.eqb c "." || Ascii.eqb c "-" || Ascii.eqb c "_".

Definition component_key (name : string) : bool :=
  negb (String.eqb name "") && Str.forallb is_key_char name
  && (String.length name <=? 200)%nat.

(** ** Documents, for stating what a run emits and in which order *)

(** [spec.components?.schemas || {}], line 93. *)
Definition schemas_of (document : JsVal) : JsVal :=
  Js.or (Js.get_opt (Js.get_opt document "components") "schemas") (JObj []).

(** The directory of the DTO files of a document in directory [dir]. *)
Definition models_dir (path_join : string -> string -> string) (dir : string) : string :=
  path_join (path_join dir "generated") "models".

(** The schema names of the document of a file are component keys. *)
Definition valid_names (file : SpecFile) : bool :=
  match loaded file with
  | Normal document =>
      forallb component_key (List.map fst (Js.own_entries (schemas_of document)))
  | Throw _ => true
  end.

(** A file of the fragment on which the model is exact: its base name is
    7-bit ASCII, and its document, when it loads, is representable and has
    valid schema names. *)
Definition in_fragment (file : SpecFile) : bool :=
  ascii7 (basename file)
  && valid_names file
  && match loaded file with
     | Normal document => representable document
     | Throw _ => true
     end.

(** The parts of an [allOf] in the order the loop of line 156 visits them. *)
Definition allOf_parts (allOf : JsVal) : list JsVal :=
  match allOf with
  | JArr parts => parts
  | JStr s => Js.chars s
  | _ => []
  end.

(** The bases of a schema, in the order its [allOf] names them. *)
Definition schema_bases (schema : JsVal) : list string :=
  let allOf := Js.get_opt schema "allOf" in
  if Js.truthy allOf then flat_map part_bases (allOf_parts allOf) else [].

(** The names a schema requires: those of its own [required] list and those
    of the inline parts of its [allOf]. *)
Definition schema_required (schema : JsVal) : list string :=
  let allOf := Js.get_opt schema "allOf" in
  required_names (Js.get_opt schema "required")
  ++ (if Js.truthy allOf then flat_map part_required (allOf_parts allOf) else []).

(** The properties of a schema in the order its fields are emitted: those
    of [schema.properties] as declared or, for a schema with [allOf], those
    the inline parts give, part after part. *)
Definition schema_properties (schema : JsVal) : list (string * JsVal) :=
  let allOf := Js.get_opt schema "allOf" in
  if Js.truthy allOf
  then fold_left (fun merged part =>
                    if is_inline_part part
                    then Obj.assign merged (Js.get_opt part "properties")
                    else merged)
                 (allOf_parts allOf) []
  else Js.own_entries (Js.or (Js.get_opt schema "properties") (JObj [])).




(** The names to import that a property schema refers to, in the order
    [collectRefs] meets them: its own [$ref], then the items of an array,
    then the properties of an object in declaration order. *)
Fixpoint refs_in_order (name : string) (propSchema : JsVal) : list string :=
  match propSchema with
  | JObj props =>
      let type := default JUndefined (Js.lookup props "type") in
      (match Js.lookup props "$ref" with
       | Some (JStr ref) =>
           let refName := Str.last_segment ref in
           if negb (String.eqb ref "") && negb (String.eqb refName "")
              && negb (String.eqb refName name)
           then [refName] else []
       | _ => []
       end)
      ++ (if Js.is_str type "array" then
            Js.with_prop "items"
              (fun items => if Js.truthy items then refs_in_order name items else [])
              [] props
          else [])
      ++ (if Js.is_str type "object" then
            Js.with_prop "properties"
              (fun properties =>
                 match properties with
                 | JObj kvs => flat_map (fun '(_, prop) => refs_in_order name prop) kvs
                 | JArr elems => flat_map (refs_in_order name) elems
                 | _ => []
                 end)
              [] props
          else [])
  | _ => []
  end.

(** The names imported by the file of a schema, in the order of the import
    lines: the bases first, then the names the properties refer to, each
    name at its first occurrence. *)
Definition import_order (name : string) (schema : JsVal) : list string :=
  StrSet.add_all (flat_map (refs_in_order name) (List.map snd (schema_properties schema)))
                 (StrSet.add_all (schema_bases schema) []).

(** [interface_text name schema all out]: [out] is the interface declaration
    of the schema, with its import lines in the order of [import_order], its
    bases in the order of [schema_bases] and one field per property in the
    order of [schema_properties]. *)
Definition interface_text (name : string) (schema all : JsVal) (out : string) : Prop :=
  exists fields,
    out = importSection (import_order name schema) +:+ "export interface " +:+ name
          +:+ extendsLine (schema_bases schema) +:+ " {" +:+ LF
          +:+ String.concat "" fields +:+ "}" +:+ LF
    /\ Forall2 (fun entry line =>
                  exists propType,
                    getTypeScriptType (snd entry) all = Normal propType
                    /\ line = field_text (schema_required schema) (fst entry) propType)
               (schema_properties schema) fields.

(** [dto_text name schema all out]: [out] is the text [generateDTOType]
    returns for the schema, and for a schema that is no enum it is the
    interface declaration above. *)
Definition dto_text (name : string) (schema all : JsVal) (out : string) : Prop :=
  generateDTOType name schema all = Normal out
  /\ (Js.truthy (Js.get_opt schema "enum") = false -> interface_text name schema all out).

(** [methods_text pathTemplate pathItem methods]: [methods] holds one method
    per operation of the path item under an accepted key, in the order of the
    operations. *)
Definition methods_text (pathTemplate : string) (pathItem : JsVal) (methods : list string)
  : Prop :=
  Forall2 (fun operation method =>
             generateMethod pathTemplate (fst operation) (snd operation)
             = Normal (Some method))
          (List.filter (fun operation => accepted_method (fst operation))
                       (Js.own_entries pathItem))
          methods.

(** [client_text fileName document client]: [client] is the text of the
    client class, with the methods of the paths in the order of the paths
    and, for one path, in the order of its operations. *)
Definition client_text (fileName : string) (document : JsVal) (client : string) : Prop :=
  exists baseUrl base perPath,
    baseUrl_of document = Normal baseUrl
    /\ Js.ToString baseUrl = Normal base
    /\ Forall2 (fun entry methods => methods_text (fst entry) (snd entry) methods)
               (Js.own_entries (Js.get_opt document "paths")) perPath
    /\ client = client_header fileName base (pascalCase fileName +:+ "Client")
                +:+ Str.join (LF +:+ LF) (List.concat perPath) +:+ LF +:+ "}" +:+ LF.

(** The writes of the DTO files of the schemas called [names], in the order
    of the schemas. *)
Definition schema_writes (path_join : string -> string -> string) (dir : string)
           (names dtos : list string) : list (string * string) :=
  List.map (fun '(name, dto) => (path_join (models_dir path_join dir) (name +:+ ".ts"), dto))
           (List.combine names dtos).

(** The writes of a successful run on one document, in the order they are
    made: one file per schema in the order of the schemas, then, when there
    is a schema, the index file with one line per schema in the same order,
    then the client file. *)
Definition document_writes (path_join : string -> string -> string) (dir : string)
           (names dtos : list string) (client : string) : list (string * string) :=
  schema_writes path_join dir names dtos
  ++ match names with
     | [] => []
     | _ => [(path_join (models_dir path_join dir) "index.ts",
              Str.join LF (List.map export_line names) +:+ LF)]
     end
  ++ [(client_path path_join dir, client)].






(** A document with the schemas [Pet] and [User] and two paths. *)
Definition users_document : JsVal :=
  JObj [("paths",
         JObj [("/users", JObj [("get", JObj []); ("post", JObj [])]);
               ("/users/{id}", JObj [("get", JObj [("operationId", JStr "getUser")])])]);
        ("components",
         JObj [("schemas",
                JObj [("Pet", JObj [("type", JStr "object");
                                    ("properties", JObj [("name", string_schema)])]);
                      ("User", user_schema)])])].

Definition users_file : SpecFile :=
  {| dirname := "api"; basename := "users"; loaded := Normal users_document |}.

(** * Properties *)

(** ** Strings *)

Lemma append_String (x : ascii) (a b : string) : String x a +:+ b = String x (a +:+ b).
Proof. reflexivity. Qed.

Lemma append_empty_l (b : string) : "" +:+ b = b.
Proof. reflexivity. Qed.

Lemma append_assoc (a b c : string) : (a +:+ b) +:+ c = a +:+ (b +:+ c).
Proof.
  induction a as [|x a IH]; [reflexivity |].
  rewrite !append_String. now rewrite IH.
Qed.

Lemma append_empty_r (a : string) : a +:+ "" = a.
Proof.
  induction a as [|x a IH]; [reflexivity |].
  rewrite append_String. now rewrite IH.
Qed.

Lemma filter_append p (a b : string) :
  Str.filter p (a +:+ b) = Str.filter p a +:+ Str.filter p b.
Proof.
  induction a as [|x a IH]; [reflexivity |].
  rewrite append_String. simpl. destruct (p x); [rewrite append_String |]; now rewrite IH.
Qed.

Lemma drop_last_snoc (a : string) (c : ascii) :
  Str.drop_last (a +:+ String c "") = a.
Proof.
  induction a as [|x a IH]; [reflexivity |].
  rewrite append_String. cbn [Str.drop_last]. rewrite IH.
  destruct a; reflexivity.
Qed.

Lemma slice_braces (tok : string) : Str.slice_1_m1 ("{" +:+ tok +:+ "}") = tok.
Proof.
  unfold Str.slice_1_m1. rewrite append_String, append_empty_l.
  cbn [Str.slice1]. apply drop_last_snoc.
Qed.

Lemma concat_cons (x : string) (xs : list string) :
  String.concat "" (x :: xs) = x +:+ String.concat "" xs.
Proof. destruct xs; simpl; [now rewrite append_empty_r | reflexivity]. Qed.

Lemma concat_app (xs ys : list string) :
  String.concat "" (xs ++ ys) = String.concat "" xs +:+ String.concat "" ys.
Proof.
  induction xs as [|x xs IH]; [reflexivity |].
  rewrite <- app_comm_cons, !concat_cons, IH. now rewrite append_assoc.
Qed.

(** ** The scan for [{token}] *)

Section BraceScan.

Lemma scan_skip m (a b : string) :
  Regex.scan m (String.length a) (a +:+ b) = Regex.scan m 0 b.
Proof. induction a as [|x a IH]; simpl; [reflexivity | exact IH]. Qed.

Lemma not_close_plus_close_token (tok rest : string) :
  is_token tok = true ->
  Regex.not_close_plus_close (tok +:+ "}" +:+ rest) = Some (tok, rest).
Proof.
  unfold is_token. intros H. apply andb_prop in H as [Hne Hall].
  induction tok as [|c tok IH]; [discriminate |].
  simpl in Hall. apply andb_prop in Hall as [Hc Hall].
  apply negb_true_iff in Hc.
  rewrite append_String. cbn [Regex.not_close_plus_close]. rewrite Hc.
  destruct tok as [|d tok].
  - reflexivity.
  - rewrite IH; [reflexivity | reflexivity | exact Hall].
Qed.

Lemma brace_token_token (tok rest : string) :
  is_token tok = true ->
  Regex.brace_token ("{" +:+ tok +:+ "}" +:+ rest) = Some ("{" +:+ tok +:+ "}", tok).
Proof.
  intros H. rewrite append_String, append_empty_l. unfold Regex.brace_token.
  rewrite (not_close_plus_close_token tok rest H). reflexivity.
Qed.

Lemma scan_literal (lit rest : string) :
  no_open lit = true ->
  Regex.scan Regex.brace_token 0 (lit +:+ rest)
  = literal lit ++ Regex.scan Regex.brace_token 0 rest.
Proof.
  unfold no_open. induction lit as [|c lit IH]; intros H; [reflexivity |].
  simpl in H. apply andb_prop in H as [Hc H]. apply negb_true_iff in Hc.
  rewrite append_String.
  cbn [Regex.scan Regex.brace_token literal]. rewrite Hc.
  rewrite <- app_comm_cons. f_equal. now apply IH.
Qed.

Lemma scan_token (tok rest : string) :
  is_token tok = true ->
  Regex.scan Regex.brace_token 0 ("{" +:+ tok +:+ "}" +:+ rest)
  = Regex.Hit ("{" +:+ tok +:+ "}") tok :: Regex.scan Regex.brace_token 0 rest.
Proof.
  intros H. pose proof (brace_token_token tok rest H) as Hm.
  rewrite append_String, append_empty_l in Hm |- *.
  cbn [Regex.scan]. rewrite Hm. f_equal.
  replace (String.length ("{" +:+ tok +:+ "}") - 1) with (String.length (tok +:+ "}"))
    by (rewrite append_String, append_empty_l; simpl; lia).
  rewrite <- (append_assoc tok "}" rest). apply scan_skip.
Qed.

Lemma scan_literal_only (tail : string) :
  no_open tail = true -> Regex.scan Regex.brace_token 0 tail = literal tail.
Proof.
  intros H. rewrite <- (append_empty_r tail) at 1.
  rewrite (scan_literal tail "" H). simpl. apply app_nil_r.
Qed.

Lemma scan_template segments tail :
  well_formed segments tail = true ->
  Regex.scan Regex.brace_token 0 (template segments tail) = template_pieces segments tail.
Proof.
  unfold well_formed. intros H. apply andb_prop in H as [Hsegs Htail].
  induction segments as [|[lit tok] rest IH]; simpl.
  - now apply scan_literal_only.
  - simpl in Hsegs. apply andb_prop in Hsegs as [Hseg Hrest].
    apply andb_prop in Hseg as [Hlit Htok].
    rewrite (scan_literal _ _ Hlit), (scan_token _ _ Htok), (IH Hrest). reflexivity.
Qed.

Lemma hits_literal (s : string) :
  omap (fun p => match p with Regex.Hit w _ => Some w | Regex.Lit _ => None end)
       (literal s) = [].
Proof. induction s as [|c s IH]; simpl; [reflexivity | exact IH]. Qed.

Lemma hits_template segments tail :
  omap (fun p => match p with Regex.Hit w _ => Some w | Regex.Lit _ => None end)
       (template_pieces segments tail)
  = List.map (fun seg => "{" +:+ snd seg +:+ "}") segments.
Proof.
  induction segments as [|[lit tok] rest IH]; simpl.
  - apply hits_literal.
  - rewrite omap_app, hits_literal. cbn. f_equal. exact IH.
Qed.

Lemma replaced_literal (s : string) f :
  String.concat "" (List.map (fun p => match p with
                                       | Regex.Hit w g => f w g
                                       | Regex.Lit c => String c EmptyString
                                       end) (literal s)) = s.
Proof.
  induction s as [|c s IH]; [reflexivity |].
  cbn [literal List.map]. rewrite concat_cons, IH. reflexivity.
Qed.

Lemma replaced_template segments tail :
  Regex.strip_non_alnum
    (String.concat "" (List.map (fun p => match p with
                                          | Regex.Hit _ _ => "By"
                                          | Regex.Lit c => String c EmptyString
                                          end) (template_pieces segments tail)))
  = derived_identifier segments tail.
Proof.
  unfold Regex.strip_non_alnum.
  induction segments as [|[lit tok] rest IH]; simpl.
  - now rewrite (replaced_literal tail (fun _ _ => "By")).
  - rewrite List.map_app, concat_app. cbn [List.map].
    rewrite concat_cons, (replaced_literal lit (fun _ _ => "By")).
    rewrite !filter_append, IH. reflexivity.
Qed.

End BraceScan.

Lemma extractPathParameters_template segments tail :
  well_formed segments tail = true ->
  extractPathParameters (template segments tail) = List.map snd segments.
Proof.
  intros H. unfold extractPathParameters, Regex.match_all.
  rewrite (scan_template _ _ H), hits_template.
  destruct segments as [|seg rest]; [reflexivity |].
  cbn [List.map]. f_equal; [apply slice_braces |].
  rewrite List.map_map. apply List.map_ext. intros a. apply slice_braces.
Qed.

Lemma generateOperationId_template method segments tail :
  well_formed segments tail = true ->
  generateOperationId method (template segments tail) = derived_identifier segments tail.
Proof.
  intros H. unfold generateOperationId, Regex.replace_all.
  rewrite (scan_template _ _ H). apply replaced_template.
Qed.

(** ** Completions *)

Lemma bind_Normal {A B : Type} (c : completion A) (f : A -> completion B) (b : B) :
  bind c f = Normal b -> exists a, c = Normal a /\ f a = Normal b.
Proof. destruct c as [a|e]; simpl; [eauto | discriminate]. Qed.

(** Splits a hypothesis [x <- c ;; k = Normal b] into [c = Normal x] and
    [k = Normal b]. *)
Tactic Notation "bind_inv" hyp(H) "as" ident(x) ident(Hx) :=
  apply bind_Normal in H as (x & Hx & H).

(** Splits the conjunctions of the goal, and nothing else. *)
Ltac split_all := repeat match goal with |- _ /\ _ => split end.

Lemma Normal_inj {A : Type} (a b : A) : Normal a = Normal b -> a = b.
Proof. now intros [= ->]. Qed.

(** ** Operation analyzer *)

Lemma accepted_method_In (method : string) :
  accepted_method method = true <-> In (Str.toLowerCase method) http_methods.
Proof.
  unfold accepted_method. rewrite existsb_exists. split.
  - intros (x & Hx & Heq). apply String.eqb_eq in Heq. now subst x.
  - intros H. exists (Str.toLowerCase method). split; [exact H | apply String.eqb_refl].
Qed.

Lemma operationId_of_truthy pathTemplate method operation declared :
  Js.get operation "operationId" = Normal declared ->
  Js.truthy declared = true ->
  operationId_of pathTemplate method operation = Normal declared.
Proof.
  intros Hget Ht. unfold operationId_of, Js.or. rewrite Hget. simpl. now rewrite Ht.
Qed.

Lemma operationId_of_falsy pathTemplate method operation declared :
  Js.get operation "operationId" = Normal declared ->
  Js.truthy declared = false ->
  operationId_of pathTemplate method operation
  = Normal (JStr (generateOperationId method pathTemplate)).
Proof.
  intros Hget Ht. unfold operationId_of, Js.or. rewrite Hget. simpl. now rewrite Ht.
Qed.

Lemma methodName_of_string pathTemplate method operation id :
  operationId_of pathTemplate method operation = Normal (JStr id) ->
  methodName_of pathTemplate method operation = Normal (method +:+ pascalCase id).
Proof. intros H. unfold methodName_of. rewrite H. reflexivity. Qed.

Lemma methodSignature_of_shape methodName pathParams queryParams sig :
  methodSignature_of methodName pathParams queryParams = Normal sig ->
  exists params, sig = methodName +:+ "(" +:+ params +:+ "): string".
Proof.
  unfold methodSignature_of. intros H. bind_inv H as queryParam HqueryParam.
  apply Normal_inj in H. subst sig. eexists. reflexivity.
Qed.

(** C1 (amended): the path parameters of a template are its [{token}]
    occurrences from left to right, one entry per occurrence, a repeated token
    being listed again each time; the signature lists them in that order. *)
Theorem C1_path_parameters_per_occurrence
        (segments : list (string * string)) (tail methodName : string) :
  well_formed segments tail = true ->
  extractPathParameters (template segments tail) = List.map snd segments
  /\ methodSignature_of methodName (extractPathParameters (template segments tail)) []
     = Normal (methodName +:+ "("
               +:+ Str.join ", " (List.map (fun tok => tok +:+ ": string | number")
                                           (List.map snd segments))
               +:+ "): string").
Proof.
  intros H. rewrite (extractPathParameters_template _ _ H). split; [reflexivity |].
  unfold methodSignature_of. simpl. now rewrite app_nil_r.
Qed.

(** The template [/a/{y}/{x}/{y}]. *)
Lemma C1_path_parameters_witness :
  well_formed [("/a/", "y"); ("/", "x"); ("/", "y")] "" = true
  /\ extractPathParameters "/a/{y}/{x}/{y}" = ["y"; "x"; "y"].
Proof.
  split; [reflexivity |].
  exact (proj1 (C1_path_parameters_per_occurrence
                  [("/a/", "y"); ("/", "x"); ("/", "y")] "" "getA" eq_refl)).
Defined.

(** C1, as stated, fails: for [/a/{y}/{x}/{y}] the list is [(y, x, y)], not
    [(y, x)], and the signature declares [y] twice. *)
Lemma C1_duplicates_not_folded :
  extractPathParameters "/a/{y}/{x}/{y}" <> ["y"; "x"]
  /\ methodSignature_of "getA" (extractPathParameters "/a/{y}/{x}/{y}") []
     = Normal "getA(y: string | number, x: string | number, y: string | number): string".
Proof. split; [discriminate | reflexivity]. Qed.

Lemma forallb_filter p (s : string) : Str.forallb p (Str.filter p s) = true.
Proof.
  induction s as [|c s IH]; [reflexivity |].
  simpl. destruct (p c) eqn:Hc; [| exact IH]. simpl. now rewrite Hc.
Qed.

(** C2: a declared operationId (a non-empty string) is the operation
    identifier as it stands; without one the identifier is derived from the
    path template: every [{token}] is replaced by [By] and every other
    character that is not a letter or digit is deleted; the method name is
    the method key followed by the Pascal-cased identifier. *)
Theorem C2_operation_identifier
        (pathTemplate method : string) (operation declared : JsVal) :
  Js.get operation "operationId" = Normal declared ->
  (forall id, declared = JStr id -> id <> "" ->
     operationId_of pathTemplate method operation = Normal (JStr id)
     /\ methodName_of pathTemplate method operation = Normal (method +:+ pascalCase id))
  /\ (declared = JUndefined ->
      operationId_of pathTemplate method operation
      = Normal (JStr (generateOperationId method pathTemplate))
      /\ methodName_of pathTemplate method operation
         = Normal (method +:+ pascalCase (generateOperationId method pathTemplate)))
  /\ Str.forallb Str.is_alnum (generateOperationId method pathTemplate) = true
  /\ (forall segments tail,
        well_formed segments tail = true -> pathTemplate = template segments tail ->
        generateOperationId method pathTemplate = derived_identifier segments tail).
Proof.
  intros Hget. split_all.
  - intros id -> Hid.
    assert (H : operationId_of pathTemplate method operation = Normal (JStr id)).
    { apply operationId_of_truthy; [exact Hget |].
      simpl. apply negb_true_iff. now apply String.eqb_neq. }
    split; [exact H | now apply methodName_of_string].
  - intros ->.
    assert (H : operationId_of pathTemplate method operation
                = Normal (JStr (generateOperationId method pathTemplate)))
      by now apply operationId_of_falsy with (declared := JUndefined).
    split; [exact H | now apply methodName_of_string].
  - apply forallb_filter.
  - intros segments tail Hwf ->. now apply generateOperationId_template.
Qed.

(** [/users/{id}] under [get], without and with an operationId. *)
Lemma C2_operation_identifier_witness :
  generateOperationId "get" "/users/{id}" = "usersBy"
  /\ methodName_of "/users/{id}" "get" (JObj []) = Normal "getUsersBy"
  /\ methodName_of "/users/{id}" "get" (JObj [("operationId", JStr "listUsers")])
     = Normal "getListUsers".
Proof.
  split_all.
  - exact (proj2 (proj2 (proj2 (C2_operation_identifier
                                  "/users/{id}" "get" (JObj []) JUndefined eq_refl)))
                 [("/users/", "id")] "" eq_refl eq_refl).
  - exact (proj2 (proj1 (proj2 (C2_operation_identifier
                                  "/users/{id}" "get" (JObj []) JUndefined eq_refl))
                        eq_refl)).
  - refine (proj2 (proj1 (C2_operation_identifier
                            "/users/{id}" "get"
                            (JObj [("operationId", JStr "listUsers")]) (JStr "listUsers")
                            eq_refl) "listUsers" eq_refl _)).
    discriminate.
Defined.

(** C9: an operationId that is the empty string counts as absent: the
    identifier is the one derived from the path. *)
Theorem C9_empty_operationId_is_absent (pathTemplate method : string) (operation : JsVal) :
  Js.get operation "operationId" = Normal (JStr "") ->
  operationId_of pathTemplate method operation
  = Normal (JStr (generateOperationId method pathTemplate))
  /\ methodName_of pathTemplate method operation
     = Normal (method +:+ pascalCase (generateOperationId method pathTemplate)).
Proof.
  intros Hget.
  assert (H : operationId_of pathTemplate method operation
              = Normal (JStr (generateOperationId method pathTemplate)))
    by now apply operationId_of_falsy with (declared := JStr "").
  split; [exact H | now apply methodName_of_string].
Qed.

(** [/users/{id}] under [get] with [operationId: ""]. *)
Lemma C9_empty_operationId_witness :
  methodName_of "/users/{id}" "get" (JObj [("operationId", JStr "")])
  = Normal "getUsersBy".
Proof.
  exact (proj2 (C9_empty_operationId_is_absent
                  "/users/{id}" "get" (JObj [("operationId", JStr "")]) eq_refl)).
Defined.

Lemma generateMethod_skipped pathTemplate method operation :
  generateMethod pathTemplate method operation = Normal None
  <-> accepted_method method = false.
Proof.
  unfold generateMethod. destruct (accepted_method method); simpl; split; try easy.
  intros H. bind_inv H as a Ha. bind_inv H as b Hb. bind_inv H as c Hc.
  bind_inv H as d Hd. discriminate.
Qed.

Lemma generateMethod_generated pathTemplate method operation fullMethod :
  generateMethod pathTemplate method operation = Normal (Some fullMethod) ->
  accepted_method method = true
  /\ exists operationId queryParams jsdoc methodSignature params,
      operationId_of pathTemplate method operation = Normal (JStr operationId)
      /\ extractQueryParameters operation = Normal queryParams
      /\ jsdoc_of pathTemplate method (method +:+ pascalCase operationId) operation
                  (extractPathParameters pathTemplate) queryParams = Normal jsdoc
      /\ methodSignature = (method +:+ pascalCase operationId) +:+ "(" +:+ params
                           +:+ "): string"
      /\ fullMethod = jsdoc +:+ "  " +:+ methodSignature +:+ " {" +:+ LF
                      +:+ methodBody_of pathTemplate (extractPathParameters pathTemplate)
                                        queryParams
                      +:+ LF +:+ "  }".
Proof.
  unfold generateMethod. destruct (accepted_method method); simpl; [| discriminate].
  intros H. split; [reflexivity |].
  bind_inv H as methodName HmethodName.
  bind_inv H as queryParams HqueryParams.
  bind_inv H as jsdoc Hjsdoc.
  bind_inv H as methodSignature HmethodSignature.
  apply Normal_inj in H. injection H as <-.
  unfold methodName_of in HmethodName.
  bind_inv HmethodName as operationId HoperationId.
  bind_inv HmethodName as pascal Hpascal.
  apply Normal_inj in HmethodName. subst methodName.
  destruct operationId as [| | | |id| |]; try discriminate.
  apply Normal_inj in Hpascal. subst pascal.
  destruct (methodSignature_of_shape _ _ _ _ HmethodSignature) as [params Hsig].
  exists id, queryParams, jsdoc, methodSignature, params. repeat split; assumption.
Qed.

Lemma found_methods_length pathTemplate (operations : list (string * JsVal)) found :
  mapM (fun '(method, operation) => generateMethod pathTemplate method operation)
       operations = Normal found ->
  length (omap id found)
  = length (List.filter (fun entry => accepted_method (fst entry)) operations).
Proof.
  revert found. induction operations as [|[method operation] rest IH]; intros found H.
  - apply Normal_inj in H. now subst found.
  - cbn [mapM] in H. bind_inv H as first Hfirst. bind_inv H as others Hothers.
    apply Normal_inj in H. subst found. specialize (IH others Hothers).
    cbn [List.filter fst]. destruct first as [text|].
    + apply generateMethod_generated in Hfirst as [-> _]. cbn. now rewrite IH.
    + apply generateMethod_skipped in Hfirst as ->. cbn. exact IH.
Qed.

(** C8 (amended): a method is generated for a (path, key) pair exactly when
    the lower-cased key is one of get, post, put, delete, patch, so a key
    written in upper case is accepted too; the name of a generated method is
    the key exactly as the document writes it, followed directly by the
    Pascal-cased operation identifier. *)
Theorem C8_method_for_accepted_keys (pathTemplate method : string) (operation : JsVal) :
  (generateMethod pathTemplate method operation = Normal None
   <-> ~ In (Str.toLowerCase method) http_methods)
  /\ (forall fullMethod,
        generateMethod pathTemplate method operation = Normal (Some fullMethod) ->
        In (Str.toLowerCase method) http_methods
        /\ exists operationId jsdoc params body,
            operationId_of pathTemplate method operation = Normal (JStr operationId)
            /\ fullMethod = jsdoc +:+ "  "
                            +:+ ((method +:+ pascalCase operationId) +:+ "(" +:+ params
                                 +:+ "): string")
                            +:+ " {" +:+ LF +:+ body +:+ LF +:+ "  }")
  /\ (forall pathItem methods,
        pathItem_methods pathTemplate pathItem = Normal methods ->
        length methods
        = length (List.filter (fun entry => accepted_method (fst entry))
                              (Js.own_entries pathItem))).
Proof.
  split; [| split].
  - rewrite generateMethod_skipped, <- accepted_method_In.
    destruct (accepted_method method); intuition congruence.
  - intros fullMethod H.
    apply generateMethod_generated in H
      as (Hacc & id & qs & jsdoc & sig & params & Hid & _ & _ & -> & ->).
    split; [now apply accepted_method_In |].
    exists id, jsdoc, params. eexists. split; [exact Hid | reflexivity].
  - intros pathItem methods H. unfold pathItem_methods in H.
    bind_inv H as operations Hoperations. bind_inv H as found Hfound.
    apply Normal_inj in H. subst methods.
    assert (operations = Js.own_entries pathItem) as ->.
    { unfold Js.entries in Hoperations.
      destruct pathItem; try discriminate; now apply Normal_inj in Hoperations. }
    exact (found_methods_length pathTemplate _ _ Hfound).
Qed.

(** [/users] under [head] and under [get]. *)
Lemma C8_method_for_accepted_keys_witness :
  generateMethod "/users" "head" (JObj []) = Normal None
  /\ In (Str.toLowerCase "get") http_methods.
Proof.
  split.
  - apply (proj1 (C8_method_for_accepted_keys "/users" "head" (JObj []))).
    simpl. intuition discriminate.
  - exact (proj1 (proj1 (proj2 (C8_method_for_accepted_keys "/users" "get" (JObj [])))
                        _ eq_refl)).
Defined.

(** C8, as stated, fails: the key [GET] is none of the five lower-case keys,
    yet a method is generated for it, and its name begins with [GET]. *)
Lemma C8_uppercase_key_accepted :
  ~ In "GET" http_methods
  /\ methodName_of "/users" "GET" (JObj []) = Normal "GETUsers"
  /\ exists jsdoc body,
      generateMethod "/users" "GET" (JObj [])
      = Normal (Some (jsdoc +:+ "  GETUsers(): string {" +:+ LF +:+ body +:+ LF +:+ "  }")).
Proof.
  split; [simpl; intuition discriminate |]. split; [reflexivity |].
  exists "  /**
   * GET /users
   * @returns URL for the GETUsers endpoint
   */
".
  exists "    let url = this.baseUrl + '/users';
    return url;".
  vm_compute. reflexivity.
Qed.

(** ** Sets of strings *)

Lemma has_In (x : string) (s : StrSet.t) : StrSet.has x s = true <-> In x s.
Proof.
  unfold StrSet.has. rewrite existsb_exists. split.
  - intros (y & Hy & Heq). apply String.eqb_eq in Heq. now subst y.
  - intros H. exists x. split; [exact H | apply String.eqb_refl].
Qed.

Lemma In_add (x y : string) (s : StrSet.t) : In y (StrSet.add x s) <-> y = x \/ In y s.
Proof.
  unfold StrSet.add. destruct (StrSet.has x s) eqn:Hx.
  - apply has_In in Hx. split; [tauto | intros [-> | H]; assumption].
  - rewrite in_app_iff. simpl. intuition congruence.
Qed.

Lemma NoDup_add (x : string) (s : StrSet.t) :
  List.NoDup s -> List.NoDup (StrSet.add x s).
Proof.
  intros Hs. unfold StrSet.add. destruct (StrSet.has x s) eqn:Hx; [exact Hs |].
  assert (~ In x s) as Hnot by (rewrite <- has_In; congruence).
  clear Hx. induction s as [|y s IH]; simpl.
  - constructor; [intros [] | constructor].
  - inversion Hs as [|? ? Hy Hs']; subst. constructor.
    + rewrite in_app_iff. simpl. intros [H | [H | []]]; [now apply Hy |].
      apply Hnot. now left.
    + apply IH; [exact Hs' |]. intros H. apply Hnot. now right.
Qed.

Lemma In_add_all (xs : list string) (y : string) (s : StrSet.t) :
  In y (StrSet.add_all xs s) <-> In y xs \/ In y s.
Proof.
  unfold StrSet.add_all. revert s. induction xs as [|x xs IH]; intros s; simpl.
  - tauto.
  - rewrite IH, In_add. intuition congruence.
Qed.

Lemma NoDup_add_all (xs : list string) (s : StrSet.t) :
  List.NoDup s -> List.NoDup (StrSet.add_all xs s).
Proof.
  unfold StrSet.add_all. revert s. induction xs as [|x xs IH]; intros s Hs; simpl.
  - exact Hs.
  - apply IH. now apply NoDup_add.
Qed.

(** ** Objects *)

Lemma with_prop_lookup {R : Type} key (present : JsVal -> R) absent props :
  Js.with_prop key present absent props
  = match Js.lookup props key with
    | Some v => present v
    | None => absent
    end.
Proof.
  induction props as [|[k v] rest IH]; simpl; [reflexivity |].
  destruct (String.eqb k key); [reflexivity | exact IH].
Qed.

Lemma lookup_In props key v : Js.lookup props key = Some v -> In (key, v) props.
Proof.
  induction props as [|[k w] rest IH]; simpl; [discriminate |].
  destruct (String.eqb k key) eqn:Hk.
  - apply String.eqb_eq in Hk. intros [= ->]. subst. now left.
  - intros H. right. now apply IH.
Qed.

Lemma has_key_In props key : Js.has_key props key = true <-> In key (List.map fst props).
Proof.
  unfold Js.has_key. induction props as [|[k w] rest IH]; simpl; [easy |].
  destruct (String.eqb k key) eqn:Hk.
  - apply String.eqb_eq in Hk. intuition.
  - apply String.eqb_neq in Hk. rewrite IH. intuition congruence.
Qed.

Lemma keys_replace k v props :
  List.map fst (Obj.replace k v props) = List.map fst props.
Proof.
  induction props as [|[k' v'] rest IH]; simpl; [reflexivity |].
  destruct (String.eqb k' k) eqn:Hk; simpl.
  - apply String.eqb_eq in Hk. now subst.
  - now rewrite IH.
Qed.

Lemma keys_insert_index i k v props key :
  In key (List.map fst (Obj.insert_index i k v props))
  <-> key = k \/ In key (List.map fst props).
Proof.
  induction props as [|[k' v'] rest IH]; simpl; [intuition |].
  destruct (Obj.array_index k') as [j|]; [destruct (j <? i)%N |]; simpl;
    rewrite ?IH; intuition.
Qed.

Lemma keys_set props k v key :
  In key (List.map fst (Obj.set props k v))
  <-> In key (List.map fst props) \/ (key = k /\ k <> "__proto__").
Proof.
  unfold Obj.set. destruct (String.eqb k "__proto__") eqn:Hproto.
  - apply String.eqb_eq in Hproto. intuition.
  - apply String.eqb_neq in Hproto. destruct (Js.has_key props k) eqn:Hk.
    + apply has_key_In in Hk. rewrite keys_replace. intuition congruence.
    + destruct (Obj.array_index k).
      * rewrite keys_insert_index. intuition.
      * rewrite List.map_app, in_app_iff. simpl. intuition.
Qed.

Lemma keys_assign target source key :
  In key (List.map fst (Obj.assign target source))
  <-> In key (List.map fst target)
      \/ In key (List.filter (fun k => negb (String.eqb k "__proto__"))
                             (List.map fst (Js.own_entries source))).
Proof.
  unfold Obj.assign. generalize (Js.own_entries source) as entries.
  intros entries. revert target.
  induction entries as [|[k v] rest IH]; intros target; simpl; [tauto |].
  rewrite IH, keys_set. destruct (String.eqb k "__proto__") eqn:Hproto; simpl.
  - apply String.eqb_eq in Hproto. intuition.
  - apply String.eqb_neq in Hproto. intuition.
Qed.

Lemma get_get_opt v key x : Js.get v key = Normal x -> x = Js.get_opt v key.
Proof. destruct v; simpl; intros H; try discriminate; now apply Normal_inj in H. Qed.

(** ** The loop over [allOf] *)

Lemma part_bases_falsy part :
  Js.truthy (Js.get_opt part "$ref") = false -> part_bases part = [].
Proof.
  unfold part_bases. destruct (Js.get_opt part "$ref") as [| | | |ref| |]; try reflexivity.
  simpl. intros H. apply negb_false_iff in H. now rewrite H.
Qed.

Lemma required_names_elems required rs :
  Js.array_elems (Js.or required (JArr [])) = Normal rs ->
  StrSet.strings_of rs = required_names required.
Proof.
  unfold Js.or. destruct (Js.truthy required) eqn:Ht.
  - destruct required; try discriminate. simpl. intros H. apply Normal_inj in H. now subst.
  - simpl. intros H. apply Normal_inj in H. subst rs.
    destruct required as [| | | |s| |]; try reflexivity; try discriminate.
    simpl in Ht. apply negb_false_iff, String.eqb_eq in Ht. now subst s.
Qed.

Lemma required_names_iterate required rs :
  Js.iterate (Js.or required (JArr [])) = Normal rs ->
  StrSet.strings_of rs = required_names required.
Proof.
  unfold Js.or. destruct (Js.truthy required) eqn:Ht.
  - destruct required; try discriminate; simpl; intros H; apply Normal_inj in H; now subst.
  - simpl. intros H. apply Normal_inj in H. subst rs.
    destruct required as [| | | |s| |]; try reflexivity; try discriminate.
    simpl in Ht. apply negb_false_iff, String.eqb_eq in Ht. now subst s.
Qed.

Lemma allOf_part_spec part st st' :
  allOf_part part st = Normal st' ->
  inheritance st' = inheritance st ++ part_bases part
  /\ usedRefs st' = StrSet.add_all (part_bases part) (usedRefs st)
  /\ (forall k, In k (requiredProps st')
                <-> In k (requiredProps st) \/ In k (part_required part))
  /\ (forall k, In k (List.map fst (props_of (properties st')))
                <-> In k (List.map fst (props_of (properties st))) \/ In k (part_keys part))
  /\ exists merged, properties st' = JObj merged \/ properties st' = properties st.
Proof.
  unfold allOf_part. intros H.
  bind_inv H as ref Href. apply get_get_opt in Href.
  destruct (Js.truthy ref) eqn:Hreft.
  - bind_inv H as refName HrefName.
    assert (Hinline : is_inline_part part = false).
    { unfold is_inline_part, is_ref_part. rewrite <- Href, Hreft. reflexivity. }
    unfold part_required, part_keys, part_bases. rewrite Hinline, <- Href.
    destruct ref as [| | | |r| |]; try discriminate.
    apply Normal_inj in HrefName. subst refName.
    simpl in Hreft. apply negb_true_iff in Hreft. rewrite Hreft. simpl.
    destruct (String.eqb (Str.last_segment r) "") eqn:Hlast; simpl in H;
      apply Normal_inj in H; subst st'; simpl.
    + rewrite app_nil_r. split_all; try tauto. exists []. now right.
    + split_all; try tauto. exists []. now right.
  - rewrite Href in Hreft. rewrite (part_bases_falsy _ Hreft), app_nil_r.
    bind_inv H as type Htype. bind_inv H as partProperties HpartProperties.
    apply get_get_opt in Htype, HpartProperties.
    unfold part_required, part_keys, is_inline_part, is_ref_part.
    rewrite Hreft, <- Htype, <- HpartProperties. simpl negb. rewrite andb_true_l.
    destruct (Js.is_str type "object" && Js.truthy partProperties).
    + bind_inv H as required Hrequired. bind_inv H as rs Hrs.
      apply get_get_opt in Hrequired. rewrite <- Hrequired.
      apply required_names_elems in Hrs.
      apply Normal_inj in H. subst st'. simpl. split_all; try tauto.
      * intros k. rewrite In_add_all, Hrs. tauto.
      * intros k. apply keys_assign.
      * eexists. left. reflexivity.
    + apply Normal_inj in H. subst st'. simpl. split_all; try tauto.
      exists []. now right.
Qed.

Lemma add_all_app xs ys s :
  StrSet.add_all (xs ++ ys) s = StrSet.add_all ys (StrSet.add_all xs s).
Proof. unfold StrSet.add_all. apply fold_left_app. Qed.

Lemma allOf_loop_spec parts st st' :
  foldM allOf_part parts st = Normal st' ->
  inheritance st' = inheritance st ++ flat_map part_bases parts
  /\ usedRefs st' = StrSet.add_all (flat_map part_bases parts) (usedRefs st)
  /\ (forall k, In k (requiredProps st')
                <-> In k (requiredProps st) \/ In k (flat_map part_required parts))
  /\ (forall k, In k (List.map fst (props_of (properties st')))
                <-> In k (List.map fst (props_of (properties st)))
                    \/ In k (flat_map part_keys parts))
  /\ ((exists merged, properties st = JObj merged) ->
      exists merged, properties st' = JObj merged).
Proof.
  revert st. induction parts as [|part parts IH]; intros st H.
  - apply Normal_inj in H. subst st'. simpl. rewrite app_nil_r.
    split_all; tauto.
  - cbn [foldM] in H. bind_inv H as st1 Hst1.
    apply allOf_part_spec in Hst1 as (Hi & Hu & Hr & Hk & merged1 & Hm).
    apply IH in H as (Hi' & Hu' & Hr' & Hk' & Hm').
    cbn [flat_map]. rewrite Hi', Hi, Hu', Hu, <- app_assoc, add_all_app.
    split_all; try tauto.
    + intros k. rewrite Hr', Hr, in_app_iff. tauto.
    + intros k. rewrite Hk', Hk, in_app_iff. tauto.
    + intros [merged Hmerged]. apply Hm'.
      destruct Hm as [Hm | Hm]; [now exists merged1 | exists merged; congruence].
Qed.

(** What [dto_collect] leaves in the variables, for any schema. *)
Lemma dto_collect_refs schema st :
  dto_collect schema = Normal st ->
  List.NoDup (usedRefs st)
  /\ (forall n, In n (usedRefs st) <-> In n (inheritance st))
  /\ (forall allOf, Js.get schema "allOf" = Normal allOf -> Js.truthy allOf = false ->
      properties st = Js.or (Js.get_opt schema "properties") (JObj [])
      /\ inheritance st = []).
Proof.
  unfold dto_collect. intros H.
  bind_inv H as required Hrequired. bind_inv H as initial Hinitial.
  bind_inv H as allOf HallOf. destruct (Js.truthy allOf) eqn:Ht.
  - bind_inv H as parts Hparts.
    apply allOf_loop_spec in H as (Hi & Hu & _). simpl in Hi, Hu.
    rewrite Hi, Hu. split_all.
    + apply NoDup_add_all. constructor.
    + intros n. rewrite In_add_all. simpl. tauto.
    + intros a Ha Hfalse. rewrite Ha in HallOf. apply Normal_inj in HallOf. congruence.
  - bind_inv H as schemaProperties HschemaProperties. bind_inv H as rs Hrs.
    apply get_get_opt in HschemaProperties.
    apply Normal_inj in H. subst st. simpl. split_all; try tauto.
    + constructor.
    + now subst schemaProperties.
Qed.

(** What [dto_collect] leaves in the variables when [allOf] is a list. *)
Lemma dto_collect_allOf schema parts st :
  Js.get schema "allOf" = Normal (JArr parts) ->
  dto_collect schema = Normal st ->
  inheritance st = flat_map part_bases parts
  /\ (forall k, In k (requiredProps st)
                <-> In k (required_names (Js.get_opt schema "required"))
                    \/ In k (flat_map part_required parts))
  /\ (forall k, In k (List.map fst (props_of (properties st)))
                <-> In k (flat_map part_keys parts))
  /\ exists merged, properties st = JObj merged.
Proof.
  unfold dto_collect. intros HallOf H.
  bind_inv H as required Hrequired. bind_inv H as initial Hinitial.
  rewrite HallOf in H. simpl in H.
  apply get_get_opt in Hrequired. apply required_names_iterate in Hinitial.
  apply allOf_loop_spec in H as (Hi & _ & Hr & Hk & Hm). simpl in Hi, Hr, Hk, Hm.
  split_all.
  - exact Hi.
  - intros k. rewrite Hr, In_add_all, Hinitial, <- Hrequired. simpl. tauto.
  - intros k. rewrite Hk. tauto.
  - apply Hm. now exists [].
Qed.

(** ** Collecting the references to import *)

Lemma size_elem v elems : In v elems -> size v < size (JArr elems).
Proof.
  simpl. induction elems as [|x elems IH]; simpl; [easy |].
  intros [-> | H]; [lia | specialize (IH H); lia].
Qed.

Lemma size_entry key v props : In (key, v) props -> size v < size (JObj props).
Proof.
  simpl. induction props as [|[k x] props IH]; simpl; [easy |].
  intros [[= -> ->] | H]; [lia | specialize (IH H); lia].
Qed.

Lemma indexed_chars key v s i :
  In (key, v) (Js.indexed i (Js.chars s)) -> exists c, v = JStr c.
Proof.
  revert i. induction s as [|c s IH]; simpl; [easy |].
  intros i [[= _ <-] | H]; [eauto | now apply (IH (S i))].
Qed.

Lemma In_indexed v elems i :
  In v elems <-> exists key, In (key, v) (Js.indexed i elems).
Proof.
  revert i. induction elems as [|x elems IH]; intros i; simpl.
  - split; [easy | now intros [? []]].
  - rewrite (IH (S i)). split.
    + intros [-> | [key H]]; eauto.
    + intros [key [[= _ ->] | H]]; eauto.
Qed.

Lemma size_own_entry key v properties :
  In (key, v) (Js.own_entries properties) -> size v <= size properties.
Proof.
  destruct properties as [| | | |s|elems|props]; simpl; try easy.
  - intros H. apply indexed_chars in H as [c ->]. simpl. lia.
  - intros H. apply Nat.lt_le_incl. apply (size_elem v elems).
    apply (In_indexed v elems 0). now exists key.
  - intros H. apply Nat.lt_le_incl. now apply (size_entry key).
Qed.

Lemma reaches_object n v : reaches v n -> exists props, v = JObj props.
Proof. intros H. destruct H; eauto. Qed.

(** A loop of [collectRefs] over values each of which meets the
    specification [P]. *)
Lemma collectRefs_loop name (values : list JsVal) :
  (forall v used used',
      In v values -> collectRefs name v used = Normal used' ->
      (List.NoDup used -> List.NoDup used')
      /\ forall x, In x used' <-> In x used \/ (x <> name /\ reaches v x)) ->
  forall used used',
    foldM (collectRefs name) values used = Normal used' ->
    (List.NoDup used -> List.NoDup used')
    /\ forall x, In x used'
                 <-> In x used \/ (x <> name /\ exists v, In v values /\ reaches v x).
Proof.
  induction values as [|v values IH]; intros Hspec used used' H.
  - apply Normal_inj in H. subst used'. split; [easy |].
    intros x. split; [tauto | intros [H | (_ & v & [] & _)]; exact H].
  - cbn [foldM] in H. bind_inv H as used1 Hused1.
    destruct (Hspec v used used1 (or_introl eq_refl) Hused1) as [Hnd1 Hin1].
    destruct (IH (fun w u u' Hw => Hspec w u u' (or_intror Hw)) used1 used' H)
      as [Hnd Hin].
    split; [tauto |]. intros x. rewrite Hin, Hin1. split.
    + intros [[H1 | (Hx & Hr)] | (Hx & w & Hw & Hr)]; eauto 8 using in_eq, in_cons.
    + intros [H1 | (Hx & w & [<- | Hw] & Hr)]; eauto 8.
Qed.

Lemma foldM_entries name (props : list (string * JsVal)) used :
  foldM (fun '(_, prop) => collectRefs name prop) props used
  = foldM (collectRefs name) (List.map snd props) used.
Proof.
  revert used. induction props as [|[k v] props IH]; intros used; [reflexivity |].
  cbn [foldM List.map snd]. destruct (collectRefs name v used); simpl; [apply IH | reflexivity].
Qed.

Lemma collectRefs_spec name (bound : nat) :
  forall propSchema used used',
    size propSchema < bound ->
    collectRefs name propSchema used = Normal used' ->
    (List.NoDup used -> List.NoDup used')
    /\ forall x, In x used' <-> In x used \/ (x <> name /\ reaches propSchema x).
Proof.
  induction bound as [|bound IH]; intros propSchema used used' Hsize H; [lia |].
  assert (Hsame : used' = used ->
                  (forall x, ~ reaches propSchema x) ->
                  (List.NoDup used -> List.NoDup used')
                  /\ forall x, In x used' <-> In x used \/ (x <> name /\ reaches propSchema x)).
  { intros -> Hno. split; [easy |]. intros x. specialize (Hno x). tauto. }
  destruct propSchema as [| |b|z|s|elems|props]; try discriminate;
    try (apply Normal_inj in H; apply Hsame; [congruence |];
         intros x Hx; apply reaches_object in Hx as [? [=]]).
  clear Hsame. cbn [collectRefs] in H.
  bind_inv H as used1 Hused1. bind_inv H as used2 Hused2.
  rewrite with_prop_lookup in Hused2, H.
  (* the reference of the schema itself *)
  assert (H1 : (List.NoDup used -> List.NoDup used1)
               /\ forall x, In x used1
                  <-> In x used
                      \/ (x <> name
                          /\ exists ref, Js.lookup props "$ref" = Some (JStr ref)
                                         /\ ref <> "" /\ Str.last_segment ref <> ""
                                         /\ x = Str.last_segment ref)).
  { clear H Hused2. destruct (Js.lookup props "$ref") as [ref|] eqn:Hlook; simpl in Hused1.
    - destruct (Js.truthy ref) eqn:Ht.
      + bind_inv Hused1 as refName HrefName.
        destruct ref as [| | | |r| |]; try discriminate.
        apply Normal_inj in HrefName. subst refName.
        simpl in Ht. apply negb_true_iff, String.eqb_neq in Ht.
        apply Normal_inj in Hused1. subst used1.
        destruct (String.eqb (Str.last_segment r) "") eqn:Hl; simpl.
        * apply String.eqb_eq in Hl. split; [easy |]. intros x. split; [tauto |].
          intros [Hx | (_ & ref & [= <-] & _ & Hne & _)]; [exact Hx | congruence].
        * apply String.eqb_neq in Hl.
          destruct (String.eqb (Str.last_segment r) name) eqn:Hn; simpl.
          -- apply String.eqb_eq in Hn. split; [easy |]. intros x. split; [tauto |].
             intros [Hx | (Hne & ref & [= <-] & _ & _ & ->)]; [exact Hx | congruence].
          -- apply String.eqb_neq in Hn. split; [apply NoDup_add |].
             intros x. rewrite In_add. split.
             ++ intros [-> | Hx]; [right | now left]. split; [exact Hn |]. now exists r.
             ++ intros [Hx | (_ & ref & [= <-] & _ & _ & ->)]; [now right | now left].
      + apply Normal_inj in Hused1. subst used1. split; [easy |].
        intros x. split; [tauto |].
        intros [Hx | (_ & r & [= ->] & Hne & _)]; [exact Hx |].
        simpl in Ht. apply negb_false_iff, String.eqb_eq in Ht. congruence.
    - apply Normal_inj in Hused1. subst used1. split; [easy |].
      intros x. split; [tauto | intros [Hx | (_ & r & [=] & _)]; exact Hx]. }
  (* the items of an array *)
  assert (H2 : (List.NoDup used1 -> List.NoDup used2)
               /\ forall x, In x used2
                  <-> In x used1
                      \/ (x <> name
                          /\ exists type items,
                              Js.lookup props "type" = Some type
                              /\ Js.is_str type "array" = true
                              /\ Js.lookup props "items" = Some items
                              /\ Js.truthy items = true /\ reaches items x)).
  { clear H Hused1 H1. destruct (Js.lookup props "type") as [type|] eqn:Htype; simpl in Hused2.
    - destruct (Js.is_str type "array") eqn:Harr.
      + destruct (Js.lookup props "items") as [items|] eqn:Hitems.
        * destruct (Js.truthy items) eqn:Ht.
          -- assert (Hlt : size items < bound).
             { apply lookup_In, size_entry in Hitems. lia. }
             destruct (IH items used1 used2 Hlt Hused2) as [Hnd Hin].
             split; [exact Hnd |]. intros x. rewrite Hin. split.
             ++ intros [Hx | (Hne & Hr)]; [now left | right].
                split; [exact Hne |]. exists type, items. tauto.
             ++ intros [Hx | (Hne & ty & it & [= <-] & _ & [= <-] & _ & Hr)]; tauto.
          -- apply Normal_inj in Hused2. subst used2. split; [easy |].
             intros x. split; [tauto |].
             intros [Hx | (_ & ty & it & _ & _ & [= <-] & Hit & _)]; [exact Hx | congruence].
        * apply Normal_inj in Hused2. subst used2. split; [easy |].
          intros x. split; [tauto |].
          intros [Hx | (_ & ty & it & _ & _ & [=] & _)]; exact Hx.
      + apply Normal_inj in Hused2. subst used2. split; [easy |].
        intros x. split; [tauto |].
        intros [Hx | (_ & ty & it & [= <-] & Hty & _)]; [exact Hx | congruence].
    - apply Normal_inj in Hused2. subst used2. split; [easy |].
      intros x. split; [tauto |].
      intros [Hx | (_ & ty & it & [=] & _)]; exact Hx. }
  (* the properties of an object *)
  assert (H3 : (List.NoDup used2 -> List.NoDup used')
               /\ forall x, In x used'
                  <-> In x used2
                      \/ (x <> name
                          /\ exists type properties key prop,
                              Js.lookup props "type" = Some type
                              /\ Js.is_str type "object" = true
                              /\ Js.lookup props "properties" = Some properties
                              /\ Js.truthy properties = true
                              /\ In (key, prop) (Js.own_entries properties)
                              /\ reaches prop x)).
  { clear Hused1 Hused2 H1 H2.
    match goal with
    | |- ?G =>
        assert (Hsame : used' = used2 ->
                        (forall type properties,
                            Js.lookup props "type" = Some type ->
                            Js.is_str type "object" = true ->
                            Js.lookup props "properties" = Some properties ->
                            Js.truthy properties = true ->
                            forall key prop x, In (key, prop) (Js.own_entries properties) ->
                                               ~ reaches prop x) ->
                        G)
    end.
    { intros -> Hno. split; [easy |]. intros x. split; [tauto |].
      intros [Hx | (_ & ty & ps & key & prop & H1 & H2 & H3 & H4 & H5 & H6)];
        [exact Hx | exfalso; eapply Hno; eassumption]. }
    destruct (Js.lookup props "type") as [type|] eqn:Htype; simpl in H;
      [| apply Normal_inj in H; apply Hsame; [congruence | discriminate]].
    destruct (Js.is_str type "object") eqn:Hobj;
      [| apply Normal_inj in H; apply Hsame; [congruence |];
         intros ty ps [= <-]; congruence].
    destruct (Js.lookup props "properties") as [properties|] eqn:Hprops;
      [| apply Normal_inj in H; apply Hsame; [congruence |];
         intros ty ps _ _ [=]].
    destruct (Js.truthy properties) eqn:Ht;
      [| apply Normal_inj in H; apply Hsame; [congruence |];
         intros ty ps _ _ [= <-]; congruence].
    assert (Hlt : size properties < bound).
    { apply lookup_In, size_entry in Hprops. lia. }
    match goal with
    | |- ?G =>
        assert (Hvalues :
                 forall values,
                   (forall v, In v values
                              <-> exists key, In (key, v) (Js.own_entries properties)) ->
                   foldM (collectRefs name) values used2 = Normal used' -> G)
    end.
    { intros values Hvals Hfold. clear Hsame.
      destruct (collectRefs_loop name values) with (used := used2) (used' := used')
        as [Hnd Hin]; [| exact Hfold |].
      - intros v u u' Hv. apply IH.
        apply Hvals in Hv as [key Hv]. apply size_own_entry in Hv. lia.
      - split; [exact Hnd |]. intros x. rewrite Hin. split.
        + intros [Hx | (Hne & v & Hv & Hr)]; [now left | right].
          split; [exact Hne |]. apply Hvals in Hv as [key Hv].
          exists type, properties, key, v. tauto.
        + intros [Hx | (Hne & ty & ps & key & prop & _ & _ & [= <-] & _ & Hin' & Hr)];
            [now left | right].
          split; [exact Hne |]. exists prop. split; [| exact Hr].
          apply Hvals. now exists key. }
    destruct properties as [| |b|z|s|elems|entries].
    - discriminate.
    - discriminate.
    - apply Normal_inj in H. apply Hsame; [congruence |].
      intros ty ps _ _ [= <-] _ key prop x [].
    - apply Normal_inj in H. apply Hsame; [congruence |].
      intros ty ps _ _ [= <-] _ key prop x [].
    - apply Normal_inj in H. apply Hsame; [congruence |].
      intros ty ps _ _ [= <-] _ key prop x Hin Hr.
      apply reaches_object in Hr as [ps' ->]. simpl in Hin.
      apply indexed_chars in Hin as [c [=]].
    - apply (Hvalues elems); [| exact H].
      intros v. simpl. apply In_indexed.
    - rewrite foldM_entries in H. apply (Hvalues (List.map snd entries)); [| exact H].
      intros v. simpl. rewrite in_map_iff. split.
      + intros [[k w] [<- Hin]]. now exists k.
      + intros [key Hin]. now exists (key, v). }
  destruct H1 as [Hnd1 Hin1], H2 as [Hnd2 Hin2], H3 as [Hnd3 Hin3].
  split; [tauto |]. intros x. rewrite Hin3, Hin2, Hin1. split.
  - intros [[[Hx | (Hne & ref & Hl & Hr1 & Hr2 & ->)]
            | (Hne & ty & it & Hty & Harr & Hit & Ht & Hr)]
           | (Hne & ty & ps & key & prop & Hty & Hobj & Hps & Ht & Hin & Hr)].
    + now left.
    + right. split; [exact Hne |]. now apply reaches_ref.
    + right. split; [exact Hne |]. now apply (reaches_items props ty it).
    + right. split; [exact Hne |]. now apply (reaches_properties props ty ps key prop).
  - intros [Hx | (Hne & Hr)]; [now do 3 left |].
    inversion Hr; subst.
    + do 2 left. right. split; [exact Hne |]. eexists. eauto.
    + left. right. split; [exact Hne |]. do 2 eexists. eauto 6.
    + right. split; [exact Hne |]. do 4 eexists. eauto 8.
Qed.

(** ** The emitted declaration *)

Lemma has_ext (s1 s2 : list string) (k : string) :
  (In k s1 <-> In k s2) -> StrSet.has k s1 = StrSet.has k s2.
Proof.
  intros H. destruct (StrSet.has k s1) eqn:H1, (StrSet.has k s2) eqn:H2; try reflexivity.
  - apply has_In, H, has_In in H1. congruence.
  - apply has_In, H, has_In in H2. congruence.
Qed.

Lemma field_lines_spec required all entries fields :
  mapM (field_line required all) entries = Normal fields ->
  Forall2 (fun entry line =>
             exists propType, getTypeScriptType (snd entry) all = Normal propType
                              /\ line = field_text required (fst entry) propType)
          entries fields.
Proof.
  revert fields. induction entries as [|[k v] entries IH]; intros fields H.
  - apply Normal_inj in H. subst fields. constructor.
  - cbn [mapM] in H. bind_inv H as line Hline. bind_inv H as lines Hlines.
    apply Normal_inj in H. subst fields. constructor; [| now apply IH].
    unfold field_line in Hline. bind_inv Hline as propType HpropType.
    apply Normal_inj in Hline. subst line. exists propType. split; [exact HpropType |].
    reflexivity.
Qed.

Lemma field_lines_ext required1 required2 all entries fields :
  (forall k, In k required1 <-> In k required2) ->
  Forall2 (fun entry line =>
             exists propType, getTypeScriptType (snd entry) all = Normal propType
                              /\ line = field_text required1 (fst entry) propType)
          entries fields ->
  Forall2 (fun entry line =>
             exists propType, getTypeScriptType (snd entry) all = Normal propType
                              /\ line = field_text required2 (fst entry) propType)
          entries fields.
Proof.
  intros Hext H. induction H as [|entry line entries fields (T & HT & ->) _ IH];
    constructor; [| exact IH].
  exists T. split; [exact HT |]. unfold field_text. now rewrite (has_ext _ _ _ (Hext (fst entry))).
Qed.

(** The text of an interface declaration, lines 192-212. *)
Lemma generateDTOType_interface name schema all enum out :
  Js.get schema "enum" = Normal enum -> Js.truthy enum = false ->
  generateDTOType name schema all = Normal out ->
  exists st imports fields,
    dto_collect schema = Normal st
    /\ foldM (collectRefs name) (List.map snd (Js.own_entries (properties st))) (usedRefs st)
       = Normal imports
    /\ mapM (field_line (requiredProps st) all) (Js.own_entries (properties st))
       = Normal fields
    /\ out = importSection imports +:+ "export interface " +:+ name
             +:+ extendsLine (inheritance st) +:+ " {" +:+ LF
             +:+ String.concat "" fields +:+ "}" +:+ LF.
Proof.
  intros Henum Hfalse H. unfold generateDTOType in H. rewrite Henum in H.
  simpl in H. rewrite Hfalse in H.
  bind_inv H as st Hst. bind_inv H as imports Himports. bind_inv H as fields Hfields.
  apply Normal_inj in H. subst out. exists st, imports, fields.
  split_all; try assumption. now rewrite !append_assoc.
Qed.

Lemma imports_spec name st imports :
  List.NoDup (usedRefs st) ->
  foldM (collectRefs name) (List.map snd (Js.own_entries (properties st))) (usedRefs st)
  = Normal imports ->
  List.NoDup imports
  /\ forall x, In x imports
               <-> In x (usedRefs st)
                   \/ (x <> name
                       /\ exists key prop, In (key, prop) (Js.own_entries (properties st))
                                           /\ reaches prop x).
Proof.
  intros Hnd H.
  destruct (collectRefs_loop name (List.map snd (Js.own_entries (properties st))))
    with (used := usedRefs st) (used' := imports) as [Hnd' Hin]; [| exact H |].
  - intros v used used' _. apply (collectRefs_spec name (S (size v))). lia.
  - split; [now apply Hnd' |]. intros x. rewrite Hin. split.
    + intros [Hx | (Hne & v & Hv & Hr)]; [now left | right]. split; [exact Hne |].
      apply in_map_iff in Hv as [[key prop] [<- Hv]]. now exists key, prop.
    + intros [Hx | (Hne & key & prop & Hv & Hr)]; [now left | right]. split; [exact Hne |].
      exists prop. split; [| exact Hr]. apply in_map_iff. now exists (key, prop).
Qed.

(** ** Enum schemas *)

Lemma join_with_cons conv sep x y rest :
  Js.join_with conv sep (x :: y :: rest)
  = bind (Js.join_with conv sep [x])
         (fun a => bind (Js.join_with conv sep (y :: rest))
                        (fun b => Normal (a +:+ sep +:+ b))).
Proof. reflexivity. Qed.

Lemma join_literal (v : JsVal) :
  is_scalar v = true ->
  Js.join_with Js.ToString " | " [enum_literal v] = Normal (literal_text v).
Proof. destruct v as [| |[|]| | | |]; try discriminate; reflexivity. Qed.

Lemma join_literals (values : list JsVal) :
  forallb is_scalar values = true ->
  Js.join " | " (List.map enum_literal values)
  = Normal (Str.join " | " (List.map literal_text values)).
Proof.
  unfold Js.join. induction values as [|v values IH]; intros H; [reflexivity |].
  simpl in H. apply andb_prop in H as [Hv H]. specialize (IH H).
  destruct values as [|w values].
  - now apply join_literal.
  - cbn [List.map] in IH |- *. rewrite join_with_cons, (join_literal v Hv), IH.
    reflexivity.
Qed.

Lemma generateDTOType_enum name schema all values :
  Js.get schema "enum" = Normal (JArr values) ->
  forallb is_scalar values = true ->
  generateDTOType name schema all
  = Normal ("export type " +:+ name +:+ " = "
            +:+ Str.join " | " (List.map literal_text values) +:+ ";" +:+ LF).
Proof.
  intros Henum Hscalar. unfold generateDTOType. rewrite Henum. simpl.
  unfold enum_union. simpl. now rewrite (join_literals values Hscalar).
Qed.

(** C6: at an enum with a [null] literal the emitted union has an empty
    member where the literal should stand: [join] renders [null] as the
    empty string. *)
Theorem C6_null_literal_rendered_empty :
  generateDTOType "Status" (JObj [("enum", JArr [JStr "on"; JNull; JNum 3])]) (JObj [])
  = Normal ("export type Status = 'on' |  | 3;" +:+ LF).
Proof. reflexivity. Qed.

(** C4 (amended): for an [allOf] schema the [extends] clause lists the
    bases named by the [$ref] parts in encounter order, the body has one field
    per property name contributed by the inline parts, and a field carries no
    optional marker exactly when its name is in the schema's own [required]
    list or in the [required] list of an inline part. *)
Theorem C4_allOf_declaration
        (name : string) (schema all enum : JsVal) (parts : list JsVal) (out : string) :
  Js.get schema "enum" = Normal enum -> Js.truthy enum = false ->
  Js.get schema "allOf" = Normal (JArr parts) ->
  generateDTOType name schema all = Normal out ->
  exists imports merged fields,
    out = importSection imports +:+ "export interface " +:+ name
          +:+ extendsLine (flat_map part_bases parts) +:+ " {" +:+ LF
          +:+ String.concat "" fields +:+ "}" +:+ LF
    /\ (forall key, In key (List.map fst merged) <-> In key (flat_map part_keys parts))
    /\ Forall2 (fun entry line =>
                  exists propType,
                    getTypeScriptType (snd entry) all = Normal propType
                    /\ line = field_text (required_names (Js.get_opt schema "required")
                                          ++ flat_map part_required parts)
                                         (fst entry) propType)
               merged fields.
Proof.
  intros Henum Hfalse HallOf Hout.
  destruct (generateDTOType_interface _ _ _ _ _ Henum Hfalse Hout)
    as (st & imports & fields & Hst & _ & Hfields & ->).
  destruct (dto_collect_allOf _ _ _ HallOf Hst) as (Hi & Hr & Hk & merged & Hm).
  exists imports, merged, fields. rewrite Hm in Hk, Hfields. simpl in Hk, Hfields.
  rewrite Hi. split_all; [reflexivity | exact Hk |].
  apply field_lines_ext with (required1 := requiredProps st).
  - intros k. rewrite Hr, in_app_iff. tauto.
  - now apply field_lines_spec.
Qed.

(** The declaration of [Derived]. *)
Lemma C4_allOf_declaration_witness :
  exists imports merged fields,
    "import type { Base } from './Base';

export interface Derived extends Base {
  x: string;
}
"
    = importSection imports +:+ "export interface " +:+ "Derived"
      +:+ extendsLine ["Base"] +:+ " {" +:+ LF +:+ String.concat "" fields +:+ "}" +:+ LF
    /\ (forall key, In key (List.map fst merged) <-> In key ["x"])
    /\ Forall2 (fun entry line =>
                  exists propType,
                    getTypeScriptType (snd entry) (JObj []) = Normal propType
                    /\ line = field_text ["x"] (fst entry) propType)
               merged fields.
Proof.
  exact (C4_allOf_declaration "Derived" derived_schema (JObj []) JUndefined _ _
                              eq_refl eq_refl eq_refl eq_refl).
Defined.

(** C4, as stated, fails: in [Derived] the property [x] is in no inline
    part's [required] list, yet its field has no optional marker, because the
    schema's own [required] list names it. *)
Lemma C4_own_required_list_counts :
  flat_map part_required
           [ref_to "Base";
            JObj [("type", JStr "object"); ("properties", JObj [("x", string_schema)])]]
  = []
  /\ generateDTOType "Derived" derived_schema (JObj [])
     = Normal "import type { Base } from './Base';

export interface Derived extends Base {
  x: string;
}
".
Proof. split; reflexivity. Qed.

(** C10: when a [$ref] part of [allOf] names the schema itself, the schema's
    own name is among the [extends] entries and has an import line: the
    exclusion of self-references applies to references reached through
    properties and items only. *)
Theorem C10_self_base_is_imported
        (name : string) (schema all enum : JsVal) (parts : list JsVal)
        (part : JsVal) (ref out : string) :
  name <> "" ->
  Js.get schema "enum" = Normal enum -> Js.truthy enum = false ->
  Js.get schema "allOf" = Normal (JArr parts) ->
  In part parts -> Js.get part "$ref" = Normal (JStr ref) ->
  Str.last_segment ref = name ->
  generateDTOType name schema all = Normal out ->
  exists imports bases rest,
    out = importSection imports +:+ "export interface " +:+ name
          +:+ (" extends " +:+ Str.join ", " bases) +:+ rest
    /\ bases = flat_map part_bases parts
    /\ In name bases
    /\ count_occ string_dec imports name = 1.
Proof.
  intros Hname Henum Hfalse HallOf Hpart Href Hlast Hout.
  destruct (generateDTOType_interface _ _ _ _ _ Henum Hfalse Hout)
    as (st & imports & fields & Hst & Himports & _ & ->).
  destruct (dto_collect_refs _ _ Hst) as (Hnd & Hused & _).
  destruct (imports_spec _ _ _ Hnd Himports) as [Hnd' Hin].
  destruct (dto_collect_allOf _ _ _ HallOf Hst) as (Hi & _).
  assert (Hbase : In name (flat_map part_bases parts)).
  { apply in_flat_map. exists part. split; [exact Hpart |].
    unfold part_bases. apply get_get_opt in Href. rewrite <- Href, Hlast.
    assert (ref <> "") as Hne by (intros ->; now apply Hname).
    apply String.eqb_neq in Hne, Hname. rewrite Hne, Hname. now left. }
  exists imports, (flat_map part_bases parts). eexists. split_all.
  - rewrite Hi. unfold extendsLine.
    destruct (flat_map part_bases parts) as [|b bs]; [destruct Hbase | reflexivity].
  - reflexivity.
  - exact Hbase.
  - apply NoDup_count_occ'; [exact Hnd' |]. apply Hin. left. apply Hused. now rewrite Hi.
Qed.

(** The file of [Node]. *)
Lemma C10_self_base_is_imported_witness :
  exists imports bases rest,
    "import type { Node } from './Node';

export interface Node extends Node {
  label?: string;
}
"
    = importSection imports +:+ "export interface " +:+ "Node"
      +:+ (" extends " +:+ Str.join ", " bases) +:+ rest
    /\ bases = ["Node"]
    /\ In "Node" bases
    /\ count_occ string_dec imports "Node" = 1.
Proof.
  refine (C10_self_base_is_imported "Node" node_schema (JObj []) JUndefined _
            (ref_to "Node") "#/components/schemas/Node" _
            _ eq_refl eq_refl eq_refl _ eq_refl eq_refl eq_refl).
  - discriminate.
  - simpl. tauto.
Defined.

(** ** Files *)

Section Files.

Variable path_join : string -> string -> string.

Lemma apply_writes_app ws1 ws2 (fs : gmap string string) :
  apply_writes (ws1 ++ ws2) fs = apply_writes ws2 (apply_writes ws1 fs).
Proof. unfold apply_writes. apply fold_left_app. Qed.

Lemma lookup_apply_writes ws (fs : gmap string string) path :
  apply_writes ws fs !! path
  = match written ws path with
    | Some content => Some content
    | None => fs !! path
    end.
Proof.
  revert fs. induction ws as [|[p content] ws IH]; intros fs; [reflexivity |].
  cbn [apply_writes fold_left written fst snd]. fold (apply_writes ws (<[p:=content]> fs)).
  rewrite IH. destruct (written ws path); [reflexivity |].
  destruct (String.eqb p path) eqn:Hp.
  - apply String.eqb_eq in Hp. subst p. apply lookup_insert_eq.
  - apply String.eqb_neq in Hp. now apply lookup_insert_ne.
Qed.

Lemma written_none ws path :
  Forall (fun w => fst w <> path) ws -> written ws path = None.
Proof.
  induction ws as [|[p content] ws IH]; intros H; [reflexivity |].
  inversion H as [|? ? Hp Hws]; subst. cbn [written]. rewrite (IH Hws).
  simpl in Hp. apply String.eqb_neq in Hp. now rewrite Hp.
Qed.

Lemma apply_writes_twice ws (fs : gmap string string) :
  apply_writes ws (apply_writes ws fs) = apply_writes ws fs.
Proof.
  apply map_eq. intros path. rewrite !lookup_apply_writes.
  now destruct (written ws path).
Qed.

(** Each writing function leaves the file system it was given with a
    sequence of writes on top; outcome and writes do not depend on the file
    system. *)
Lemma generateDTOs_loop_writes entries schemas dtoDir dtoExports :
  exists outcome ws,
    forall fs, generateDTOs_loop path_join entries schemas dtoDir dtoExports fs
               = (outcome, apply_writes ws fs).
Proof.
  revert dtoExports. induction entries as [|[schemaName schema] rest IH]; intros dtoExports.
  - exists (Normal dtoExports), []. reflexivity.
  - cbn [generateDTOs_loop].
    destruct (generateDTOType schemaName schema schemas) as [dtoContent|e].
    + destruct (IH (dtoExports ++ [export_line schemaName])) as (outcome & ws & Hws).
      exists outcome, ((path_join dtoDir (schemaName +:+ ".ts"), dtoContent) :: ws).
      intros fs. now rewrite Hws.
    + exists (Throw e), []. reflexivity.
Qed.

Lemma generateDTOs_writes schemas dtoDir :
  exists outcome ws,
    forall fs, generateDTOs path_join schemas dtoDir fs = (outcome, apply_writes ws fs).
Proof.
  unfold generateDTOs. destruct (Js.entries schemas) as [entries|e].
  - destruct (generateDTOs_loop_writes entries schemas dtoDir []) as (outcome & ws & Hws).
    destruct outcome as [dtoExports|e].
    + exists (Normal tt),
        (ws ++ [(path_join dtoDir "index.ts", Str.join LF dtoExports +:+ LF)]).
      intros fs. rewrite Hws, apply_writes_app. reflexivity.
    + exists (Throw e), ws. intros fs. now rewrite Hws.
  - exists (Throw e), []. reflexivity.
Qed.

Lemma generateClientClass_writes fileInfo clientsDir fileNameOverride :
  exists outcome ws,
    forall fs, generateClientClass path_join fileInfo clientsDir fileNameOverride fs
               = (outcome, apply_writes ws fs).
Proof.
  unfold generateClientClass. destruct (clientContent_of fileInfo) as [clientContent|e].
  - eexists (Normal tt), [(_, clientContent)]. reflexivity.
  - exists (Throw e), []. reflexivity.
Qed.

Lemma generateForFile_writes file :
  exists outcome ws,
    forall fs, generateForFile path_join file fs = (outcome, apply_writes ws fs).
Proof.
  unfold generateForFile.
  destruct (bind (loaded file) _) as [[[spec baseUrl] components]|e];
    [| exists (Throw e), []; reflexivity].
  set (allSchemas := Js.or (Js.get_opt components "schemas") (JObj [])).
  set (dtoDir := path_join (path_join (dirname file) "generated") "models").
  assert (Hdtos : exists outcome ws,
             forall fs, match Js.own_entries allSchemas with
                        | [] => (Normal tt, fs)
                        | _ => generateDTOs path_join allSchemas dtoDir fs
                        end = (outcome, apply_writes ws fs)).
  { destruct (Js.own_entries allSchemas).
    - exists (Normal tt), []. reflexivity.
    - apply generateDTOs_writes. }
  destruct Hdtos as (outcome & ws & Hws). destruct outcome as [[]|e].
  - match goal with
    | |- context [generateClientClass path_join ?info ?dir ?name] =>
        destruct (generateClientClass_writes info dir name) as (outcome' & ws' & Hws')
    end.
    exists outcome', (ws ++ ws'). intros fs. rewrite Hws, Hws', apply_writes_app. reflexivity.
  - exists (Throw e), ws. intros fs. now rewrite Hws.
Qed.

Lemma generateFromOpenAPIFiles_writes files :
  exists ws, forall fs, generateFromOpenAPIFiles path_join files fs = apply_writes ws fs.
Proof.
  induction files as [|file rest [ws' Hrest]].
  - exists []. reflexivity.
  - destruct (generateForFile_writes file) as (outcome & ws & Hws).
    exists (ws ++ ws'). intros fs. cbn [generateFromOpenAPIFiles].
    rewrite Hws, Hrest, apply_writes_app. reflexivity.
Qed.



End Files.

(** Writing the same sequence again changes nothing. *)
Lemma second_run_changes_nothing
      (path_join : string -> string -> string) (files : list SpecFile)
      (fs : gmap string string) :
  generateFromOpenAPIFiles path_join files (generateFromOpenAPIFiles path_join files fs)
  = generateFromOpenAPIFiles path_join files fs.
Proof.
  destruct (generateFromOpenAPIFiles_writes path_join files) as [ws Hws].
  rewrite !Hws. apply apply_writes_twice.
Qed.


(** * Further properties of the code *)

(** ** Case conversion *)

Lemma not_sep_is_dot (c : ascii) : Str.is_sep c = false -> Str.is_dot c = true.
Proof. destruct c as [[] [] [] [] [] [] [] []]; vm_compute; congruence. Qed.

Lemma alnum_not_sep (c : ascii) : Str.is_alnum c = true -> Str.is_sep c = false.
Proof. destruct c as [[] [] [] [] [] [] [] []]; vm_compute; congruence. Qed.

Lemma upper_lower_twice (c : ascii) :
  Str.upper_char (Str.lower_char (Str.upper_char (Str.lower_char c)))
  = Str.upper_char (Str.lower_char c).
Proof. destruct c as [[] [] [] [] [] [] [] []]; reflexivity. Qed.

Lemma upper_lower (c : ascii) : Str.upper_char (Str.lower_char c) = Str.upper_char c.
Proof. destruct c as [[] [] [] [] [] [] [] []]; reflexivity. Qed.

Lemma filter_all p (s : string) : Str.forallb p s = true -> Str.filter p s = s.
Proof.
  induction s as [|c s IH]; [reflexivity |].
  simpl. intros H. apply andb_prop in H as [Hc H]. rewrite Hc. now rewrite IH.
Qed.

Lemma alnum_no_sep (s : string) : Str.forallb Str.is_alnum s = true -> no_sep s = true.
Proof.
  unfold no_sep. induction s as [|c s IH]; [reflexivity |].
  simpl. intros H. apply andb_prop in H as [Hc H].
  rewrite (alnum_not_sep c Hc). simpl. now apply IH.
Qed.

Lemma sep_then_char_other (c : ascii) (s : string) :
  Str.is_sep c = false -> Regex.sep_then_char (String c s) = None.
Proof. intros H. unfold Regex.sep_then_char. simpl. now rewrite H. Qed.

Lemma scan_sep_literal (lit rest : string) :
  no_sep lit = true ->
  Regex.scan Regex.sep_then_char 0 (lit +:+ rest)
  = literal lit ++ Regex.scan Regex.sep_then_char 0 rest.
Proof.
  unfold no_sep. induction lit as [|c lit IH]; intros H; [reflexivity |].
  simpl in H. apply andb_prop in H as [Hc H]. apply negb_true_iff in Hc.
  rewrite append_String. cbn [Regex.scan literal].
  rewrite (sep_then_char_other c _ Hc), <- app_comm_cons. f_equal. now apply IH.
Qed.

Lemma sep_plus_dot_run (seps : string) (c : ascii) (rest : string) :
  all_sep seps = true -> Str.is_sep c = false ->
  Regex.sep_plus_dot (seps +:+ String c rest) = Some (seps, c).
Proof.
  unfold all_sep. intros H Hc. apply andb_prop in H as [Hne Hall].
  destruct seps as [|x seps]; [discriminate |]. clear Hne.
  revert x Hall. induction seps as [|y seps IH]; intros x Hall;
    simpl in Hall; apply andb_prop in Hall as [Hx Hall];
    rewrite append_String; cbn [Regex.sep_plus_dot]; rewrite Hx.
  - rewrite append_empty_l. simpl. rewrite Hc, (not_sep_is_dot c Hc). reflexivity.
  - now rewrite (IH y Hall).
Qed.

Lemma scan_sep_word (seps : string) (c : ascii) (rest : string) :
  all_sep seps = true -> Str.is_sep c = false ->
  Regex.scan Regex.sep_then_char 0 (seps +:+ String c rest)
  = Regex.Hit (seps +:+ String c "") (String c "")
    :: Regex.scan Regex.sep_then_char 0 rest.
Proof.
  intros Hseps Hc.
  assert (Hm : Regex.sep_then_char (seps +:+ String c rest)
               = Some (seps +:+ String c "", String c "")).
  { unfold Regex.sep_then_char. now rewrite (sep_plus_dot_run seps c rest Hseps Hc). }
  destruct seps as [|x seps]; [discriminate |].
  rewrite append_String in Hm |- *. cbn [Regex.scan]. rewrite Hm. f_equal.
  replace (String.length (String x seps +:+ String c "") - 1)
    with (String.length (seps +:+ String c ""))
    by (rewrite append_String; simpl; lia).
  replace (seps +:+ String c rest) with ((seps +:+ String c "") +:+ rest)
    by (now rewrite append_assoc).
  apply scan_skip.
Qed.

Lemma replaced_words (words : list (string * ascii * string)) :
  well_separated words = true ->
  Regex.strip_non_alnum
    (Regex.replace_all Regex.sep_then_char (fun _ char => Str.toUpperCase char)
                       (separated words))
  = capitalized words.
Proof.
  unfold Regex.replace_all, Regex.strip_non_alnum.
  induction words as [|[[seps c] word] rest IH]; intros H; [reflexivity |].
  simpl in H. apply andb_prop in H as [Hw H].
  apply andb_prop in Hw as [Hw Hword]. apply andb_prop in Hw as [Hseps Hc].
  apply negb_true_iff in Hc. specialize (IH H).
  cbn [separated capitalized]. rewrite (append_String c word).
  rewrite (scan_sep_word seps c _ Hseps Hc), (scan_sep_literal word _ Hword).
  cbn [List.map]. rewrite concat_cons, List.map_app, concat_app, replaced_literal.
  rewrite !filter_append, IH.
  change (Str.toUpperCase (String c "")) with (String (Str.upper_char c) "").
  rewrite <- append_assoc, <- filter_append. reflexivity.
Qed.

(** X1: in a name of 7-bit ASCII characters made of a first word and further
    words, each after a run of hyphens, underscores or white space,
    [camelCase] puts the first character in lower case, drops the separators
    and puts the first character of every further word in upper case; other
    characters that are not letters or digits are dropped, except the very
    first one. *)
Theorem camelCase_words (c0 : ascii) (first : string)
        (words : list (string * ascii * string)) :
  ascii7 (String c0 (first +:+ separated words)) = true ->
  no_sep first = true -> well_separated words = true ->
  camelCase (String c0 (first +:+ separated words))
  = String (Str.lower_char c0) (Regex.strip_non_alnum first +:+ capitalized words)
  /\ pascalCase (String c0 (first +:+ separated words))
     = String (Str.upper_char c0) (Regex.strip_non_alnum first +:+ capitalized words).
Proof.
  intros _ Hfirst Hwords.
  assert (Hc : camelCase (String c0 (first +:+ separated words))
               = String (Str.lower_char c0)
                        (Regex.strip_non_alnum first +:+ capitalized words)).
  { unfold camelCase. cbn [Str.charAt0 Str.slice1].
    rewrite <- (replaced_words words Hwords).
    unfold Regex.replace_all, Regex.strip_non_alnum.
    rewrite (scan_sep_literal first _ Hfirst), List.map_app, concat_app, replaced_literal.
    rewrite filter_append. reflexivity. }
  split; [exact Hc |]. unfold pascalCase. rewrite Hc. cbn [Str.charAt0 Str.slice1].
  change (Str.toUpperCase (String (Str.lower_char c0) ""))
    with (String (Str.upper_char (Str.lower_char c0)) "").
  now rewrite upper_lower.
Qed.

(** The file name [users-api_v2 final]. *)
Lemma camelCase_words_witness :
  camelCase "users-api_v2 final" = "usersApiV2Final"
  /\ pascalCase "users-api_v2 final" = "UsersApiV2Final".
Proof.
  exact (camelCase_words
           "u"%char "sers"
           [("-", "a"%char, "pi"); ("_", "v"%char, "2"); (" ", "f"%char, "inal")]
           eq_refl eq_refl eq_refl).
Defined.

Lemma camelCase_shape (c : ascii) (rest : string) :
  exists tail, camelCase (String c rest) = String (Str.lower_char c) tail
               /\ Str.forallb Str.is_alnum tail = true.
Proof.
  eexists. split; [reflexivity |]. apply forallb_filter.
Qed.

Lemma camelCase_identifier (c : ascii) (rest : string) :
  Str.forallb Str.is_alnum rest = true ->
  camelCase (String c rest) = String (Str.lower_char c) rest.
Proof.
  intros H. unfold camelCase. cbn [Str.charAt0 Str.slice1].
  unfold Regex.replace_all, Regex.strip_non_alnum.
  rewrite <- (append_empty_r rest) at 1.
  rewrite (scan_sep_literal rest "" (alnum_no_sep rest H)). cbn [Regex.scan].
  rewrite app_nil_r, replaced_literal, (filter_all _ _ H). reflexivity.
Qed.

Lemma pascalCase_identifier (c : ascii) (rest : string) :
  Str.forallb Str.is_alnum rest = true ->
  pascalCase (String c rest) = String (Str.upper_char c) rest.
Proof.
  intros H. unfold pascalCase. rewrite (camelCase_identifier c rest H).
  cbn [Str.charAt0 Str.slice1].
  change (Str.toUpperCase (String (Str.lower_char c) ""))
    with (String (Str.upper_char (Str.lower_char c)) "").
  now rewrite upper_lower.
Qed.

(** X2: on a name of 7-bit ASCII characters, [pascalCase] applied to its own
    result changes nothing, and so does [camelCase]: after the first
    character, which is never dropped, a converted name has letters and
    digits only. *)
Theorem pascalCase_idempotent (str : string) :
  ascii7 str = true ->
  pascalCase (pascalCase str) = pascalCase str
  /\ camelCase (camelCase str) = camelCase str
  /\ Str.forallb Str.is_alnum (Str.slice1 (pascalCase str)) = true
  /\ String.length (Str.charAt0 (pascalCase str)) = String.length (Str.charAt0 str).
Proof.
  intros _. destruct str as [|c rest]; [repeat split |].
  destruct (camelCase_shape c rest) as (tail & Hc & Htail).
  assert (Hp : pascalCase (String c rest) = String (Str.upper_char c) tail).
  { unfold pascalCase. rewrite Hc. cbn [Str.charAt0 Str.slice1].
    change (Str.toUpperCase (String (Str.lower_char c) ""))
      with (String (Str.upper_char (Str.lower_char c)) "").
    now rewrite upper_lower. }
  split_all.
  - rewrite Hp, (pascalCase_identifier _ tail Htail).
    now rewrite <- (upper_lower (Str.upper_char c)), <- (upper_lower c), upper_lower_twice.
  - rewrite Hc, (camelCase_identifier _ tail Htail). f_equal.
    destruct c as [[] [] [] [] [] [] [] []]; reflexivity.
  - rewrite Hp. exact Htail.
  - rewrite Hp. reflexivity.
Qed.

(** The name [_users api]: the underscore in front is kept. *)
Lemma pascalCase_idempotent_witness :
  pascalCase "_users api" = "_usersApi"
  /\ pascalCase "_usersApi" = "_usersApi"
  /\ camelCase "_usersApi" = "_usersApi".
Proof.
  destruct (pascalCase_idempotent "_users api" eq_refl) as (Hp & _).
  destruct (pascalCase_idempotent "_usersApi" eq_refl) as (_ & Hc & _).
  split_all; [reflexivity | exact Hp | exact Hc].
Defined.

(** X3: on an identifier made of letters and digits [pascalCase] changes the
    first character only, to upper case; so the name of a generated method is
    the method key followed by the capitalised operationId. *)
Theorem pascalCase_capitalises_identifier
        (pathTemplate method : string) (operation : JsVal) (c : ascii) (rest : string) :
  Str.forallb Str.is_alnum rest = true ->
  Js.get operation "operationId" = Normal (JStr (String c rest)) ->
  pascalCase (String c rest) = String (Str.upper_char c) rest
  /\ methodName_of pathTemplate method operation
     = Normal (method +:+ String (Str.upper_char c) rest).
Proof.
  intros Hrest Hget.
  pose proof (pascalCase_identifier c rest Hrest) as Hp. split; [exact Hp |].
  rewrite <- Hp. apply methodName_of_string.
  now apply operationId_of_truthy with (declared := JStr (String c rest)).
Qed.

(** The operationId [listUsers] under [get]. *)
Lemma pascalCase_capitalises_identifier_witness :
  methodName_of "/users" "get" (JObj [("operationId", JStr "listUsers")])
  = Normal "getListUsers".
Proof.
  exact (proj2 (pascalCase_capitalises_identifier
                  "/users" "get" (JObj [("operationId", JStr "listUsers")])
                  "l"%char "istUsers" eq_refl eq_refl)).
Defined.

(** ** Path parameters of any template *)

Lemma not_close_plus_close_sound (s run rest : string) :
  Regex.not_close_plus_close s = Some (run, rest) ->
  s = run +:+ "}" +:+ rest /\ is_token run = true.
Proof.
  revert run rest. induction s as [|c s IH]; intros run rest H; [discriminate |].
  cbn [Regex.not_close_plus_close] in H.
  destruct (Ascii.eqb c "}") eqn:Hc; [discriminate |].
  destruct (Regex.not_close_plus_close s) as [[run' rest']|] eqn:Hs.
  - injection H as <- <-. destruct (IH run' rest' eq_refl) as [-> Htok].
    split; [reflexivity |]. unfold is_token in *. simpl.
    apply andb_prop in Htok as [_ Htok]. now rewrite Hc, Htok.
  - destruct s as [|d s]; [discriminate |].
    destruct (Ascii.eqb d "}") eqn:Hd; [| discriminate].
    injection H as <- <-. apply Ascii.eqb_eq in Hd. subst d.
    split; [reflexivity |]. unfold is_token. simpl. now rewrite Hc.
Qed.

Lemma brace_token_sound (t whole group : string) :
  Regex.brace_token t = Some (whole, group) ->
  whole = "{" +:+ group +:+ "}" /\ is_token group = true
  /\ exists post, t = whole +:+ post.
Proof.
  unfold Regex.brace_token. destruct t as [|c t]; [discriminate |].
  destruct (Ascii.eqb c "{") eqn:Hc; [| discriminate].
  destruct (Regex.not_close_plus_close t) as [[run rest]|] eqn:Ht; [| discriminate].
  intros [= <- <-]. apply Ascii.eqb_eq in Hc. subst c.
  destruct (not_close_plus_close_sound _ _ _ Ht) as [-> Htok].
  split_all; [reflexivity | exact Htok |]. exists rest.
  now rewrite !append_String, !append_empty_l, append_assoc.
Qed.

Lemma scan_hit_occurs (m : string -> option (string * string)) :
  (forall t whole group, m t = Some (whole, group) -> exists post, t = whole +:+ post) ->
  forall s skip whole group,
    In (Regex.Hit whole group) (Regex.scan m skip s) ->
    exists pre post t, s = pre +:+ whole +:+ post /\ m t = Some (whole, group).
Proof.
  intros Hsound s. induction s as [|c s IH]; intros skip whole group Hin; [destruct Hin |].
  assert (Hrest : forall k, In (Regex.Hit whole group) (Regex.scan m k s) ->
                            exists pre post t,
                              String c s = pre +:+ whole +:+ post /\ m t = Some (whole, group)).
  { intros k Hk. destruct (IH k whole group Hk) as (pre & post & t & -> & Ht).
    exists (String c pre), post, t. split; [reflexivity | exact Ht]. }
  cbn [Regex.scan] in Hin. destruct skip as [|k]; [| exact (Hrest k Hin)].
  destruct (m (String c s)) as [[w g]|] eqn:Hm.
  - destruct Hin as [[= <- <-] | Hin]; [| exact (Hrest _ Hin)].
    destruct (Hsound _ _ _ Hm) as [post Hpost].
    exists "", post, (String c s). split; [exact Hpost | exact Hm].
  - destruct Hin as [[=] | Hin]. exact (Hrest 0 Hin).
Qed.

Lemma In_hits (pieces : list Regex.piece) (w : string) :
  In w (omap (fun p => match p with Regex.Hit w _ => Some w | Regex.Lit _ => None end)
             pieces)
  -> exists g, In (Regex.Hit w g) pieces.
Proof.
  induction pieces as [|[c|w' g'] pieces IH]; cbn; [easy | |].
  - intros H. destruct (IH H) as [g Hg]. exists g. now right.
  - intros [<- | H]; [exists g'; now left |].
    destruct (IH H) as [g Hg]. exists g. now right.
Qed.

(** X4: whatever the path template, every extracted path parameter is
    non-empty, has no closing brace, and occurs in the template between
    braces, so the [replace] line generated for it finds its token. *)
Theorem path_parameter_occurs (pathTemplate param : string) :
  In param (extractPathParameters pathTemplate) ->
  is_token param = true
  /\ exists pre post, pathTemplate = pre +:+ "{" +:+ param +:+ "}" +:+ post.
Proof.
  unfold extractPathParameters, Regex.match_all. intros H.
  assert (Hw : exists whole,
             In whole (omap (fun p => match p with
                                      | Regex.Hit w _ => Some w
                                      | Regex.Lit _ => None
                                      end)
                            (Regex.scan Regex.brace_token 0 pathTemplate))
             /\ param = Str.slice_1_m1 whole).
  { destruct (omap _ _) as [|w ws]; [destruct H |].
    apply in_map_iff in H as (whole & <- & Hin). now exists whole. }
  destruct Hw as (whole & Hin & ->). apply In_hits in Hin as [group Hin].
  destruct (scan_hit_occurs Regex.brace_token) with (s := pathTemplate) (skip := 0)
    (whole := whole) (group := group) as (pre & post & t & -> & Ht);
    [| exact Hin |].
  - intros t w g Hm. now destruct (brace_token_sound _ _ _ Hm) as (_ & _ & Hpost).
  - destruct (brace_token_sound _ _ _ Ht) as (-> & Htok & _).
    rewrite slice_braces. split; [exact Htok |]. exists pre, post.
    now rewrite !append_assoc.
Qed.

(** The parameter [id] of [/users/{id}/posts]. *)
Lemma path_parameter_occurs_witness :
  is_token "id" = true
  /\ exists pre post, "/users/{id}/posts" = pre +:+ "{" +:+ "id" +:+ "}" +:+ post.
Proof.
  apply (path_parameter_occurs "/users/{id}/posts" "id"). simpl. tauto.
Defined.

Lemma derived_identifier_literals segments1 segments2 tail :
  List.map fst segments1 = List.map fst segments2 ->
  derived_identifier segments1 tail = derived_identifier segments2 tail.
Proof.
  revert segments2. induction segments1 as [|[lit1 tok1] rest1 IH];
    intros [|[lit2 tok2] rest2]; try discriminate; [reflexivity |].
  simpl. intros [= -> Hrest]. now rewrite (IH rest2 Hrest).
Qed.

(** X5: the derived identifier does not depend on the names of the tokens
    nor on the method: two templates with the same literal text around their
    tokens derive the same identifier, so [/users/{id}] and [/users/{name}]
    under one method give the same method name. *)
Theorem derived_identifier_ignores_token_names
        (method1 method2 : string) (segments1 segments2 : list (string * string))
        (tail : string) :
  well_formed segments1 tail = true -> well_formed segments2 tail = true ->
  List.map fst segments1 = List.map fst segments2 ->
  generateOperationId method1 (template segments1 tail)
  = generateOperationId method2 (template segments2 tail)
  /\ methodName_of (template segments1 tail) method1 (JObj [])
     = methodName_of (template segments2 tail) method1 (JObj []).
Proof.
  intros H1 H2 Hlits.
  assert (H : forall m1 m2, generateOperationId m1 (template segments1 tail)
                            = generateOperationId m2 (template segments2 tail)).
  { intros m1 m2. rewrite !generateOperationId_template by assumption.
    now apply derived_identifier_literals. }
  split; [apply H |].
  unfold methodName_of, operationId_of. simpl. now rewrite (H method1 method1).
Qed.

(** [/users/{id}] and [/users/{name}] under [get]. *)
Lemma derived_identifier_ignores_token_names_witness :
  methodName_of "/users/{id}" "get" (JObj []) = methodName_of "/users/{name}" "get" (JObj []).
Proof.
  exact (proj2 (derived_identifier_ignores_token_names
                  "get" "get" [("/users/", "id")] [("/users/", "name")] ""
                  eq_refl eq_refl eq_refl)).
Defined.

(** ** Declarations without properties *)

(** X6: a schema without [enum], [allOf] and [properties] is emitted as an
    empty interface without imports, whatever its [type] says: a named array
    or string schema loses its type. *)
Theorem schema_without_properties_is_empty_interface
        (name : string) (schema all enum allOf props required : JsVal) :
  Js.get schema "enum" = Normal enum -> Js.truthy enum = false ->
  Js.get schema "allOf" = Normal allOf -> Js.truthy allOf = false ->
  Js.get schema "properties" = Normal props -> Js.truthy props = false ->
  Js.get schema "required" = Normal required ->
  is_normal (Js.array_elems (Js.or required (JArr []))) = true ->
  generateDTOType name schema all
  = Normal ("export interface " +:+ name +:+ " {" +:+ LF +:+ "}" +:+ LF).
Proof.
  intros Henum He HallOf Ha Hprops Hp Hrequired Hr.
  unfold generateDTOType, dto_collect. rewrite Henum. simpl. rewrite He.
  rewrite Hrequired. simpl.
  destruct (Js.array_elems (Js.or required (JArr []))) as [rs|] eqn:Hrs; [| discriminate].
  assert (Hit : Js.iterate (Js.or required (JArr [])) = Normal rs).
  { destruct (Js.or required (JArr [])); try discriminate. exact Hrs. }
  rewrite Hit. simpl. rewrite HallOf. simpl. rewrite Ha, Hprops. simpl.
  replace (Js.or props (JObj [])) with (JObj []) by (unfold Js.or; now rewrite Hp).
  simpl. now rewrite !append_assoc.
Qed.

(** The schema [Pets: { type: array, items: { $ref: Pet } }]. *)
Lemma schema_without_properties_witness :
  generateDTOType "Pets" (JObj [("type", JStr "array"); ("items", ref_to "Pet")]) (JObj [])
  = Normal ("export interface Pets {" +:+ LF +:+ "}" +:+ LF).
Proof.
  exact (schema_without_properties_is_empty_interface
           "Pets" (JObj [("type", JStr "array"); ("items", ref_to "Pet")]) (JObj [])
           JUndefined JUndefined JUndefined JUndefined
           eq_refl eq_refl eq_refl eq_refl eq_refl eq_refl eq_refl eq_refl).
Defined.

(** X7: for an enum whose literals are strings, booleans and integers of at
    most [2^53 - 1] in absolute value, the file is the single alias line: the
    literals in declared order joined by [|], strings between single quotes,
    integers in decimal notation, booleans as [true] and [false]; an empty
    list gives an alias without members. *)
Theorem enum_alias_of_scalars (name : string) (schema all : JsVal) (values : list JsVal) :
  Js.get schema "enum" = Normal (JArr values) ->
  forallb plain_literal values = true ->
  generateDTOType name schema all
  = Normal ("export type " +:+ name +:+ " = "
            +:+ Str.join " | " (List.map literal_text values) +:+ ";" +:+ LF).
Proof.
  intros Henum Hplain.
  assert (Hscalar : forallb is_scalar values = true).
  { apply forallb_forall. intros v Hv.
    apply (proj1 (forallb_forall _ _) Hplain) in Hv. now destruct v. }
  unfold generateDTOType. rewrite Henum. simpl.
  unfold enum_union. simpl. now rewrite (join_literals values Hscalar).
Qed.

(** The enum [['on', 'off', 3, true]]. *)
Lemma enum_alias_of_scalars_witness :
  generateDTOType "Mode"
                  (JObj [("enum", JArr [JStr "on"; JStr "off"; JNum 3; JBool true])])
                  (JObj [])
  = Normal ("export type Mode = 'on' | 'off' | 3 | true;" +:+ LF).
Proof.
  exact (enum_alias_of_scalars
           "Mode" (JObj [("enum", JArr [JStr "on"; JStr "off"; JNum 3; JBool true])])
           (JObj []) _ eq_refl eq_refl).
Defined.

(** ** What a run writes *)

Lemma throw_TypeError {A : Type} (c : completion A) :
  is_normal c = false -> c = Throw TypeError.
Proof. destruct c as [a|[]]; [discriminate | reflexivity]. Qed.

Lemma mapM_In_throws {A B : Type} (f : A -> completion B) (xs : list A) (x : A) :
  In x xs -> is_normal (f x) = false -> is_normal (mapM f xs) = false.
Proof.
  induction xs as [|y xs IH]; intros Hin Hx; [destruct Hin |].
  cbn [mapM]. destruct Hin as [-> | Hin].
  - destruct (f x); [discriminate | reflexivity].
  - destruct (f y); [| reflexivity]. simpl.
    specialize (IH Hin Hx). destruct (mapM f xs); [discriminate | reflexivity].
Qed.

Lemma entries_schemas_of document :
  Js.entries (schemas_of document) = Normal (Js.own_entries (schemas_of document)).
Proof.
  unfold schemas_of, Js.or.
  destruct (Js.truthy (Js.get_opt (Js.get_opt document "components") "schemas")) eqn:Ht;
    [| reflexivity].
  destruct (Js.get_opt (Js.get_opt document "components") "schemas");
    try discriminate; reflexivity.
Qed.

Section Runs.

Variable path_join : string -> string -> string.

Lemma generateDTOs_loop_all entries schemas dtoDir dtoExports (fs : gmap string string) :
  forallb (fun entry => is_normal (generateDTOType (fst entry) (snd entry) schemas))
          entries = true ->
  fst (generateDTOs_loop path_join entries schemas dtoDir dtoExports fs)
  = Normal (dtoExports ++ List.map (fun entry => export_line (fst entry)) entries).
Proof.
  revert dtoExports fs. induction entries as [|[schemaName schema] rest IH];
    intros dtoExports fs H.
  - simpl. now rewrite app_nil_r.
  - simpl in H. apply andb_prop in H as [Hfirst H]. cbn [generateDTOs_loop].
    destruct (generateDTOType schemaName schema schemas); [| discriminate].
    rewrite (IH _ _ H), <- app_assoc. reflexivity.
Qed.

Lemma generateForFile_succeeds file (fs : gmap string string) :
  fst (generateForFile path_join file fs) = Normal tt ->
  exists content ws,
    forall fs', generateForFile path_join file fs'
                = (Normal tt,
                   <[client_path path_join (dirname file) := content]> (apply_writes ws fs')).
Proof.
  unfold generateForFile, client_path.
  destruct (bind (loaded file) _) as [[[spec baseUrl] components]|e]; [| discriminate].
  set (allSchemas := Js.or (Js.get_opt components "schemas") (JObj [])).
  set (dtoDir := path_join (path_join (dirname file) "generated") "models").
  assert (Hdtos : exists outcome ws,
             forall fs', match Js.own_entries allSchemas with
                         | [] => (Normal tt, fs')
                         | _ => generateDTOs path_join allSchemas dtoDir fs'
                         end = (outcome, apply_writes ws fs')).
  { destruct (Js.own_entries allSchemas).
    - exists (Normal tt), []. reflexivity.
    - apply generateDTOs_writes. }
  destruct Hdtos as (outcome & ws & Hws). rewrite Hws.
  destruct outcome as [[]|e]; [| discriminate].
  unfold generateClientClass, writeFile. cbn [className].
  destruct (clientContent_of _) as [content|e]; [| discriminate].
  intros _. exists content, ws. intros fs'. now rewrite Hws.
Qed.

Lemma generateDTOs_loop_names dir entries schemas dtoExports :
  exists outcome ws,
    (forall fs, generateDTOs_loop path_join entries schemas (models_dir path_join dir)
                                  dtoExports fs
                = (outcome, apply_writes ws fs))
    /\ Forall (fun w => exists n,
                   In n (List.map fst entries)
                   /\ fst w = path_join (models_dir path_join dir) (n +:+ ".ts"))
              ws.
Proof.
  revert dtoExports. induction entries as [|[schemaName schema] rest IH]; intros dtoExports.
  - exists (Normal dtoExports), []. split; [reflexivity | constructor].
  - cbn [generateDTOs_loop].
    destruct (generateDTOType schemaName schema schemas) as [dtoContent|e].
    + destruct (IH (dtoExports ++ [export_line schemaName])) as (outcome & ws & Hws & Hpaths).
      exists outcome,
        ((path_join (models_dir path_join dir) (schemaName +:+ ".ts"), dtoContent) :: ws).
      split; [intros fs; now rewrite Hws |]. constructor.
      * exists schemaName. split; [now left | reflexivity].
      * eapply Forall_impl; [exact Hpaths |]. intros w (n & Hn & Hw).
        exists n. split; [now right | exact Hw].
    + exists (Throw e), []. split; [reflexivity | constructor].
Qed.

(** A run that throws has written DTO files and, at most, the index file. *)
Lemma generateForFile_throws_names file (fs : gmap string string) :
  valid_names file = true ->
  fst (generateForFile path_join file fs) <> Normal tt ->
  exists ws,
    (forall fs', snd (generateForFile path_join file fs') = apply_writes ws fs')
    /\ Forall (fun w => exists n,
                   component_key n = true
                   /\ fst w = path_join (models_dir path_join (dirname file)) (n +:+ ".ts"))
              ws.
Proof.
  unfold valid_names, generateForFile.
  destruct (loaded file) as [document|e]; cbn [bind];
    [| intros _ _; exists []; split; [reflexivity | constructor]].
  destruct (baseUrl_of document) as [base|e]; cbn [bind];
    [| intros _ _; exists []; split; [reflexivity | constructor]].
  destruct (Js.get document "components") as [components|e] eqn:Hcomponents; cbn [bind];
    [| intros _ _; exists []; split; [reflexivity | constructor]].
  apply get_get_opt in Hcomponents. subst components.
  change (Js.or (Js.get_opt (Js.get_opt document "components") "schemas") (JObj []))
    with (schemas_of document).
  change (path_join (path_join (dirname file) "generated") "models")
    with (models_dir path_join (dirname file)).
  intros Hvalid.
  assert (Hkeys : forall n, In n (List.map fst (Js.own_entries (schemas_of document))) ->
                            component_key n = true)
    by (apply forallb_forall; exact Hvalid).
  unfold generateClientClass, writeFile. cbn [className].
  destruct (Js.own_entries (schemas_of document)) as [|entry entries] eqn:Hentries.
  - destruct (clientContent_of _) as [content|e]; [easy |].
    intros _. exists []. split; [reflexivity | constructor].
  - unfold generateDTOs. rewrite entries_schemas_of, Hentries.
    destruct (generateDTOs_loop_names (dirname file) (entry :: entries)
                                      (schemas_of document) [])
      as (outcome & ws & Hws & Hpaths).
    assert (Hnames : Forall (fun w => exists n,
                                component_key n = true
                                /\ fst w = path_join (models_dir path_join (dirname file))
                                                     (n +:+ ".ts")) ws).
    { eapply Forall_impl; [exact Hpaths |]. intros w (n & Hn & Hw).
      exists n. split; [now apply Hkeys | exact Hw]. }
    rewrite Hws. destruct outcome as [exports|e].
    + unfold writeFile. destruct (clientContent_of _) as [content|e]; [easy |].
      intros _.
      exists (ws ++ [(path_join (models_dir path_join (dirname file)) "index.ts",
                      Str.join LF exports +:+ LF)]).
      split; [intros fs'; rewrite Hws, apply_writes_app; reflexivity |].
      apply Forall_app. split; [exact Hnames |]. constructor; [| constructor].
      exists "index". split; reflexivity.
    + intros _. exists ws. split; [intros fs'; now rewrite Hws | exact Hnames].
Qed.

End Runs.

(** X8: for schemas within the fragment of the model whose names are valid
    component keys, when [generateDTOType] returns for every schema,
    [generateDTOs] returns and the index file holds one export line per
    schema, in document order, each followed by a line feed; this is what the
    path of the index file holds even when a schema is itself called
    [index]. *)
Theorem index_file_lists_every_schema
        (path_join : string -> string -> string) (schemas : JsVal) (dtoDir : string)
        (fs : gmap string string) (entries : list (string * JsVal)) :
  Js.entries schemas = Normal entries ->
  representable schemas = true ->
  forallb component_key (List.map fst entries) = true ->
  forallb (fun entry => is_normal (generateDTOType (fst entry) (snd entry) schemas))
          entries = true ->
  fst (generateDTOs path_join schemas dtoDir fs) = Normal tt
  /\ snd (generateDTOs path_join schemas dtoDir fs) !! path_join dtoDir "index.ts"
     = Some (Str.join LF (List.map (fun entry => export_line (fst entry)) entries) +:+ LF).
Proof.
  intros Hentries _ _ Hall. unfold generateDTOs. rewrite Hentries.
  pose proof (generateDTOs_loop_all path_join entries schemas dtoDir [] fs Hall) as Hloop.
  destruct (generateDTOs_loop path_join entries schemas dtoDir [] fs) as [outcome fs'].
  simpl in Hloop. subst outcome. simpl. split; [reflexivity |].
  unfold writeFile. apply lookup_insert_eq.
Qed.

(** Two schemas, the first one called [index]. *)
Lemma index_file_lists_every_schema_witness :
  snd (generateDTOs slash_join (JObj [("index", string_schema); ("User", user_schema)])
                    "models" ∅)
  !! "models/index.ts"
  = Some ("export type { index } from './index';" +:+ LF
          +:+ "export type { User } from './User';" +:+ LF).
Proof.
  exact (proj2 (index_file_lists_every_schema
                  slash_join (JObj [("index", string_schema); ("User", user_schema)])
                  "models" ∅ _ eq_refl eq_refl eq_refl eq_refl)).
Defined.

(** X9: for a document without schemas nothing is written under [models]:
    the run writes the client file and nothing else. *)
Theorem document_without_schemas_writes_client_only
        (path_join : string -> string -> string) (file : SpecFile)
        (fs : gmap string string) (spec base components : JsVal) (content : string) :
  loaded file = Normal spec ->
  baseUrl_of spec = Normal base ->
  Js.get spec "components" = Normal components ->
  Js.own_entries (Js.or (Js.get_opt components "schemas") (JObj [])) = [] ->
  clientContent_of {| fileName := basename file;
                      className := pascalCase (basename file) +:+ "Client";
                      baseUrl := base; spec := spec |} = Normal content ->
  generateForFile path_join file fs
  = (Normal tt, <[client_path path_join (dirname file) := content]> fs).
Proof.
  intros Hloaded Hbase Hcomponents Hempty Hcontent.
  unfold generateForFile, generateClientClass, writeFile, client_path.
  rewrite Hloaded. simpl. rewrite Hbase. simpl. rewrite Hcomponents. simpl.
  rewrite Hempty, Hcontent. reflexivity.
Qed.

(** A document with one path and no [components]. *)
Lemma document_without_schemas_witness :
  exists content,
    generateForFile slash_join
                    {| dirname := "api"; basename := "users";
                       loaded := Normal (JObj [("paths", JObj [("/users", JObj [("get", JObj [])])])]) |}
                    ∅
    = (Normal tt, {[ "api/generated/openApi.ts" := content ]}).
Proof.
  eexists.
  refine (document_without_schemas_writes_client_only
            slash_join
            {| dirname := "api"; basename := "users";
               loaded := Normal (JObj [("paths", JObj [("/users", JObj [("get", JObj [])])])]) |}
            ∅ _ _ _ _ eq_refl eq_refl eq_refl eq_refl _).
  vm_compute. reflexivity.
Defined.

(** X10: the client file is always called [openApi.ts], so of two documents
    in one directory (the later one within the fragment of the model, its
    schema names being valid component keys, whose files are not the client
    file) the later one, when its run succeeds, replaces the client of the
    earlier one: after the run the file is the one the later document alone
    would give.  When the run of the later document throws, the client file
    is as the run of the earlier document left it. *)
Theorem later_document_replaces_client
        (path_join : string -> string -> string) (first later : SpecFile)
        (fs : gmap string string) :
  dirname first = dirname later ->
  in_fragment later = true ->
  (forall n, component_key n = true ->
             path_join (models_dir path_join (dirname later)) (n +:+ ".ts")
             <> client_path path_join (dirname later)) ->
  (fst (generateForFile path_join later fs) = Normal tt ->
   exists content,
     generateFromOpenAPIFiles path_join [first; later] fs
     !! client_path path_join (dirname first) = Some content
     /\ generateFromOpenAPIFiles path_join [later] fs
        !! client_path path_join (dirname first) = Some content)
  /\ (fst (generateForFile path_join later fs) <> Normal tt ->
      generateFromOpenAPIFiles path_join [first; later] fs
      !! client_path path_join (dirname first)
      = generateFromOpenAPIFiles path_join [first] fs
        !! client_path path_join (dirname first)).
Proof.
  intros Hdir Hfragment Hclient.
  assert (Hvalid : valid_names later = true).
  { unfold in_fragment in Hfragment. apply andb_prop in Hfragment as [Hfragment _].
    now apply andb_prop in Hfragment as [_ Hfragment]. }
  split.
  - intros Hok.
    destruct (generateForFile_succeeds path_join later fs Hok) as (content & ws & Hlater).
    exists content. cbn [generateFromOpenAPIFiles]. rewrite !Hlater, Hdir. simpl.
    split; apply lookup_insert_eq.
  - intros Hthrows.
    destruct (generateForFile_throws_names path_join later fs Hvalid Hthrows)
      as (ws & Hws & Hpaths).
    cbn [generateFromOpenAPIFiles]. rewrite Hws, Hdir.
    rewrite lookup_apply_writes, written_none; [reflexivity |].
    eapply Forall_impl; [exact Hpaths |]. intros w (n & Hn & Hw). rewrite Hw.
    now apply Hclient.
Qed.

(** Two documents in the directory [api]: the client of the first is
    replaced by that of the second. *)
Lemma later_document_replaces_client_witness :
  generateFromOpenAPIFiles
    slash_join
    [{| dirname := "api"; basename := "users";
        loaded := Normal (JObj [("paths", JObj [("/users", JObj [("get", JObj [])])])]) |};
     {| dirname := "api"; basename := "orders";
        loaded := Normal (JObj [("paths", JObj [])]) |}] ∅
  !! "api/generated/openApi.ts"
  = generateFromOpenAPIFiles
      slash_join
      [{| dirname := "api"; basename := "orders";
          loaded := Normal (JObj [("paths", JObj [])]) |}] ∅
    !! "api/generated/openApi.ts".
Proof.
  assert (Hclient : forall n,
             component_key n = true ->
             slash_join (models_dir slash_join "api") (n +:+ ".ts")
             <> client_path slash_join "api").
  { intros n _. vm_compute. discriminate. }
  destruct (proj1 (later_document_replaces_client
                     slash_join
                     {| dirname := "api"; basename := "users";
                        loaded := Normal (JObj [("paths",
                                                 JObj [("/users", JObj [("get", JObj [])])])]) |}
                     {| dirname := "api"; basename := "orders";
                        loaded := Normal (JObj [("paths", JObj [])]) |}
                     ∅ eq_refl eq_refl Hclient) eq_refl) as (content & H1 & H2).
  exact (eq_trans H1 (eq_sym H2)).
Defined.

(** ** Documents on which the client cannot be generated *)

Lemma clientContent_of_throws_without_paths fileInfo paths :
  Js.get (spec fileInfo) "paths" = Normal paths ->
  is_normal (Js.entries paths) = false ->
  is_normal (clientContent_of fileInfo) = false.
Proof.
  intros Hpaths Hentries. unfold clientContent_of, client_methods.
  destruct (Js.ToString (baseUrl fileInfo)); [| reflexivity]. simpl.
  rewrite Hpaths. simpl. destruct (Js.entries paths); [discriminate | reflexivity].
Qed.

(** X11: for a document without [paths] the client cannot be generated: the
    run of the document ends with a TypeError and writes no client file, yet
    the DTO files and the index file of its schemas are written before. *)
Theorem document_without_paths_keeps_dtos_only
        (path_join : string -> string -> string) (file : SpecFile)
        (fs : gmap string string) (document paths : JsVal) :
  loaded file = Normal document ->
  Js.get document "paths" = Normal paths ->
  is_normal (Js.entries paths) = false ->
  fst (generateForFile path_join file fs) = Throw TypeError
  /\ snd (generateForFile path_join file fs)
     = match Js.own_entries
               (Js.or (Js.get_opt (Js.get_opt document "components") "schemas") (JObj [])) with
       | [] => fs
       | _ => snd (generateDTOs
                     path_join
                     (Js.or (Js.get_opt (Js.get_opt document "components") "schemas") (JObj []))
                     (path_join (path_join (dirname file) "generated") "models") fs)
       end.
Proof.
  intros Hloaded Hpaths Hentries. unfold generateForFile. rewrite Hloaded. cbn [bind].
  assert (Hservers : exists b, baseUrl_of document = Normal b).
  { unfold baseUrl_of. destruct document; try discriminate; simpl; eauto. }
  destruct Hservers as [b ->]. cbn [bind].
  assert (Hcomponents : Js.get document "components" = Normal (Js.get_opt document "components")).
  { destruct document; try discriminate; reflexivity. }
  rewrite Hcomponents. cbn [bind].
  set (allSchemas := Js.or (Js.get_opt (Js.get_opt document "components") "schemas") (JObj [])).
  set (dtoDir := path_join (path_join (dirname file) "generated") "models").
  assert (Hclient : forall fs' info dir override,
             document = spec info ->
             generateClientClass path_join info dir override fs' = (Throw TypeError, fs')).
  { intros fs' info dir override ->. unfold generateClientClass.
    rewrite (throw_TypeError _ (clientContent_of_throws_without_paths info paths
                                                                      Hpaths Hentries)).
    reflexivity. }
  destruct (Js.own_entries allSchemas) as [|entry entries].
  - rewrite Hclient by reflexivity. split; reflexivity.
  - destruct (generateDTOs path_join allSchemas dtoDir fs) as [[[]|[]] fs'].
    + rewrite Hclient by reflexivity. split; reflexivity.
    + split; reflexivity.
Qed.

(** A document with the schema [User] and no [paths]. *)
Lemma document_without_paths_witness :
  exists dto,
    generateForFile slash_join
                    {| dirname := "api"; basename := "users";
                       loaded := Normal (JObj [("components",
                                               JObj [("schemas",
                                                      JObj [("User", user_schema)])])]) |}
                    ∅
    = (Throw TypeError,
       {[ "api/generated/models/User.ts" := dto;
          "api/generated/models/index.ts" := "export type { User } from './User';" +:+ LF ]}).
Proof.
  eexists.
  pose proof (document_without_paths_keeps_dtos_only
                slash_join
                {| dirname := "api"; basename := "users";
                   loaded := Normal (JObj [("components",
                                           JObj [("schemas",
                                                  JObj [("User", user_schema)])])]) |}
                ∅ _ JUndefined eq_refl eq_refl eq_refl) as [Hfst Hsnd].
  rewrite (surjective_pairing (generateForFile _ _ _)), Hfst, Hsnd.
  vm_compute. reflexivity.
Defined.

Lemma methodName_of_throws pathTemplate method operation :
  operation = JNull
  \/ (exists declared, Js.get operation "operationId" = Normal declared
                       /\ Js.truthy declared = true
                       /\ forall s, declared <> JStr s) ->
  is_normal (methodName_of pathTemplate method operation) = false.
Proof.
  unfold methodName_of, operationId_of. intros [-> | (declared & -> & Ht & Hs)];
    [reflexivity |].
  simpl. unfold Js.or. rewrite Ht.
  destruct declared; try reflexivity. now destruct (Hs s).
Qed.

(** X12: one operation that is [null], or whose operationId is neither
    absent nor a string, under an accepted method key, is enough for the
    client file of the whole document not to be written. *)
Theorem throwing_operation_loses_client
        (path_join : string -> string -> string) (fileInfo : GeneratedFile)
        (clientsDir : string) (fileNameOverride : option string)
        (fs : gmap string string) (paths pathItem operation : JsVal)
        (pathTemplate method : string) :
  Js.get (spec fileInfo) "paths" = Normal paths ->
  In (pathTemplate, pathItem) (Js.own_entries paths) ->
  In (method, operation) (Js.own_entries pathItem) ->
  accepted_method method = true ->
  operation = JNull
  \/ (exists declared, Js.get operation "operationId" = Normal declared
                       /\ Js.truthy declared = true
                       /\ forall s, declared <> JStr s) ->
  generateClientClass path_join fileInfo clientsDir fileNameOverride fs
  = (Throw TypeError, fs).
Proof.
  intros Hpaths Hitem Hop Hacc Hbad. unfold generateClientClass.
  assert (H : is_normal (clientContent_of fileInfo) = false).
  { unfold clientContent_of, client_methods.
    destruct (Js.ToString (baseUrl fileInfo)); [| reflexivity]. simpl.
    rewrite Hpaths. simpl.
    assert (Js.entries paths = Normal (Js.own_entries paths)) as ->
        by (destruct paths; try reflexivity; destruct Hitem).
    simpl.
    assert (Hmap : is_normal
                     (mapM (fun '(pathTemplate, pathItem) =>
                              pathItem_methods pathTemplate pathItem)
                           (Js.own_entries paths)) = false).
    { apply mapM_In_throws with (x := (pathTemplate, pathItem)); [exact Hitem |].
      unfold pathItem_methods.
      assert (Js.entries pathItem = Normal (Js.own_entries pathItem)) as ->
          by (destruct pathItem; try reflexivity; destruct Hop).
      simpl.
      assert (Hops : is_normal
                       (mapM (fun '(method, operation) =>
                                generateMethod pathTemplate method operation)
                             (Js.own_entries pathItem)) = false).
      { apply mapM_In_throws with (x := (method, operation)); [exact Hop |].
        unfold generateMethod. rewrite Hacc. simpl.
        pose proof (methodName_of_throws pathTemplate method operation Hbad) as Hname.
        destruct (methodName_of pathTemplate method operation); [discriminate | reflexivity]. }
      destruct (mapM _ (Js.own_entries pathItem)); [discriminate | reflexivity]. }
    destruct (mapM _ (Js.own_entries paths)); [discriminate | reflexivity]. }
  now rewrite (throw_TypeError _ H).
Qed.

(** A document whose second operation is [null]. *)
Lemma throwing_operation_loses_client_witness :
  generateClientClass
    slash_join
    {| fileName := "users"; className := "UsersClient"; baseUrl := JStr "";
       spec := JObj [("paths", JObj [("/users", JObj [("get", JObj []); ("post", JNull)])])] |}
    "api/generated" (Some "openApi.ts") ∅
  = (Throw TypeError, ∅).
Proof.
  refine (throwing_operation_loses_client
            slash_join
            {| fileName := "users"; className := "UsersClient"; baseUrl := JStr "";
               spec := JObj [("paths",
                              JObj [("/users", JObj [("get", JObj []); ("post", JNull)])])] |}
            "api/generated" (Some "openApi.ts") ∅
            (JObj [("/users", JObj [("get", JObj []); ("post", JNull)])])
            (JObj [("get", JObj []); ("post", JNull)]) JNull "/users" "post"
            eq_refl _ _ eq_refl (or_introl eq_refl)); simpl; tauto.
Defined.

(** X13: for an accepted method key, an operation without parameters whose
    operationId, summary and description are strings where present always
    yields a method, whatever the path template. *)
Theorem plain_operation_yields_method
        (pathTemplate method : string) (props : list (string * JsVal)) :
  accepted_method method = true ->
  plain_operation props = true ->
  exists fullMethod,
    generateMethod pathTemplate method (JObj props) = Normal (Some fullMethod).
Proof.
  unfold plain_operation, absent_or_string, Js.has_key. intros Hacc H.
  apply andb_prop in H as [H Hdescription]. apply andb_prop in H as [H Hsummary].
  apply andb_prop in H as [Hparameters HoperationId].
  unfold generateMethod, methodName_of, operationId_of, extractQueryParameters,
    jsdoc_of, methodSignature_of, Js.get, Js.or.
  rewrite Hacc. cbn [negb].
  destruct (Js.lookup props "parameters"); [discriminate |].
  destruct (Js.lookup props "operationId") as [[| | | |id| |]|]; try discriminate;
    destruct (Js.lookup props "summary") as [[| | | |summary| |]|]; try discriminate;
    destruct (Js.lookup props "description") as [[| | | |description| |]|];
    try discriminate; cbn;
    repeat match goal with
           | |- context [negb (String.eqb ?s "")] => destruct (negb (String.eqb s "")); cbn
           end;
    eexists; reflexivity.
Qed.

(** The empty operation under [GET] for the path [/a/{b}]. *)
Lemma plain_operation_yields_method_witness :
  exists fullMethod, generateMethod "/a/{b}" "GET" (JObj []) = Normal (Some fullMethod).
Proof.
  exact (plain_operation_yields_method "/a/{b}" "GET" [] eq_refl eq_refl).
Defined.

(** ** Merged properties *)

Lemma lookup_replace k v props key :
  Js.has_key props k = true ->
  Js.lookup (Obj.replace k v props) key
  = if String.eqb k key then Some v else Js.lookup props key.
Proof.
  unfold Js.has_key. induction props as [|[k' v'] rest IH]; simpl; [discriminate |].
  destruct (String.eqb k' k) eqn:Hk; simpl.
  - apply String.eqb_eq in Hk. subst k'. intros _.
    destruct (String.eqb k key); reflexivity.
  - intros H. rewrite (IH H). destruct (String.eqb k' key) eqn:Hk'; [| reflexivity].
    apply String.eqb_eq in Hk'. subst k'. rewrite String.eqb_sym in Hk. now rewrite Hk.
Qed.

Lemma lookup_insert_index i k v props key :
  Js.lookup props k = None ->
  Js.lookup (Obj.insert_index i k v props) key
  = if String.eqb k key then Some v else Js.lookup props key.
Proof.
  induction props as [|[k' v'] rest IH]; simpl; [reflexivity |].
  destruct (String.eqb k' k) eqn:Hk; [discriminate |]. intros Hnone.
  assert (Hhere : Js.lookup ((k, v) :: (k', v') :: rest) key
                  = if String.eqb k key then Some v
                    else if String.eqb k' key then Some v' else Js.lookup rest key)
    by reflexivity.
  destruct (Obj.array_index k') as [j|]; [destruct (j <? i)%N |]; try exact Hhere.
  simpl. rewrite (IH Hnone). destruct (String.eqb k' key) eqn:Hk'; [| reflexivity].
  apply String.eqb_eq in Hk'. subst k'. rewrite String.eqb_sym in Hk. now rewrite Hk.
Qed.

Lemma lookup_append k v props key :
  Js.lookup props k = None ->
  Js.lookup (props ++ [(k, v)]) key
  = if String.eqb k key then Some v else Js.lookup props key.
Proof.
  induction props as [|[k' v'] rest IH]; simpl; [reflexivity |].
  destruct (String.eqb k' k) eqn:Hk; [discriminate |]. intros Hnone.
  rewrite (IH Hnone). destruct (String.eqb k' key) eqn:Hk'; [| reflexivity].
  apply String.eqb_eq in Hk'. subst k'. rewrite String.eqb_sym in Hk. now rewrite Hk.
Qed.

Lemma lookup_set props k v key :
  k <> "__proto__" ->
  Js.lookup (Obj.set props k v) key
  = if String.eqb k key then Some v else Js.lookup props key.
Proof.
  intros Hproto. unfold Obj.set. apply String.eqb_neq in Hproto. rewrite Hproto.
  destruct (Js.has_key props k) eqn:Hk; [now apply lookup_replace |].
  assert (Js.lookup props k = None) as Hnone
      by (unfold Js.has_key in Hk; destruct (Js.lookup props k); [discriminate | reflexivity]).
  destruct (Obj.array_index k); [now apply lookup_insert_index | now apply lookup_append].
Qed.

Lemma NoDup_insert_index i k v props :
  ~ In k (List.map fst props) -> List.NoDup (List.map fst props) ->
  List.NoDup (List.map fst (Obj.insert_index i k v props)).
Proof.
  induction props as [|[k' v'] rest IH]; simpl; intros Hk Hnd.
  - constructor; [easy | constructor].
  - assert (Hhere : List.NoDup (k :: k' :: List.map fst rest))
      by (constructor; [exact Hk | exact Hnd]).
    destruct (Obj.array_index k') as [j|]; [destruct (j <? i)%N |]; try exact Hhere.
    simpl. inversion Hnd as [|? ? Hk' Hrest]; subst. constructor.
    + rewrite keys_insert_index. intros [-> | H]; [apply Hk; now left | now apply Hk'].
    + apply IH; [| exact Hrest]. intros H. apply Hk. now right.
Qed.

Lemma NoDup_snoc (k : string) (keys : list string) :
  ~ In k keys -> List.NoDup keys -> List.NoDup (keys ++ [k]).
Proof.
  induction keys as [|x keys IH]; simpl; intros Hk Hnd.
  - constructor; [easy | constructor].
  - inversion Hnd as [|? ? Hx Hrest]; subst. constructor.
    + rewrite in_app_iff. simpl. intros [H | [-> | []]]; [now apply Hx |].
      apply Hk. now left.
    + apply IH; [| exact Hrest]. intros H. apply Hk. now right.
Qed.

Lemma NoDup_set props k v :
  List.NoDup (List.map fst props) -> List.NoDup (List.map fst (Obj.set props k v)).
Proof.
  intros Hnd. unfold Obj.set. destruct (String.eqb k "__proto__"); [exact Hnd |].
  destruct (Js.has_key props k) eqn:Hk; [now rewrite keys_replace |].
  assert (~ In k (List.map fst props)) as Hnot by (rewrite <- has_key_In; congruence).
  destruct (Obj.array_index k); [now apply NoDup_insert_index |].
  rewrite List.map_app. simpl. now apply NoDup_snoc.
Qed.

Lemma NoDup_assign target source :
  List.NoDup (List.map fst target) ->
  List.NoDup (List.map fst (Obj.assign target source)).
Proof.
  unfold Obj.assign. generalize (Js.own_entries source) as entries. intros entries.
  revert target. induction entries as [|[k v] rest IH]; intros target Hnd; [exact Hnd |].
  simpl. apply IH. now apply NoDup_set.
Qed.

Lemma lookup_set_other props k v key :
  k <> key -> Js.lookup (Obj.set props k v) key = Js.lookup props key.
Proof.
  intros Hne. destruct (String.eqb k "__proto__") eqn:Hproto.
  - unfold Obj.set. now rewrite Hproto.
  - apply String.eqb_neq in Hproto. rewrite lookup_set by exact Hproto.
    apply String.eqb_neq in Hne. now rewrite Hne.
Qed.

Lemma lookup_assigned_later (entries : list (string * JsVal)) current k v :
  ~ In k (List.map fst entries) ->
  Js.lookup current k = Some v ->
  Js.lookup (fold_left (fun t kv => Obj.set t (fst kv) (snd kv)) entries current) k
  = Some v.
Proof.
  revert current. induction entries as [|[k2 v2] rest IH]; intros current Hk Hcur;
    [exact Hcur |].
  simpl in Hk |- *. apply IH; [tauto |].
  rewrite lookup_set_other; [exact Hcur | tauto].
Qed.

Lemma lookup_assign target source k v :
  k <> "__proto__" ->
  List.NoDup (List.map fst (Js.own_entries source)) ->
  In (k, v) (Js.own_entries source) ->
  Js.lookup (Obj.assign target source) k = Some v.
Proof.
  unfold Obj.assign. generalize (Js.own_entries source) as entries. intros entries Hproto.
  revert target. induction entries as [|[k' v'] rest IH]; intros target Hnd Hin;
    [destruct Hin |].
  simpl in Hnd. inversion Hnd as [|? ? Hk' Hrest]; subst. simpl.
  destruct Hin as [[= -> ->] | Hin]; [| now apply IH].
  apply lookup_assigned_later; [exact Hk' |].
  rewrite lookup_set by exact Hproto. now rewrite String.eqb_refl.
Qed.

Lemma allOf_part_distinct part st st' :
  allOf_part part st = Normal st' ->
  List.NoDup (List.map fst (props_of (properties st))) ->
  List.NoDup (List.map fst (props_of (properties st'))).
Proof.
  unfold allOf_part. intros H Hnd. bind_inv H as ref Href.
  destruct (Js.truthy ref).
  - bind_inv H as refName HrefName.
    destruct (negb (String.eqb refName "")); apply Normal_inj in H; now subst st'.
  - bind_inv H as type Htype. bind_inv H as partProperties HpartProperties.
    destruct (Js.is_str type "object" && Js.truthy partProperties).
    + bind_inv H as required Hrequired. bind_inv H as rs Hrs.
      apply Normal_inj in H. subst st'. simpl. now apply NoDup_assign.
    + apply Normal_inj in H. now subst st'.
Qed.

(** X14: the properties merged from the parts of [allOf] have distinct
    names, so the interface declares no field twice, however many parts
    declare the same property. *)
Theorem merged_properties_are_distinct (schema allOf : JsVal) (st : dto_vars) :
  Js.get schema "allOf" = Normal allOf -> Js.truthy allOf = true ->
  dto_collect schema = Normal st ->
  List.NoDup (List.map fst (Js.own_entries (properties st))).
Proof.
  unfold dto_collect. intros HallOf Ht H.
  bind_inv H as required Hrequired. bind_inv H as initial Hinitial.
  rewrite HallOf in H. simpl in H. rewrite Ht in H. bind_inv H as parts Hparts.
  assert (Hloop : forall st0,
             foldM allOf_part parts st0 = Normal st ->
             (exists merged, properties st0 = JObj merged) ->
             List.NoDup (List.map fst (props_of (properties st0))) ->
             List.NoDup (List.map fst (Js.own_entries (properties st)))).
  { clear. induction parts as [|part parts IH]; intros st0 H Hobj Hnd.
    - apply Normal_inj in H. subst st0. destruct Hobj as [merged Hm].
      rewrite Hm in Hnd |- *. exact Hnd.
    - cbn [foldM] in H. bind_inv H as st1 Hst1. apply (IH st1 H).
      + destruct (allOf_part_spec _ _ _ Hst1) as (_ & _ & _ & _ & merged & [Hm | Hm]);
          [now exists merged | rewrite Hm; exact Hobj].
      + now apply (allOf_part_distinct part st0). }
  apply (Hloop _ H); [now exists [] | constructor].
Qed.

(** Two inline parts that both declare [x]. *)
Lemma merged_properties_are_distinct_witness :
  List.NoDup ["x"; "y"]
  /\ dto_collect
       (JObj [("allOf",
               JArr [JObj [("type", JStr "object");
                           ("properties", JObj [("x", string_schema); ("y", string_schema)])];
                     JObj [("type", JStr "object");
                           ("properties", JObj [("x", ref_to "Pet")])]])])
     = Normal {| properties := JObj [("x", ref_to "Pet"); ("y", string_schema)];
                 requiredProps := []; usedRefs := []; inheritance := [] |}.
Proof.
  split; [| reflexivity].
  exact (merged_properties_are_distinct
           (JObj [("allOf",
                   JArr [JObj [("type", JStr "object");
                               ("properties",
                                JObj [("x", string_schema); ("y", string_schema)])];
                         JObj [("type", JStr "object");
                               ("properties", JObj [("x", ref_to "Pet")])]])])
           _ _ eq_refl eq_refl eq_refl).
Defined.

(** X15: after an inline part of [allOf] is processed, each of its
    properties (other than [__proto__]) is found among the merged properties
    with the schema this part gives it: a later part overrides an earlier
    one. *)
Theorem inline_part_overrides (part : JsVal) (st st' : dto_vars) (key : string)
        (prop : JsVal) :
  allOf_part part st = Normal st' ->
  is_inline_part part = true ->
  List.NoDup (List.map fst (Js.own_entries (Js.get_opt part "properties"))) ->
  In (key, prop) (Js.own_entries (Js.get_opt part "properties")) ->
  key <> "__proto__" ->
  Js.lookup (props_of (properties st')) key = Some prop.
Proof.
  unfold allOf_part, is_inline_part, is_ref_part. intros H Hinline Hnd Hin Hproto.
  apply andb_prop in Hinline as [Hinline Hprops]. apply andb_prop in Hinline as [Href Htype].
  apply negb_true_iff in Href.
  bind_inv H as ref Hgetref. apply get_get_opt in Hgetref. subst ref. rewrite Href in H.
  bind_inv H as type Hgettype. bind_inv H as partProperties HgetProps.
  apply get_get_opt in Hgettype, HgetProps. subst type partProperties.
  rewrite Htype, Hprops in H. simpl in H.
  bind_inv H as required Hrequired. bind_inv H as rs Hrs.
  apply Normal_inj in H. subst st'. simpl. now apply lookup_assign.
Qed.

(** A part that gives [x] the schema of a reference, after [x] was a string. *)
Lemma inline_part_overrides_witness :
  Js.lookup
    (props_of (properties
                 {| properties := JObj [("x", ref_to "Pet"); ("y", string_schema)];
                    requiredProps := []; usedRefs := []; inheritance := [] |}))
    "x"
  = Some (ref_to "Pet").
Proof.
  refine (inline_part_overrides
            (JObj [("type", JStr "object"); ("properties", JObj [("x", ref_to "Pet")])])
            {| properties := JObj [("x", string_schema); ("y", string_schema)];
               requiredProps := []; usedRefs := []; inheritance := [] |}
            _ "x" (ref_to "Pet") eq_refl eq_refl _ _ _).
  - simpl. repeat constructor. intros H. inversion H.
  - simpl. tauto.
  - discriminate.
Defined.

(** ** Query parameters *)

Lemma query_parameters_of_list (params : list JsVal) :
  forallb not_nullish params = true ->
  bind (filterM (fun param => bind (Js.get param "in")
                                   (fun i => Normal (Js.is_str i "query"))) params)
       (mapM (fun param => Js.get param "name"))
  = Normal (List.map (fun param => Js.get_opt param "name")
                     (List.filter (fun param => Js.is_str (Js.get_opt param "in") "query")
                                  params)).
Proof.
  induction params as [|param params IH]; intros H; [reflexivity |].
  simpl in H. apply andb_prop in H as [Hparam H]. specialize (IH H).
  cbn [filterM List.filter].
  assert (Hget : forall key, Js.get param key = Normal (Js.get_opt param key))
    by (intros key; destruct param; try discriminate; reflexivity).
  rewrite Hget. cbn [bind].
  destruct (filterM _ params) as [selected|e]; [| discriminate]. cbn [bind] in IH |- *.
  destruct (Js.is_str (Js.get_opt param "in") "query"); [| exact IH].
  cbn [mapM List.map]. rewrite Hget. cbn [bind]. now rewrite IH.
Qed.

(** X16: the query parameters of an operation are the names of the entries
    of [parameters] whose [in] is [query], in declaration order and without
    folding duplicates; an operation without [parameters] has none, and a
    [null] entry in the list makes the extraction throw. *)
Theorem query_parameters_in_declaration_order (operation parameters : JsVal) :
  Js.get operation "parameters" = Normal parameters ->
  (Js.truthy parameters = false -> extractQueryParameters operation = Normal [])
  /\ (forall params,
        parameters = JArr params -> forallb not_nullish params = true ->
        extractQueryParameters operation
        = Normal (List.map (fun param => Js.get_opt param "name")
                           (List.filter
                              (fun param => Js.is_str (Js.get_opt param "in") "query")
                              params)))
  /\ (forall params,
        parameters = JArr params -> In JNull params ->
        extractQueryParameters operation = Throw TypeError).
Proof.
  intros Hget. unfold extractQueryParameters. rewrite Hget. cbn [bind]. split_all.
  - intros Hfalse. unfold Js.or. now rewrite Hfalse.
  - intros params -> Hall. cbn [Js.or Js.truthy Js.array_elems bind].
    now apply query_parameters_of_list.
  - intros params -> Hin. cbn [Js.or Js.truthy Js.array_elems bind].
    apply throw_TypeError.
    assert (H : is_normal
                  (filterM (fun param => bind (Js.get param "in")
                                              (fun i => Normal (Js.is_str i "query")))
                           params) = false).
    { clear Hget. induction params as [|param params IH]; [destruct Hin |].
      cbn [filterM]. destruct Hin as [-> | Hin]; [reflexivity |].
      destruct (bind (Js.get param "in") _); [| reflexivity]. cbn [bind].
      specialize (IH Hin). destruct (filterM _ params); [discriminate | reflexivity]. }
    destruct (filterM _ params); [discriminate | reflexivity].
Qed.

(** An operation with two query parameters called [q] and one header. *)
Lemma query_parameters_witness :
  extractQueryParameters
    (JObj [("parameters",
            JArr [JObj [("name", JStr "q"); ("in", JStr "query")];
                  JObj [("name", JStr "token"); ("in", JStr "header")];
                  JObj [("name", JStr "q"); ("in", JStr "query")]])])
  = Normal [JStr "q"; JStr "q"].
Proof.
  exact (proj1 (proj2 (query_parameters_in_declaration_order
                         (JObj [("parameters",
                                 JArr [JObj [("name", JStr "q"); ("in", JStr "query")];
                                       JObj [("name", JStr "token"); ("in", JStr "header")];
                                       JObj [("name", JStr "q"); ("in", JStr "query")]])])
                         _ eq_refl))
                _ eq_refl eq_refl).
Defined.

(** ** The directory walk *)

Lemma walk_entry_spec (path_join : string -> string -> string) :
  forall (entry : Dirent) (dir : string),
    length (walk_entry path_join dir entry) = yaml_files entry
    /\ Forall (fun found => exists d name, found = path_join d name
                                           /\ is_yaml_name name = true)
              (walk_entry path_join dir entry).
Proof.
  fix IH 1. intros [name|name entries|name] dir.
  - cbn [walk_entry yaml_files]. destruct (is_yaml_name name) eqn:Hname.
    + split; [reflexivity |]. constructor; [| constructor]. now exists dir, name.
    + split; [reflexivity | constructor].
  - cbn [walk_entry yaml_files]. generalize (path_join dir name) as sub. intros sub.
    induction entries as [|entry entries IHentries]; [split; [reflexivity | constructor] |].
    cbn [flat_map List.map list_sum]. destruct (IH entry sub) as [Hlen Hall].
    destruct IHentries as [Hlen' Hall'].
    split; [rewrite length_app, Hlen, Hlen'; reflexivity | now apply Forall_app].
  - split; [reflexivity | constructor].
Qed.

(** X17: the walk returns one path per file whose name ends in [.yml] or
    [.yaml] anywhere below the directory; each path is [path.join] of a
    directory and such a name; files with other names, and entries that are
    neither files nor directories, are never returned. *)
Theorem walk_finds_the_yaml_files
        (path_join : string -> string -> string) (dir : string) (entries : list Dirent) :
  length (walk path_join dir entries) = list_sum (List.map yaml_files entries)
  /\ Forall (fun found => exists d name, found = path_join d name
                                         /\ is_yaml_name name = true)
            (walk path_join dir entries).
Proof.
  unfold walk. induction entries as [|entry entries [Hlen Hall]];
    [split; [reflexivity | constructor] |].
  cbn [flat_map List.map list_sum].
  destruct (walk_entry_spec path_join entry dir) as [Hlen' Hall'].
  split; [rewrite length_app, Hlen, Hlen'; reflexivity | now apply Forall_app].
Qed.

(** ** The paths a run writes to *)

Section Frame.

Variable path_join : string -> string -> string.

Lemma generateDTOs_loop_paths entries schemas dtoDir dtoExports :
  exists outcome ws,
    (forall fs, generateDTOs_loop path_join entries schemas dtoDir dtoExports fs
                = (outcome, apply_writes ws fs))
    /\ Forall (fun w => exists name, fst w = path_join dtoDir name) ws.
Proof.
  revert dtoExports. induction entries as [|[schemaName schema] rest IH]; intros dtoExports.
  - exists (Normal dtoExports), []. split; [reflexivity | constructor].
  - cbn [generateDTOs_loop].
    destruct (generateDTOType schemaName schema schemas) as [dtoContent|e].
    + destruct (IH (dtoExports ++ [export_line schemaName])) as (outcome & ws & Hws & Hpaths).
      exists outcome, ((path_join dtoDir (schemaName +:+ ".ts"), dtoContent) :: ws).
      split; [intros fs; now rewrite Hws |]. constructor; [| exact Hpaths]. simpl. eauto.
    + exists (Throw e), []. split; [reflexivity | constructor].
Qed.

Lemma generateDTOs_paths schemas dtoDir :
  exists outcome ws,
    (forall fs, generateDTOs path_join schemas dtoDir fs = (outcome, apply_writes ws fs))
    /\ Forall (fun w => exists name, fst w = path_join dtoDir name) ws.
Proof.
  unfold generateDTOs. destruct (Js.entries schemas) as [entries|e].
  - destruct (generateDTOs_loop_paths entries schemas dtoDir [])
      as (outcome & ws & Hws & Hpaths).
    destruct outcome as [dtoExports|e].
    + exists (Normal tt),
        (ws ++ [(path_join dtoDir "index.ts", Str.join LF dtoExports +:+ LF)]).
      split; [intros fs; rewrite Hws, apply_writes_app; reflexivity |].
      apply Forall_app. split; [exact Hpaths |]. constructor; [| constructor]. simpl. eauto.
    + exists (Throw e), ws. split; [intros fs; now rewrite Hws | exact Hpaths].
  - exists (Throw e), []. split; [reflexivity | constructor].
Qed.

Lemma generateForFile_paths file :
  exists outcome ws,
    (forall fs, generateForFile path_join file fs = (outcome, apply_writes ws fs))
    /\ Forall (fun w =>
                 fst w = client_path path_join (dirname file)
                 \/ exists name,
                     fst w = path_join (path_join (path_join (dirname file) "generated")
                                                  "models") name)
              ws.
Proof.
  unfold generateForFile, client_path.
  destruct (bind (loaded file) _) as [[[document base] components]|e];
    [| exists (Throw e), []; split; [reflexivity | constructor]].
  set (allSchemas := Js.or (Js.get_opt components "schemas") (JObj [])).
  set (dtoDir := path_join (path_join (dirname file) "generated") "models").
  assert (Hdtos : exists outcome ws,
             (forall fs, match Js.own_entries allSchemas with
                         | [] => (Normal tt, fs)
                         | _ => generateDTOs path_join allSchemas dtoDir fs
                         end = (outcome, apply_writes ws fs))
             /\ Forall (fun w => exists name, fst w = path_join dtoDir name) ws).
  { destruct (Js.own_entries allSchemas).
    - exists (Normal tt), []. split; [reflexivity | constructor].
    - apply generateDTOs_paths. }
  destruct Hdtos as (outcome & ws & Hws & Hpaths).
  assert (Hmodels : Forall (fun w =>
                              fst w = path_join (path_join (dirname file) "generated")
                                                "openApi.ts"
                              \/ exists name, fst w = path_join dtoDir name) ws).
  { eapply Forall_impl; [exact Hpaths |]. intros w Hw. now right. }
  destruct outcome as [[]|e].
  - unfold generateClientClass, writeFile. cbn [className].
    destruct (clientContent_of _) as [content|e].
    + exists (Normal tt),
        (ws ++ [(path_join (path_join (dirname file) "generated") "openApi.ts", content)]).
      split; [intros fs; rewrite Hws, apply_writes_app; reflexivity |].
      apply Forall_app. split; [exact Hmodels |]. constructor; [now left | constructor].
    + exists (Throw e), ws. split; [intros fs; now rewrite Hws | exact Hmodels].
  - exists (Throw e), ws. split; [intros fs; now rewrite Hws | exact Hmodels].
Qed.

End Frame.

(** X18: the run of a document writes only to the path of its client file
    and to paths joined directly under its [models] directory: a file at any
    other path is left as it was, whether the run succeeds or throws. *)
Theorem other_files_are_untouched
        (path_join : string -> string -> string) (file : SpecFile)
        (fs : gmap string string) (path : string) :
  path <> client_path path_join (dirname file) ->
  (forall name,
      path <> path_join (path_join (path_join (dirname file) "generated") "models") name) ->
  snd (generateForFile path_join file fs) !! path = fs !! path.
Proof.
  intros Hclient Hmodels.
  destruct (generateForFile_paths path_join file) as (outcome & ws & Hws & Hpaths).
  rewrite Hws. simpl. rewrite lookup_apply_writes, written_none; [reflexivity |].
  eapply Forall_impl; [exact Hpaths |]. intros w [Hw | [name Hw]] Heq.
  - apply Hclient. congruence.
  - apply (Hmodels name). congruence.
Qed.

(** The document itself, at [api/users.yml], after its own run. *)
Lemma other_files_are_untouched_witness :
  snd (generateForFile
         slash_join
         {| dirname := "api"; basename := "users"; loaded := Normal broken_document |}
         {[ "api/users.yml" := "paths: {}" ]})
  !! "api/users.yml"
  = Some "paths: {}".
Proof.
  rewrite (other_files_are_untouched
             slash_join
             {| dirname := "api"; basename := "users"; loaded := Normal broken_document |}
             {[ "api/users.yml" := "paths: {}" ]} "api/users.yml").
  - apply lookup_singleton_eq.
  - vm_compute. discriminate.
  - intros name H. vm_compute in H. discriminate H.
Defined.

(** * Imports, failing schemas and repeated runs *)

(** ** The variables of [generateDTOType] in terms of the schema *)



Lemma allOf_part_properties part st st' :
  allOf_part part st = Normal st' ->
  props_of (properties st')
  = if is_inline_part part
    then Obj.assign (props_of (properties st)) (Js.get_opt part "properties")
    else props_of (properties st).
Proof.
  unfold allOf_part, is_inline_part, is_ref_part. intros H.
  bind_inv H as ref Href. apply get_get_opt in Href. subst ref.
  destruct (Js.truthy (Js.get_opt part "$ref")).
  - bind_inv H as refName HrefName.
    destruct (negb (String.eqb refName "")); apply Normal_inj in H; now subst st'.
  - bind_inv H as type Htype. bind_inv H as partProperties HpartProperties.
    apply get_get_opt in Htype, HpartProperties. subst type partProperties.
    simpl negb. rewrite andb_true_l.
    destruct (Js.is_str _ "object" && Js.truthy _).
    + bind_inv H as required Hrequired. bind_inv H as rs Hrs.
      apply Normal_inj in H. now subst st'.
    + apply Normal_inj in H. now subst st'.
Qed.

Lemma allOf_loop_properties parts st st' :
  foldM allOf_part parts st = Normal st' ->
  props_of (properties st')
  = fold_left (fun merged part =>
                 if is_inline_part part
                 then Obj.assign merged (Js.get_opt part "properties")
                 else merged) parts (props_of (properties st)).
Proof.
  revert st. induction parts as [|part parts IH]; intros st H.
  - apply Normal_inj in H. now subst st'.
  - cbn [foldM] in H. bind_inv H as st1 Hst1. cbn [fold_left].
    rewrite (IH _ H). f_equal. now apply allOf_part_properties.
Qed.

Lemma iterate_allOf_parts allOf parts :
  Js.iterate allOf = Normal parts -> parts = allOf_parts allOf.
Proof.
  destruct allOf; simpl; intros H; try discriminate; apply Normal_inj in H; now subst.
Qed.

(** The variables after lines 150-171, for any schema. *)
Lemma dto_collect_spec schema st :
  dto_collect schema = Normal st ->
  inheritance st = schema_bases schema
  /\ usedRefs st = StrSet.add_all (schema_bases schema) []
  /\ (forall k, In k (requiredProps st) <-> In k (schema_required schema))
  /\ Js.own_entries (properties st) = schema_properties schema.
Proof.
  unfold dto_collect, schema_bases, schema_required, schema_properties. intros H.
  bind_inv H as required Hrequired. bind_inv H as initial Hinitial.
  bind_inv H as allOf HallOf.
  apply get_get_opt in Hrequired, HallOf. subst required allOf.
  apply required_names_iterate in Hinitial.
  destruct (Js.truthy (Js.get_opt schema "allOf")).
  - bind_inv H as parts Hparts. apply iterate_allOf_parts in Hparts. subst parts.
    pose proof (allOf_loop_properties _ _ _ H) as Hprops.
    apply allOf_loop_spec in H as (Hi & Hu & Hr & _ & Hm). simpl in Hi, Hu, Hr, Hm, Hprops.
    destruct Hm as [merged Hmerged]; [now exists [] |].
    split_all.
    + exact Hi.
    + exact Hu.
    + intros k. rewrite Hr, In_add_all, Hinitial, in_app_iff. simpl. tauto.
    + rewrite Hmerged in Hprops |- *. exact Hprops.
  - bind_inv H as schemaProperties HschemaProperties. bind_inv H as rs Hrs.
    apply get_get_opt in HschemaProperties. subst schemaProperties.
    apply required_names_elems in Hrs.
    apply Normal_inj in H. subst st. simpl. split_all; try reflexivity.
    intros k. rewrite !In_add_all, Hrs, Hinitial, in_app_iff. simpl. tauto.
Qed.


(** ** The order of the import lines *)

Lemma flat_map_entries name (props : list (string * JsVal)) :
  flat_map (fun '(_, prop) => refs_in_order name prop) props
  = flat_map (refs_in_order name) (List.map snd props).
Proof.
  induction props as [|[k v] props IH]; [reflexivity |].
  cbn [flat_map List.map snd]. now rewrite IH.
Qed.

Lemma collectRefs_order_loop name (values : list JsVal) :
  (forall v used used',
      In v values -> collectRefs name v used = Normal used' ->
      used' = StrSet.add_all (refs_in_order name v) used) ->
  forall used used',
    foldM (collectRefs name) values used = Normal used' ->
    used' = StrSet.add_all (flat_map (refs_in_order name) values) used.
Proof.
  induction values as [|v values IH]; intros Hspec used used' H.
  - apply Normal_inj in H. now subst used'.
  - cbn [foldM] in H. bind_inv H as used1 Hused1. cbn [flat_map].
    rewrite add_all_app.
    rewrite <- (Hspec v used used1 (or_introl eq_refl) Hused1).
    apply IH; [| exact H]. intros w u u' Hw. apply Hspec. now right.
Qed.

Lemma collectRefs_order name (bound : nat) :
  forall propSchema used used',
    size propSchema < bound ->
    collectRefs name propSchema used = Normal used' ->
    used' = StrSet.add_all (refs_in_order name propSchema) used.
Proof.
  induction bound as [|bound IH]; intros propSchema used used' Hsize H; [lia |].
  destruct propSchema as [| |b|z|s|elems|props]; try discriminate;
    try (apply Normal_inj in H; now subst used').
  cbn [collectRefs] in H. cbn [refs_in_order].
  bind_inv H as used1 Hused1. bind_inv H as used2 Hused2.
  rewrite with_prop_lookup in Hused2, H. rewrite !with_prop_lookup, !add_all_app.
  (* the reference of the schema itself *)
  assert (H1 : used1
               = StrSet.add_all
                   match Js.lookup props "$ref" with
                   | Some (JStr ref) =>
                       if negb (String.eqb ref "")
                          && negb (String.eqb (Str.last_segment ref) "")
                          && negb (String.eqb (Str.last_segment ref) name)
                       then [Str.last_segment ref] else []
                   | _ => []
                   end used).
  { clear H Hused2. destruct (Js.lookup props "$ref") as [ref|]; simpl in Hused1;
      [| apply Normal_inj in Hused1; now subst used1].
    destruct (Js.truthy ref) eqn:Ht.
    - bind_inv Hused1 as refName HrefName.
      destruct ref as [| | | |r| |]; try discriminate.
      apply Normal_inj in HrefName. subst refName.
      simpl in Ht. rewrite Ht. cbn [andb].
      apply Normal_inj in Hused1. subst used1.
      destruct (negb (String.eqb (Str.last_segment r) "")
                && negb (String.eqb (Str.last_segment r) name)); reflexivity.
    - apply Normal_inj in Hused1. subst used1.
      destruct ref as [| | | |r| |]; try reflexivity.
      simpl in Ht. now rewrite Ht. }
  (* the items of an array *)
  assert (H2 : used2
               = StrSet.add_all
                   (if Js.is_str (default JUndefined (Js.lookup props "type")) "array"
                    then match Js.lookup props "items" with
                         | Some items =>
                             if Js.truthy items then refs_in_order name items else []
                         | None => []
                         end
                    else []) used1).
  { clear H Hused1 H1.
    destruct (Js.is_str (default JUndefined (Js.lookup props "type")) "array");
      [| apply Normal_inj in Hused2; now subst used2].
    destruct (Js.lookup props "items") as [items|] eqn:Hitems;
      [| apply Normal_inj in Hused2; now subst used2].
    destruct (Js.truthy items); [| apply Normal_inj in Hused2; now subst used2].
    apply IH; [| exact Hused2]. apply lookup_In, size_entry in Hitems. lia. }
  (* the properties of an object *)
  assert (H3 : used'
               = StrSet.add_all
                   (if Js.is_str (default JUndefined (Js.lookup props "type")) "object"
                    then match Js.lookup props "properties" with
                         | Some (JObj kvs) =>
                             flat_map (fun '(_, prop) => refs_in_order name prop) kvs
                         | Some (JArr elems) => flat_map (refs_in_order name) elems
                         | _ => []
                         end
                    else []) used2).
  { clear Hused1 Hused2 H1 H2.
    destruct (Js.is_str (default JUndefined (Js.lookup props "type")) "object");
      [| apply Normal_inj in H; now subst used'].
    destruct (Js.lookup props "properties") as [properties|] eqn:Hprops;
      [| apply Normal_inj in H; now subst used'].
    assert (Hlt : size properties < bound).
    { apply lookup_In, size_entry in Hprops. lia. }
    destruct (Js.truthy properties) eqn:Ht;
      [| apply Normal_inj in H; subst used';
         destruct properties; try reflexivity; discriminate Ht].
    destruct properties as [| |b|z|s|elems|entries];
      try (apply Normal_inj in H; now subst used').
    - apply (collectRefs_order_loop name elems); [| exact H].
      intros v u u' Hv. apply IH. apply size_elem in Hv. lia.
    - rewrite foldM_entries in H. rewrite flat_map_entries.
      apply (collectRefs_order_loop name (List.map snd entries)); [| exact H].
      intros v u u' Hv. apply IH. apply in_map_iff in Hv as [[k w] [<- Hv]].
      apply size_entry in Hv. simpl snd. lia. }
  rewrite H3, H2, H1. reflexivity.
Qed.

(** The text of an interface declaration in terms of the schema. *)
Lemma generateDTOType_ordered name schema all out :
  Js.truthy (Js.get_opt schema "enum") = false ->
  generateDTOType name schema all = Normal out ->
  interface_text name schema all out.
Proof.
  intros Hfalse Hout.
  assert (Henum : Js.get schema "enum" = Normal (Js.get_opt schema "enum")).
  { unfold generateDTOType in Hout. bind_inv Hout as enum Henum.
    pose proof (get_get_opt _ _ _ Henum) as Heq. now rewrite <- Heq. }
  destruct (generateDTOType_interface _ _ _ _ _ Henum Hfalse Hout)
    as (st & imports & fields & Hst & Himports & Hfields & ->).
  destruct (dto_collect_spec _ _ Hst) as (Hi & Hu & Hr & Hp).
  rewrite Hp, Hu in Himports. rewrite Hp in Hfields. rewrite Hi.
  apply collectRefs_order_loop in Himports;
    [| intros v u u' _; apply (collectRefs_order name (S (size v))); lia].
  exists fields. split.
  - unfold import_order. now rewrite Himports.
  - apply field_lines_spec in Hfields. eapply field_lines_ext; [exact Hr | exact Hfields].
Qed.

(** ** Import lines *)




(** ** The writes of a run *)

Lemma entries_own v es : Js.entries v = Normal es -> es = Js.own_entries v.
Proof. destruct v; simpl; intros H; try discriminate; now apply Normal_inj in H. Qed.


Lemma mapM_Forall2 {A B : Type} (f : A -> completion B) xs ys :
  mapM f xs = Normal ys -> Forall2 (fun x y => f x = Normal y) xs ys.
Proof.
  revert ys. induction xs as [|x xs IH]; intros ys H.
  - apply Normal_inj in H. subst ys. constructor.
  - cbn [mapM] in H. bind_inv H as y Hy. bind_inv H as rest Hrest.
    apply Normal_inj in H. subst ys. constructor; [exact Hy | now apply IH].
Qed.


Section Order.

Variable path_join : string -> string -> string.

Lemma generateDTOs_loop_Forall2 dir entries schemas dtos :
  Forall2 (fun entry dto => generateDTOType (fst entry) (snd entry) schemas = Normal dto)
          entries dtos ->
  forall dtoExports (fs : gmap string string),
    generateDTOs_loop path_join entries schemas (models_dir path_join dir) dtoExports fs
    = (Normal (dtoExports ++ List.map export_line (List.map fst entries)),
       apply_writes (schema_writes path_join dir (List.map fst entries) dtos) fs).
Proof.
  induction 1 as [|[name schema] dto entries dtos Hdto _ IH]; intros dtoExports fs.
  - simpl. now rewrite app_nil_r.
  - cbn [generateDTOs_loop]. simpl in Hdto. rewrite Hdto, IH, <- app_assoc. reflexivity.
Qed.

Lemma generateDTOs_loop_returns entries schemas dtoDir dtoExports
      (fs fs1 : gmap string string) exports :
  generateDTOs_loop path_join entries schemas dtoDir dtoExports fs = (Normal exports, fs1) ->
  exists dtos,
    Forall2 (fun entry dto => generateDTOType (fst entry) (snd entry) schemas = Normal dto)
            entries dtos.
Proof.
  revert dtoExports fs. induction entries as [|[name schema] entries IH];
    intros dtoExports fs H.
  - exists []. constructor.
  - cbn [generateDTOs_loop] in H.
    destruct (generateDTOType name schema schemas) as [dto|e] eqn:Hdto; [| discriminate].
    apply IH in H as [dtos Hdtos]. exists (dto :: dtos). now constructor.
Qed.


Lemma pathItem_methods_ordered pathTemplate pathItem methods :
  pathItem_methods pathTemplate pathItem = Normal methods ->
  methods_text pathTemplate pathItem methods.
Proof.
  unfold pathItem_methods, methods_text. intros H.
  bind_inv H as operations Hoperations. apply entries_own in Hoperations. subst operations.
  bind_inv H as found Hfound. apply Normal_inj in H. subst methods.
  revert found Hfound. generalize (Js.own_entries pathItem) as operations.
  induction operations as [|[method operation] rest IH]; intros found H.
  - apply Normal_inj in H. subst found. constructor.
  - cbn [mapM] in H. bind_inv H as first Hfirst. bind_inv H as others Hothers.
    apply Normal_inj in H. subst found. specialize (IH _ Hothers).
    cbn [List.filter fst]. destruct (accepted_method method) eqn:Hmethod.
    + destruct first as [text|].
      * cbn [omap id]. simpl. constructor; [exact Hfirst | exact IH].
      * apply generateMethod_skipped in Hfirst. congruence.
    + apply <- (generateMethod_skipped pathTemplate method operation) in Hmethod.
      rewrite Hmethod in Hfirst.
      apply Normal_inj in Hfirst. subst first. exact IH.
Qed.

Lemma client_text_of name document url client :
  baseUrl_of document = Normal url ->
  clientContent_of {| fileName := name;
                      className := pascalCase name +:+ "Client";
                      baseUrl := url; spec := document |} = Normal client ->
  client_text name document client.
Proof.
  unfold clientContent_of, client_methods. cbn [baseUrl spec fileName className].
  intros Hbase H. bind_inv H as base Hstring. bind_inv H as methods Hmethods.
  apply Normal_inj in H. subst client.
  bind_inv Hmethods as paths Hpaths. apply get_get_opt in Hpaths. subst paths.
  bind_inv Hmethods as items Hitems. apply entries_own in Hitems. subst items.
  bind_inv Hmethods as perPath HperPath. apply Normal_inj in Hmethods. subst methods.
  exists url, base, perPath. split_all; try assumption; [| reflexivity].
  apply mapM_Forall2 in HperPath.
  eapply Forall2_impl; [exact HperPath |].
  intros [pathTemplate pathItem] methods. apply pathItem_methods_ordered.
Qed.

(** The run of a document on which generation succeeds. *)
Lemma generateForFile_ordered file document (fs : gmap string string) :
  loaded file = Normal document ->
  fst (generateForFile path_join file fs) = Normal tt ->
  exists dtos client,
    Forall2 (fun entry dto =>
               generateDTOType (fst entry) (snd entry) (schemas_of document) = Normal dto)
            (Js.own_entries (schemas_of document)) dtos
    /\ client_text (basename file) document client
    /\ forall fs',
        generateForFile path_join file fs'
        = (Normal tt,
           apply_writes
             (document_writes path_join (dirname file)
                              (List.map fst (Js.own_entries (schemas_of document)))
                              dtos client) fs').
Proof.
  intros Hloaded. unfold generateForFile. rewrite Hloaded. cbn [bind].
  destruct (baseUrl_of document) as [base|e] eqn:Hbase; [| discriminate]. cbn [bind].
  destruct (Js.get document "components") as [components|e] eqn:Hcomponents;
    [| discriminate].
  apply get_get_opt in Hcomponents. subst components. cbn [bind].
  change (Js.or (Js.get_opt (Js.get_opt document "components") "schemas") (JObj []))
    with (schemas_of document).
  change (path_join (path_join (dirname file) "generated") "models")
    with (models_dir path_join (dirname file)).
  unfold generateClientClass, writeFile, document_writes. cbn [className].
  change (path_join (path_join (dirname file) "generated") "openApi.ts")
    with (client_path path_join (dirname file)).
  destruct (Js.own_entries (schemas_of document)) as [|entry entries] eqn:Hentries.
  - destruct (clientContent_of _) as [client|e] eqn:Hclient; [| discriminate].
    intros _. exists [], client. split_all.
    + constructor.
    + now apply (client_text_of _ _ base).
    + reflexivity.
  - unfold generateDTOs. rewrite entries_schemas_of, Hentries.
    destruct (generateDTOs_loop path_join (entry :: entries) _ _ [] fs)
      as [[exports|e] fs1] eqn:Hloop; [| discriminate].
    destruct (generateDTOs_loop_returns _ _ _ _ _ _ _ Hloop) as [dtos Hdtos].
    unfold writeFile.
    destruct (clientContent_of _) as [client|e] eqn:Hclient; [| discriminate].
    intros _. exists dtos, client. split_all.
    + exact Hdtos.
    + now apply (client_text_of _ _ base).
    + intros fs'. rewrite (generateDTOs_loop_Forall2 _ _ _ _ Hdtos [] fs').
      rewrite !apply_writes_app. reflexivity.
Qed.

End Order.

(** ** A schema on which the emitter throws *)



(** ** Repeated runs *)

(** C7: a second run on the same documents leaves every file as the first
    run left it.  For a document within the fragment of the model, a run that
    succeeds writes a sequence of files that the document alone determines,
    every order in it being an order of the document: one DTO file per
    schema in the order of the schemas (its import lines in the order the
    references are met, its bases in the order of [allOf], its fields in the
    order of the properties), the index file with one line per schema in the
    same order, and the client file with the methods in the order of the
    paths and of their operations; every run writes this sequence, whatever
    the files hold before. *)
Theorem C7_same_files_in_input_order (path_join : string -> string -> string) :
  (forall files (fs : gmap string string),
      generateFromOpenAPIFiles path_join files (generateFromOpenAPIFiles path_join files fs)
      = generateFromOpenAPIFiles path_join files fs)
  /\ (forall file document (fs : gmap string string),
        loaded file = Normal document ->
        in_fragment file = true ->
        fst (generateForFile path_join file fs) = Normal tt ->
        exists dtos client,
          Forall2 (fun entry dto =>
                     dto_text (fst entry) (snd entry) (schemas_of document) dto)
                  (Js.own_entries (schemas_of document)) dtos
          /\ client_text (basename file) document client
          /\ (forall fs',
                generateForFile path_join file fs'
                = (Normal tt,
                   apply_writes
                     (document_writes path_join (dirname file)
                                      (List.map fst (Js.own_entries (schemas_of document)))
                                      dtos client) fs'))
          /\ (forall fs',
                generateFromOpenAPIFiles path_join [file] fs'
                = apply_writes
                    (document_writes path_join (dirname file)
                                     (List.map fst (Js.own_entries (schemas_of document)))
                                     dtos client) fs')
          /\ generateFromOpenAPIFiles path_join [file] fs
             !! client_path path_join (dirname file) = Some client).
Proof.
  split; [intros files fs; apply second_run_changes_nothing |].
  intros file document fs Hloaded _ Hok.
  destruct (generateForFile_ordered path_join file document fs Hloaded Hok)
    as (dtos & client & Hdtos & Hclient & Hrun).
  exists dtos, client. split_all.
  - eapply Forall2_impl; [exact Hdtos |]. intros [name schema] dto Hdto.
    split; [exact Hdto |]. intros Henum. now apply generateDTOType_ordered.
  - exact Hclient.
  - exact Hrun.
  - intros fs'. cbn [generateFromOpenAPIFiles]. now rewrite Hrun.
  - cbn [generateFromOpenAPIFiles]. rewrite Hrun. cbn [snd].
    unfold document_writes. rewrite !apply_writes_app. apply lookup_insert_eq.
Qed.

(** The document with the schemas [Pet] and [User]: the run leaves the index
    file with the line of [Pet] before that of [User], and a second run
    changes nothing. *)
Lemma C7_same_files_witness :
  generateFromOpenAPIFiles slash_join [users_file]
                           (generateFromOpenAPIFiles slash_join [users_file] ∅)
  = generateFromOpenAPIFiles slash_join [users_file] ∅
  /\ generateFromOpenAPIFiles slash_join [users_file] ∅ !! "api/generated/models/index.ts"
     = Some ("export type { Pet } from './Pet';" +:+ LF
             +:+ "export type { User } from './User';" +:+ LF).
Proof.
  destruct (C7_same_files_in_input_order slash_join) as [Htwice Horder].
  destruct (Horder users_file users_document ∅ eq_refl eq_refl eq_refl)
    as (dtos & client & Hdtos & _ & _ & Hrun & _).
  split; [apply Htwice |].
  change (Js.own_entries (schemas_of users_document))
    with [("Pet", JObj [("type", JStr "object");
                        ("properties", JObj [("name", string_schema)])]);
          ("User", user_schema)] in Hdtos.
  inversion Hdtos as [|? pet ? dtos1 _ Hdtos1]. subst.
  inversion Hdtos1 as [|? user ? dtos2 _ Hdtos2]. subst.
  inversion Hdtos2. subst.
  rewrite Hrun. rewrite lookup_apply_writes. reflexivity.
Defined.
